(** * Pairwise test-case generator: pair universe, greedy solver, exact
      solver front end and coverage analyzer

    Shallow embedding of [algo.py] and [greedyalgo.py], and of the handlers
    and validation functions of [main.py] that use them.

    - A Python [dict] from names to domains is an association list in
      insertion order (the order of [parameters.keys()] and
      [parameters.values()]); its keys are distinct ([dict_wf]).
    - Names and value labels are strings of bytes, compared as Python
      compares [str]: position by position, a proper prefix first (on UTF-8
      text the order of bytes is the order of code points).
    - A Python [set] of pairs is a [gset]; [len] is [size].
    - [list(a_set)] enumerates a set in an order Python does not specify
      (it depends on string hashing); it is the parameter [list_of_set].
    - Exceptions and the [while] loop of the greedy solver are made explicit
      by the [result] type: [Ok v], [Raise e], or [OutOfFuel] when the loop
      was cut off by the fuel of the model. *)

From Stdlib Require Import ZArith Lia Ascii.
From stdpp Require Import base tactics option list sorting gmap sets strings
  pretty.

Local Set Warnings "-clear-no-such-hyp".

Local Open Scope string_scope.
Local Open Scope list_scope.
Local Open Scope nat_scope.

(** ** Python results *)

Inductive exn : Set := TypeError | ValueError | KeyError | IndexError.

Inductive result (A : Type) : Type :=
| Ok (a : A)
| Raise (e : exn)
| OutOfFuel.
Arguments Ok {A} a.
Arguments Raise {A} e.
Arguments OutOfFuel {A}.

#[global] Instance result_ret : MRet result := fun A a => Ok a.
#[global] Instance result_bind : MBind result := fun A B f m =>
  match m with
  | Ok a => f a
  | Raise e => Raise e
  | OutOfFuel => OutOfFuel
  end.

#[global] Instance exn_eq_dec : EqDecision exn.
Proof. solve_decision. Defined.
#[global] Instance result_eq_dec `{EqDecision A} : EqDecision (result A).
Proof. solve_decision. Defined.

(** [for x in xs: s = body s x], where the body may raise. *)
Fixpoint for_ {S X : Type} (xs : list X) (body : S → X → result S) (s : S)
  : result S :=
  match xs with
  | [] => Ok s
  | x :: xs' => s' ← body s x; for_ xs' body s'
  end.

(** ** Python built-ins and itertools *)

Module Py.

(** [sorted(l)]: a stable sort that only uses [<]. *)
Fixpoint insert_sorted {A} (ltb : A → A → bool) (x : A) (l : list A) : list A :=
  match l with
  | [] => [x]
  | y :: l' => if ltb y x then y :: insert_sorted ltb x l' else x :: y :: l'
  end.

Fixpoint sorted {A} (ltb : A → A → bool) (l : list A) : list A :=
  match l with
  | [] => []
  | x :: l' => insert_sorted ltb x (sorted ltb l')
  end.

(** [itertools.combinations(l, 2)]. *)
Fixpoint combinations {A} (l : list A) : list (A * A) :=
  match l with
  | [] => []
  | x :: l' => (pair x <$> l') ++ combinations l'
  end.

(** [itertools.product] of the unpacked list [ls]: the rightmost position
    varies fastest; the product of no list is the single empty tuple. *)
Fixpoint product {A} (ls : list (list A)) : list (list A) :=
  match ls with
  | [] => [[]]
  | d :: ls' => v ← d; (cons v) <$> product ls'
  end.

(** [l[i]] on a list or tuple, for an index that is not negative. *)
Definition index {A} (l : list A) (i : nat) : result A :=
  match l !! i with
  | Some x => Ok x
  | None => Raise IndexError
  end.

(** [<] on tuples of two strings. *)
Definition tuple_ltb (a b : string * string) : bool :=
  if String.eqb a.1 b.1 then String.ltb a.2 b.2 else String.ltb a.1 b.1.

End Py.

(** ** Data model *)

(** A parameter map: names to domains, in insertion order. *)
Abbreviation dict := (list (string * list string)).
(** An assignment [(name, value)] and a pair of assignments. *)
Abbreviation assignment := (string * string)%type.
Abbreviation pair_t := ((string * string) * (string * string))%type.
(** A test case: one value per parameter, in parameter order. *)
Abbreviation test_t := (list string).

Definition keys (d : dict) : list string := d.*1.
Definition values (d : dict) : list (list string) := d.*2.

(** The keys of a Python dict are distinct. *)
Definition dict_wf (d : dict) : Prop := NoDup (keys d).

(** [d[k]]. *)
Fixpoint getitem (d : dict) (k : string) : result (list string) :=
  match d with
  | [] => Raise KeyError
  | (k', v) :: d' => if String.eqb k' k then Ok v else getitem d' k
  end.

(** [tuple(sorted([a, b]))] for two assignments. *)
Definition sorted_pair (a b : assignment) : pair_t :=
  match Py.sorted Py.tuple_ltb [a; b] with
  | [x; y] => (x, y)
  | _ => (a, b)
  end.

(** An enumeration order for [list(a_set)]. *)
Definition set_listing (list_of_set : gset pair_t → list pair_t) : Prop :=
  ∀ s, list_of_set s ≡ₚ elements s.

(** ** The pair-space builder (the same function in both modules) *)

Definition generate_pairwise_combinations
    (list_of_set : gset pair_t → list pair_t) (parameters : dict)
  : result (list pair_t) :=
  let param_keys := Py.sorted String.ltb (keys parameters) in
  all_pairs ← for_ (Py.combinations param_keys) (fun all_pairs '(p1, p2) =>
    d1 ← getitem parameters p1;
    for_ d1 (fun all_pairs v1 =>
      d2 ← getitem parameters p2;
      for_ d2 (fun all_pairs v2 =>
        Ok (all_pairs ∪ {[ ((p1, v1), (p2, v2)) ]})) all_pairs) all_pairs) ∅;
  Ok (list_of_set all_pairs).

(** ** greedyalgo.py *)

Module greedyalgo.

Definition get_pairs_in_test (test : test_t) (param_keys : list string)
  : result (gset pair_t) :=
  for_ (Py.combinations (seq 0 (length param_keys))) (fun pairs '(p1, p2) =>
    k1 ← Py.index param_keys p1;
    t1 ← Py.index test p1;
    k2 ← Py.index param_keys p2;
    t2 ← Py.index test p2;
    Ok (pairs ∪ {[ sorted_pair (k1, t1) (k2, t2) ]})) ∅.

(** The [for test in all_values] scan of one iteration of the main loop;
    its state is [(best_test, best_new_pairs)]. *)
Definition select_best (all_values : list test_t) (param_keys : list string)
    (covered_pairs : gset pair_t) : result (option test_t * nat) :=
  for_ all_values (fun '(best_test, best_new_pairs) test =>
    test_pairs ← get_pairs_in_test test param_keys;
    let new_pairs := size (test_pairs ∖ covered_pairs) in
    if best_new_pairs <? new_pairs
    then Ok (Some test, new_pairs)
    else Ok (best_test, best_new_pairs)) (None, 0).

(** The [while len(covered_pairs) < len(all_pairs)] loop; its state is
    [(covered_pairs, test_suite)]. *)
Fixpoint while_loop (fuel : nat) (param_keys : list string)
    (all_values : list test_t) (len_all_pairs : nat)
    (covered_pairs : gset pair_t) (test_suite : list test_t)
  : result (gset pair_t * list test_t) :=
  match fuel with
  | 0 => OutOfFuel
  | S fuel' =>
    if size covered_pairs <? len_all_pairs then
      '(best_test, _) ← select_best all_values param_keys covered_pairs;
      match best_test with
      | None => Ok (covered_pairs, test_suite)
      | Some best =>
        best_pairs ← get_pairs_in_test best param_keys;
        while_loop fuel' param_keys all_values len_all_pairs
          (covered_pairs ∪ best_pairs) (test_suite ++ [best])
      end
    else Ok (covered_pairs, test_suite)
  end.

Definition find_minimum_test_suite
    (list_of_set : gset pair_t → list pair_t) (fuel : nat) (parameters : dict)
  : result (list test_t * list pair_t) :=
  let param_keys := keys parameters in
  let all_values := Py.product (values parameters) in
  all_pairs ← generate_pairwise_combinations list_of_set parameters;
  '(_, test_suite) ←
    while_loop fuel param_keys all_values (length all_pairs) ∅ [];
  Ok (test_suite, all_pairs).

Definition count_unique_pairs (test_cases : list test_t)
    (all_pairs : list pair_t) (parameters : dict)
  : result (gset pair_t * list (gset pair_t) * list Z) :=
  let param_keys := keys parameters in
  for_ test_cases (fun '(covered_pairs, test_case_pairs, new_unique_counts) test =>
    let current_covered := size covered_pairs in
    test_pairs ← get_pairs_in_test test param_keys;
    let covered_pairs := covered_pairs ∪ test_pairs in
    let new_unique := (Z.of_nat (size covered_pairs) - Z.of_nat current_covered)%Z in
    Ok (covered_pairs, test_case_pairs ++ [test_pairs],
        new_unique_counts ++ [new_unique])) (∅, [], []).

End greedyalgo.

(** ** algo.py *)

Module algo.

(** What a caller can pass where a parameter map is expected. *)
Inductive pyobj : Type :=
| PyNone
| PyInt (z : Z)
| PyStr (s : string)
| PyList (l : list string).

Inductive pyinput : Type :=
| PyDict (items : list (string * pyobj))
| PyOther (o : pyobj).

Definition is_list (o : pyobj) : bool :=
  match o with PyList _ => true | _ => false end.

(** The domains of a map all of whose values are lists. *)
Definition as_dict (items : list (string * pyobj)) : dict :=
  (λ '(k, o), (k, match o with PyList l => l | _ => [] end)) <$> items.

(** The constraint engine (OR-tools CP-SAT) is outside the repository: the
    model handed to it and what it answers. *)
Inductive cp_status : Set := UNKNOWN | MODEL_INVALID | FEASIBLE | INFEASIBLE | OPTIMAL.

Record cp_model : Type := CpModel {
  (** one Boolean per candidate: [test_case_vars] *)
  num_test_case_vars : nat;
  (** for pair [i], the candidates [j] in [AddMaxEquality(pair_covered[i], ...)] *)
  max_equalities : list (list nat);
  (** [sum(pair_covered.values()) == len(all_pairs)] *)
  covered_sum : nat
}.

(** [solver.Solve(model)] and [solver.Value(test_case_vars[i])]. *)
Abbreviation engine := (cp_model → cp_status * (nat → bool))%type.

Definition build_model (param_keys : list string) (all_values : list test_t)
    (all_pairs : list pair_t) : cp_model :=
  CpModel (length all_values)
    ((λ pair : pair_t,
        fst <$> filter (λ jt : nat * test_t,
                  pair.1 ∈ zip param_keys jt.2 ∧ pair.2 ∈ zip param_keys jt.2)
                (imap (λ j test, (j, test)) all_values)) <$> all_pairs)
    (length all_pairs).

(** [[all_values[i] for i in range(len(all_values)) if solver.Value(...)]]. *)
Definition selected (value : nat → bool) (all_values : list test_t) : list test_t :=
  snd <$> filter (λ it : nat * test_t, value it.1 = true)
            (imap (λ i test, (i, test)) all_values).

(** The second component of the answer collects the [st.warning] messages. *)
Definition find_minimum_test_suite (Solve : engine)
    (list_of_set : gset pair_t → list pair_t) (parameters : pyinput)
  : result (option (list test_t) * option (list pair_t) * list string) :=
  match parameters with
  | PyOther _ => Raise TypeError
  | PyDict items =>
    if bool_decide (items = []) then Raise ValueError
    else if negb (forallb is_list items.*2) then Raise TypeError
    else
      let parameters := as_dict items in
      all_pairs ← generate_pairwise_combinations list_of_set parameters;
      let param_keys := keys parameters in
      let all_values := Py.product (values parameters) in
      let model := build_model param_keys all_values all_pairs in
      let '(status, value) := Solve model in
      match status with
      | OPTIMAL =>
        Ok (Some (selected value all_values), Some all_pairs, [])
      | FEASIBLE =>
        Ok (Some (selected value all_values), Some all_pairs,
            ["Found a solution, but it may not be optimal"])
      | _ => Ok (None, None, [])
      end
  end.

Definition count_unique_pairs (test_cases : list test_t)
    (all_pairs : list pair_t) (parameters : dict)
  : result (gset pair_t * list (gset pair_t) * list Z) :=
  for_ test_cases (fun '(covered_pairs, test_case_pairs, new_unique_counts) test =>
    let current_covered := size covered_pairs in
    test_pairs ← for_ (Py.combinations (zip (keys parameters) test))
      (fun test_pairs '(p1, p2) =>
        let pair := sorted_pair p1 p2 in
        if bool_decide (pair ∈ all_pairs)
        then Ok (test_pairs ∪ {[ pair ]})
        else Ok test_pairs) ∅;
    let covered_pairs := covered_pairs ∪ test_pairs in
    let new_unique := (Z.of_nat (size covered_pairs) - Z.of_nat current_covered)%Z in
    Ok (covered_pairs, test_case_pairs ++ [test_pairs],
        new_unique_counts ++ [new_unique])) (∅, [], []).

End algo.

(** ** Example inputs *)

Definition ex3 : dict :=
  [("P1", ["a"; "b"]); ("P2", ["c"; "d"]); ("P3", ["e"; "f"])].

(** The pair universe of [ex3], in the order of [elements]. *)
Definition ex3_pairs : list pair_t :=
  [(("P2", "c"), ("P3", "e")); (("P1", "a"), ("P2", "c"));
   (("P1", "a"), ("P3", "e")); (("P2", "c"), ("P3", "f"));
   (("P1", "a"), ("P3", "f")); (("P1", "a"), ("P2", "d"));
   (("P1", "b"), ("P2", "c")); (("P1", "b"), ("P3", "e"));
   (("P2", "d"), ("P3", "e")); (("P1", "b"), ("P3", "f"));
   (("P1", "b"), ("P2", "d")); (("P2", "d"), ("P3", "f"))].

(** The suite the greedy solver builds for [ex3]. *)
Definition ex3_suite : list test_t :=
  [["a"; "c"; "e"]; ["a"; "d"; "f"]; ["b"; "c"; "f"]; ["b"; "d"; "e"]].

(** A map with an empty domain: no candidate, one pair in the universe. *)
Definition ex_empty_domain : dict :=
  [("A", []); ("B", ["b"]); ("C", ["c"])].

Definition ex_empty_domain_pairs : list pair_t := [(("B", "b"), ("C", "c"))].

Definition ex2 : dict := [("A", ["a"]); ("B", ["b"])].

Definition ex2_pairs : list pair_t := [(("A", "a"), ("B", "b"))].

(** A full assignment vector whose values are in no domain of [ex2]. *)
Definition ex2_foreign_test : test_t := ["x"; "y"].

Definition ex2_foreign_pair : pair_t := (("A", "x"), ("B", "y")).

(** [ex2] as a caller passes it to the exact solver, and an engine that
    finds nothing. *)
Definition ex2_input : algo.pyinput :=
  algo.PyDict [("A", algo.PyList ["a"]); ("B", algo.PyList ["b"])].

Definition engine_infeasible : algo.engine :=
  λ _, (algo.INFEASIBLE, λ _, false).

(** ** Specification-side notions *)

(** The pairs the specification asks for: two distinct parameter names, the
    smaller one first, each with a value of its own domain. *)
Definition in_universe (parameters : dict) (pr : pair_t) : Prop :=
  ∃ d1 d2,
    (pr.1.1, d1) ∈ parameters ∧ (pr.2.1, d2) ∈ parameters ∧
    String.ltb pr.1.1 pr.2.1 = true ∧
    pr.1.2 ∈ d1 ∧ pr.2.2 ∈ d2.

(** The sum over the unordered pairs of parameters of the product of the
    sizes of their domains. *)
Definition universe_size (parameters : dict) : nat :=
  sum_list ((λ c : (string * list string) * (string * list string),
               length c.1.2 * length c.2.2) <$> Py.combinations parameters).

(** The strict order on names. *)
Definition name_lt (a b : string) : Prop := String.ltb a b = true.

(** The domain bound to a name ([[]] for a name that is not a key). *)
Definition dom (parameters : dict) (k : string) : list string :=
  match getitem parameters k with
  | Ok d => d
  | _ => []
  end.

(** The pairs added for the pairs of names [cs], in the order of the loops. *)
Definition pairs_for (parameters : dict) (cs : list (string * string))
  : list pair_t :=
  c ← cs; v1 ← dom parameters c.1; v2 ← dom parameters c.2;
  [((c.1, v1), (c.2, v2))].

(** The pair universe of a parameter map, as the builder's loops fill it. *)
Definition universe (parameters : dict) : gset pair_t :=
  list_to_set (pairs_for parameters
    (Py.combinations (Py.sorted String.ltb (keys parameters)))).

(** A sum of products of weights over pairs of names. *)
Definition weight_sum (w : string → nat) (cs : list (string * string)) : nat :=
  sum_list ((λ c : string * string, w c.1 * w c.2) <$> cs).

(** The pairs a test case realizes: the sorted pairs of its assignments. *)
Definition test_pairs_list (param_keys : list string) (test : test_t)
  : list pair_t :=
  (λ c : assignment * assignment, sorted_pair c.1 c.2)
    <$> Py.combinations (zip param_keys test).

Definition pairs_of (param_keys : list string) (test : test_t) : gset pair_t :=
  list_to_set (test_pairs_list param_keys test).

(** How many pairs a test case would newly cover. *)
Definition new_count (param_keys : list string) (covered : gset pair_t)
    (test : test_t) : nat :=
  size (pairs_of param_keys test ∖ covered).

(** [t] is the first candidate of [all_values] with the greatest count, and
    that count is not zero: every earlier candidate counts strictly less,
    no candidate counts more. *)
Definition first_best (count : test_t → nat) (all_values : list test_t)
    (t : test_t) : Prop :=
  ∃ i, all_values !! i = Some t ∧ 0 < count t ∧
       (∀ j t', j < i → all_values !! j = Some t' → count t' < count t) ∧
       (∀ t', t' ∈ all_values → count t' ≤ count t).

(** Every test case of [suite] was the first best candidate given what the
    test cases before it cover. *)
Fixpoint greedy_trace (param_keys : list string) (all_values : list test_t)
    (covered : gset pair_t) (suite : list test_t) : Prop :=
  match suite with
  | [] => True
  | t :: suite' =>
    first_best (new_count param_keys covered) all_values t ∧
    greedy_trace param_keys all_values (covered ∪ pairs_of param_keys t) suite'
  end.

(** A test case assigns, in parameter order, one value of each domain. *)
Definition well_formed_test (parameters : dict) (test : test_t) : Prop :=
  Forall2 (λ v kd, v ∈ kd.2) test parameters.

(** The marginal counts of an analyzer whose per-test-case pair sets are
    given by [pairs], starting from [covered]. *)
Fixpoint marginals (pairs : test_t → gset pair_t) (covered : gset pair_t)
    (suite : list test_t) : list Z :=
  match suite with
  | [] => []
  | t :: suite' =>
    (Z.of_nat (size (covered ∪ pairs t)) - Z.of_nat (size covered))%Z
      :: marginals pairs (covered ∪ pairs t) suite'
  end.

(** The pairs that the analyzer of algo.py keeps for a test case. *)
Definition algo_pairs_of (param_keys : list string) (all_pairs : list pair_t)
    (test : test_t) : gset pair_t :=
  list_to_set (filter (λ pr, pr ∈ all_pairs) (test_pairs_list param_keys test)).

(** A candidate that realizes a given pair of the universe. *)
Definition candidate_for (parameters : dict) (pr : pair_t) : test_t :=
  (λ kd : string * list string,
     if String.eqb kd.1 pr.1.1 then pr.1.2
     else if String.eqb kd.1 pr.2.1 then pr.2.2
     else hd "" kd.2) <$> parameters.

(** The inputs that the validation of the exact solver rejects: not a
    dict, an empty dict, or a dict one of whose values is not a list. *)
Definition malformed (input : algo.pyinput) : Prop :=
  match input with
  | algo.PyOther _ => True
  | algo.PyDict items =>
    items = [] ∨ Exists (λ ko : string * algo.pyobj, algo.is_list ko.2 = false) items
  end.

(** The model the exact solver hands to the engine for a validated map. *)
Definition exact_model (list_of_set : gset pair_t → list pair_t)
    (parameters : dict) : algo.cp_model :=
  algo.build_model (keys parameters) (Py.product (values parameters))
    (list_of_set (universe parameters)).

(** Closing a decidable closed goal by evaluation. *)
Ltac by_computation := apply (bool_decide_unpack _); vm_compute; exact I.

(** ** Further specification-side notions *)

(** The number of unordered pairs of [n] positions. *)
Definition choose2 (n : nat) : nat := n * (n - 1) / 2.

(** The sum of a list of counts. *)
Definition sum_counts (counts : list Z) : Z := foldr Z.add 0%Z counts.

(** The size of the candidate space: the product of the domain sizes. *)
Definition candidate_count (parameters : dict) : nat :=
  foldr Nat.mul 1 (length <$> values parameters).

(** What the constraints of the model force on the values an engine
    reports: [pair_covered[i]] is the maximum of the Booleans of the
    candidates listed for pair [i], and the [pair_covered] add up to the
    number of pairs, so every list holds a selected candidate. *)
Definition covers_all (model : algo.cp_model) (value : nat → bool) : Prop :=
  Forall (λ js : list nat, Exists (λ j, value j = true) js)
    (algo.max_equalities model).

(** An engine that selects every candidate and reports OPTIMAL, and one
    that selects every candidate and reports FEASIBLE. *)
Definition engine_all (status : algo.cp_status) : algo.engine :=
  λ _, (status, λ _, true).

(** ** main.py: the handler of the "Generate Test Cases" button *)

Module main.

(** A cell of the results table: a label or value, or a count. *)
Inductive cell : Type :=
| CStr (s : string)
| CInt (z : Z).

(** What the handler puts on the page, in order. *)
Inductive widget : Type :=
| StError (msg : string)
| StWarning (msg : string)
| StSuccess (msg : string)
| StMetric (label : string) (value : nat)
| StSubheader (text : string)
| StDataframe (columns : list string) (table_data : list (list cell)).

(** [enumerate(l, start)]. *)
Definition enumerate {A} (l : list A) (start : nat) : list (nat * A) :=
  zip (seq start (length l)) l.

(** The session's parameter map as the exact solver receives it. *)
Definition to_pyinput (parameters : dict) : algo.pyinput :=
  algo.PyDict ((λ kd : string * list string, (kd.1, algo.PyList kd.2))
                 <$> parameters).

(** The [for i, test in enumerate(optimal_tests, 1)] loop. *)
Definition table_rows (optimal_tests : list test_t) (new_unique_counts : list Z)
  : result (list (list cell)) :=
  for_ (enumerate optimal_tests 1) (fun table_data '(i, test) =>
    count ← Py.index new_unique_counts (i - 1);
    let row := [CStr ("Test " +:+ pretty i)] ++ (CStr <$> test) ++ [CInt count] in
    Ok (table_data ++ [row])) [].

(** The [if optimal_tests:] branch that displays the results. *)
Definition show_results (parameters : dict) (optimal_tests : list test_t)
    (all_pairs : list pair_t) (new_unique_counts : list Z)
  : result (list widget) :=
  let headers := ["Test Case #"] ++ keys parameters ++ ["New Unique Pairs"] in
  table_data ← table_rows optimal_tests new_unique_counts;
  Ok [StSuccess "Test suite generated successfully!";
      StMetric "Total Unique Pairs" (length all_pairs);
      StMetric "Total Test Cases" (length optimal_tests);
      StSubheader "Test Cases";
      StDataframe headers table_data].

Definition no_suite : list widget := [StError "No optimal test suite found."].

(** The body of [if generate_button:], for the session's algorithm and
    parameter map. *)
Definition generate_clicked (Solve : algo.engine)
    (list_of_set : gset pair_t → list pair_t) (fuel : nat)
    (algorithm : string) (parameters : dict) : result (list widget) :=
  let invalid_params :=
    (filter (λ kd : string * list string, length kd.2 < 2) parameters).*1 in
  if bool_decide (invalid_params ≠ []) then
    Ok [StError ("The following parameters need at least 2 values: "
                 +:+ String.concat ", " invalid_params)]
  else if bool_decide (length parameters < 2) then
    Ok [StError "Please add at least 2 parameters"]
  else if String.eqb algorithm "CP-SAT" then
    '(optimal_tests, all_pairs, warnings) ←
      algo.find_minimum_test_suite Solve list_of_set (to_pyinput parameters);
    page ←
      match optimal_tests with
      | Some (test :: tests) =>
        match all_pairs with
        | Some all_pairs =>
          '(_, _, new_unique_counts) ←
            algo.count_unique_pairs (test :: tests) all_pairs parameters;
          show_results parameters (test :: tests) all_pairs new_unique_counts
        | None => Raise TypeError
        end
      | _ => Ok no_suite
      end;
    Ok ((StWarning <$> warnings) ++ page)
  else
    '(optimal_tests, all_pairs) ←
      greedyalgo.find_minimum_test_suite list_of_set fuel parameters;
    match optimal_tests with
    | test :: tests =>
      '(_, _, new_unique_counts) ←
        greedyalgo.count_unique_pairs (test :: tests) all_pairs parameters;
      show_results parameters (test :: tests) all_pairs new_unique_counts
    | [] => Ok no_suite
    end.

(** *** Validation of names and values, and the handlers that edit the map

    A character is one [ascii]; [isspace] and [isalnum] stand for Python's
    [str.isspace] and [str.isalnum] on one character, and [list_of_names]
    for the order in which a set of strings is enumerated. *)

Section validation.
Variables isspace isalnum : ascii → bool.
Variable list_of_names : gset string → list string.

(** [s.lstrip()], [s.rstrip()], [s.strip()]. *)
Fixpoint lstrip (s : string) : string :=
  match s with
  | EmptyString => EmptyString
  | String c s' => if isspace c then lstrip s' else s
  end.

Fixpoint rstrip (s : string) : string :=
  match s with
  | EmptyString => EmptyString
  | String c s' =>
    match rstrip s' with
    | EmptyString => if isspace c then EmptyString else String c EmptyString
    | r => String c r
    end
  end.

Definition strip (s : string) : string := rstrip (lstrip s).

(** [s.split(sep)] for a separator of one character. *)
Fixpoint split (sep : ascii) (s : string) : list string :=
  match s with
  | EmptyString => [EmptyString]
  | String c s' =>
    if Ascii.eqb c sep then EmptyString :: split sep s'
    else match split sep s' with
         | piece :: pieces => String c piece :: pieces
         | [] => [String c EmptyString]
         end
  end.

Definition validate_parameter_name (parameters : dict) (name : string)
  : bool * string :=
  if String.eqb name "" || String.eqb (strip name) "" then
    (false, "Parameter name cannot be empty")
  else if negb (forallb (λ c, isalnum c ||
                  bool_decide (c ∈ [" "; "_"; "-"]%char))
                  (String.list_ascii_of_string name)) then
    (false, "Parameter names can only contain letters, numbers, spaces, underscores, and hyphens")
  else if 50 <? String.length name then
    (false, "Parameter name too long (max 50 characters)")
  else if bool_decide (strip name ∈ keys parameters) then
    (false, "Parameter name already exists")
  else (true, "").

Definition validate_parameter_values (parameters : dict) (values : string)
    (current_param : option string) : bool * list string * string :=
  if String.eqb values "" || String.eqb (strip values) "" then
    (false, [], "Values cannot be empty")
  else
    let values_list :=
      strip <$> filter (λ v, strip v ≠ "") (split "," values) in
    if 50 <? length values_list then
      (false, [], "Maximum 50 values allowed per parameter")
    else
      let long_values := filter (λ v, 100 < String.length v) values_list in
      if bool_decide (long_values ≠ []) then
        (false, [], "Values exceeding 100 characters: "
                    +:+ String.concat ", " long_values)
      else if bool_decide (length values_list
                           ≠ size (list_to_set values_list : gset string)) then
        (false, [], "Duplicate values are not allowed within a parameter")
      else
        let all_other_values : gset string :=
          foldl (λ acc '(param, param_values),
                   if bool_decide (Some param ≠ current_param)
                   then acc ∪ list_to_set param_values else acc) ∅ parameters in
        let duplicates := list_to_set values_list ∩ all_other_values in
        if bool_decide (duplicates ≠ ∅) then
          (false, [], "Values " +:+ String.concat ", " (list_of_names duplicates)
                      +:+ " already exist in other parameters")
        else if length values_list <? 2 then
          (false, [], "At least 2 values are required for each parameter")
        else (true, values_list, "").

(** [d[k] = v] and [del d[k]] on the session's map. *)
Fixpoint setitem (d : dict) (k : string) (v : list string) : dict :=
  match d with
  | [] => [(k, v)]
  | (k', v') :: d' =>
    if String.eqb k' k then (k, v) :: d' else (k', v') :: setitem d' k v
  end.

Fixpoint delitem (d : dict) (k : string) : result dict :=
  match d with
  | [] => Raise KeyError
  | (k', v') :: d' =>
    if String.eqb k' k then Ok d' else d'' ← delitem d' k; Ok ((k', v') :: d'')
  end.

(** The "Add Parameter" button: the new map and the message shown. *)
Definition add_parameter_clicked (parameters : dict)
    (new_param new_values : string) : dict * widget :=
  let '(name_valid, name_error) :=
    validate_parameter_name parameters new_param in
  if name_valid then
    let '(values_valid, values_list, values_error) :=
      validate_parameter_values parameters new_values None in
    if values_valid then
      (setitem parameters (strip new_param) values_list,
       StSuccess ("Added " +:+ new_param))
    else (parameters, StError values_error)
  else (parameters, StError name_error).

(** The "Update" button of parameter [param], with the text of its field. *)
Definition update_clicked (parameters : dict) (param values : string)
  : dict * widget :=
  let '(values_valid, values_list, values_error) :=
    validate_parameter_values parameters values (Some param) in
  if negb values_valid then (parameters, StError values_error)
  else (setitem parameters param values_list,
        StSuccess ("Updated " +:+ param)).

(** The "Delete" button of parameter [param]. *)
Definition delete_clicked (parameters : dict) (param : string)
  : result (dict * widget) :=
  parameters ← delitem parameters param;
  if length parameters =? 1 then
    Ok (parameters,
        StWarning "Only 1 parameter remaining. Add more parameters to generate test cases.")
  else Ok (parameters, StSuccess ("Deleted " +:+ param)).

(** The text shown in the field of a parameter: [", ".join(values)]. *)
Definition field_text (values : list string) : string :=
  String.concat ", " values.

End validation.

(** The map a new session starts with. *)
Definition initial_parameters : dict :=
  [("Display Mode", ["Full Graph"; "Text Only"; "Limited-Bandwidth"]);
   ("Language", ["English"; "French"; "Spanish"; "Turkish"]);
   ("Fonts", ["Minimal"; "Standard"; "Document-loaded"]);
   ("Color", ["Monochrome"; "Colormap"; "16-bit"; "True Color"]);
   ("Screen Size", ["Hand-held"; "laptop"; "fullsize"])].

End main.

(** The rows the table is expected to hold for a suite and its counts,
    numbered from [k + 1]. *)
Fixpoint rows_from (k : nat) (tests : list test_t) (counts : list Z)
  : list (list main.cell) :=
  match tests with
  | [] => []
  | t :: ts =>
    (main.CStr ("Test " +:+ pretty (S k)) :: (main.CStr <$> t)
       ++ [main.CInt (counts !!! k)])
      :: rows_from (S k) ts counts
  end.

(** The page of results for a suite, its counts and the number of pairs. *)
Definition results_page (parameters : dict) (suite : list test_t)
    (counts : list Z) (pairs : nat) : list main.widget :=
  [main.StSuccess "Test suite generated successfully!";
   main.StMetric "Total Unique Pairs" pairs;
   main.StMetric "Total Test Cases" (length suite);
   main.StSubheader "Test Cases";
   main.StDataframe (["Test Case #"] ++ keys parameters ++ ["New Unique Pairs"])
     (rows_from 0 suite counts)].

(** The gate of the handler: at least two parameters, each with at least
    two values. *)
Definition gate (parameters : dict) : Prop :=
  2 ≤ length parameters ∧ Forall (λ kd, 2 ≤ length kd.2) parameters.

(** Python's white space and alphanumeric characters, among the ASCII
    characters. *)
Definition ascii_isspace (c : ascii) : bool :=
  let n := nat_of_ascii c in
  ((9 <=? n) && (n <=? 13)) || ((28 <=? n) && (n <=? 32)).

Definition ascii_isalnum (c : ascii) : bool :=
  let n := nat_of_ascii c in
  ((48 <=? n) && (n <=? 57)) || ((65 <=? n) && (n <=? 90))
  || ((97 <=? n) && (n <=? 122)).

(** A value as the validation leaves it: not empty, without surrounding
    white space, without comma, of at most 100 characters. *)
Definition clean_value (isspace : ascii → bool) (v : string) : Prop :=
  v ≠ "" ∧ main.strip isspace v = v ∧
  (","%char ∉ String.list_ascii_of_string v) ∧ String.length v ≤ 100.

(** A domain as the validation leaves it. *)
Definition clean_domain (isspace : ascii → bool) (d : list string) : Prop :=
  2 ≤ length d ≤ 50 ∧ NoDup d ∧ Forall (clean_value isspace) d.

(** The invariant of the session's map: distinct names, clean domains, and
    no value shared by two parameters. *)
Definition state_ok (isspace : ascii → bool) (parameters : dict) : Prop :=
  dict_wf parameters ∧
  Forall (λ kd, clean_domain isspace kd.2) parameters ∧
  ∀ k1 d1 k2 d2 v,
    (k1, d1) ∈ parameters → (k2, d2) ∈ parameters → k1 ≠ k2 →
    v ∈ d1 → v ∉ d2.

(** ** Further example inputs *)

(** [ex3] with its first two entries exchanged. *)
Definition ex3_swapped : dict :=
  [("P2", ["c"; "d"]); ("P1", ["a"; "b"]); ("P3", ["e"; "f"])].

Definition ex1 : dict := [("A", ["a"])].

(** Two parameters of two values each, and the suite the greedy solver
    builds for them. *)
Definition ex22 : dict := [("A", ["a1"; "a2"]); ("B", ["b1"; "b2"])].

Definition ex22_suite : list test_t :=
  [["a1"; "b1"]; ["a1"; "b2"]; ["a2"; "b1"]; ["a2"; "b2"]].

Definition ex22_pairs : list pair_t := elements (universe ex22).

Definition ex2_items : list (string * algo.pyobj) :=
  [("A", algo.PyList ["a"]); ("B", algo.PyList ["b"])].

(** ** The result monad and [for] loops *)

Lemma for__inv {S X} (I : list X → S → Prop) (xs : list X)
    (body : S → X → result S) (s : S) :
  I [] s →
  (∀ pre x post s, xs = pre ++ x :: post → I pre s →
     ∃ s', body s x = Ok s' ∧ I (pre ++ [x]) s') →
  ∃ s', for_ xs body s = Ok s' ∧ I xs s'.
Proof.
  revert I s. induction xs as [|x xs IH]; intros I s H0 Hstep.
  - exists s. by split.
  - destruct (Hstep [] x xs s eq_refl H0) as (s1 & Hb & H1).
    destruct (IH (λ pre, I (x :: pre)) s1) as (s' & Hf & HI).
    + exact H1.
    + intros pre y post s2 -> Hpre.
      apply (Hstep (x :: pre) y post s2); by auto.
    + exists s'. split; [|done]. simpl. by rewrite Hb.
Qed.

Lemma for__union {X} (f : X → pair_t) (xs : list X) (acc : gset pair_t) :
  for_ xs (λ acc x, Ok (acc ∪ {[ f x ]})) acc = Ok (acc ∪ list_to_set (f <$> xs)).
Proof.
  revert acc. induction xs as [|x xs IH]; intros acc; simpl.
  - f_equal. set_solver.
  - rewrite IH. f_equal. set_solver.
Qed.

(** ** The order on names *)

Lemma ltb_leb (a b : string) : String.ltb a b = negb (String.leb b a).
Proof.
  unfold String.ltb, String.leb. rewrite (String.compare_antisym a b).
  by destruct (String.compare b a).
Qed.

Lemma ltb_irrefl (a : string) : String.ltb a a = false.
Proof.
  rewrite ltb_leb. apply negb_false_iff, Is_true_true.
  apply (reflexivity (R := String.le)).
Qed.

Lemma ltb_trans (a b c : string) :
  String.ltb a b = true → String.ltb b c = true → String.ltb a c = true.
Proof.
  rewrite !ltb_leb, !negb_true_iff. intros Hba Hcb.
  apply not_true_iff_false. intros Hca%Is_true_true.
  destruct (total String.le a b) as [Hab|Hab].
  - assert (String.le c b) as Hcb' by (by etrans).
    apply Is_true_true in Hcb'. congruence.
  - apply Is_true_true in Hab. congruence.
Qed.

Lemma ltb_asym (a b : string) :
  String.ltb a b = true → String.ltb b a = false.
Proof.
  intros Hab. apply not_true_iff_false. intros Hba.
  pose proof (ltb_trans _ _ _ Hab Hba) as H. by rewrite ltb_irrefl in H.
Qed.

Lemma ltb_total (a b : string) :
  a ≠ b → String.ltb a b = true ∨ String.ltb b a = true.
Proof.
  intros Hne. rewrite !ltb_leb, !negb_true_iff.
  destruct (String.leb a b) eqn:Hab, (String.leb b a) eqn:Hba; auto.
  destruct Hne. by apply String.leb_antisym.
Qed.

(** ** [sorted] *)

Lemma insert_sorted_perm {A} (ltb : A → A → bool) (x : A) (l : list A) :
  Py.insert_sorted ltb x l ≡ₚ x :: l.
Proof.
  induction l as [|y l IH]; simpl; [done|].
  destruct (ltb y x); [|done]. rewrite IH. apply Permutation_swap.
Qed.

Lemma sorted_perm {A} (ltb : A → A → bool) (l : list A) :
  Py.sorted ltb l ≡ₚ l.
Proof.
  induction l as [|x l IH]; simpl; [done|].
  by rewrite insert_sorted_perm, IH.
Qed.

Lemma insert_sorted_strict (x : string) (l : list string) :
  x ∉ l → StronglySorted name_lt l →
  StronglySorted name_lt (Py.insert_sorted String.ltb x l).
Proof.
  induction l as [|y l IH]; simpl; intros Hx Hs.
  - repeat constructor.
  - apply StronglySorted_inv in Hs as [Hs Hy].
    apply not_elem_of_cons in Hx as [Hxy Hx].
    destruct (String.ltb y x) eqn:Hyx.
    + constructor; [by apply IH|].
      rewrite insert_sorted_perm. by constructor.
    + assert (name_lt x y) as Hlt.
      { destruct (ltb_total x y Hxy) as [?|?]; [done|congruence]. }
      constructor; [by constructor|]. constructor; [done|].
      eapply Forall_impl; [exact Hy|]. intros z Hz. by eapply ltb_trans.
Qed.

Lemma sorted_strict (l : list string) :
  NoDup l → StronglySorted name_lt (Py.sorted String.ltb l).
Proof.
  induction 1 as [|x l Hx Hnd IH]; simpl; [constructor|].
  apply insert_sorted_strict; [|done]. by rewrite sorted_perm.
Qed.

Lemma sorted_pair_eq (a b : assignment) :
  sorted_pair a b = if Py.tuple_ltb b a then (b, a) else (a, b).
Proof. unfold sorted_pair. simpl. by destruct (Py.tuple_ltb b a). Qed.

Lemma sorted_pair_names (k1 v1 k2 v2 : string) :
  k1 ≠ k2 →
  sorted_pair (k1, v1) (k2, v2) =
    if String.ltb k1 k2 then ((k1, v1), (k2, v2)) else ((k2, v2), (k1, v1)).
Proof.
  intros Hne. rewrite sorted_pair_eq. unfold Py.tuple_ltb. simpl.
  destruct (String.eqb_spec k2 k1) as [->|_]; [done|].
  destruct (ltb_total k1 k2 Hne) as [H|H].
  - by rewrite H, (ltb_asym _ _ H).
  - by rewrite H, (ltb_asym _ _ H).
Qed.

(** ** [combinations] *)

Lemma combinations_cons {A} (x : A) (l : list A) :
  Py.combinations (x :: l) = (pair x <$> l) ++ Py.combinations l.
Proof. done. Qed.

Lemma elem_of_combinations_cons {A} (x : A) (l : list A) (c : A * A) :
  c ∈ Py.combinations (x :: l) ↔ (c.1 = x ∧ c.2 ∈ l) ∨ c ∈ Py.combinations l.
Proof.
  rewrite combinations_cons, elem_of_app, list_elem_of_fmap.
  destruct c as [a b]; simpl.
  split; intros [H|H]; auto; left.
  - destruct H as (y & [= -> ->] & Hy). by auto.
  - destruct H as [-> H]. by exists b.
Qed.

Lemma elem_of_combinations_elem {A} (l : list A) (a b : A) :
  (a, b) ∈ Py.combinations l → a ∈ l ∧ b ∈ l.
Proof.
  induction l as [|x l IH]; [by intros ?%elem_of_nil|].
  rewrite elem_of_combinations_cons. simpl. intros [[-> H]|H].
  - split; [left|by right].
  - destruct (IH H). split; by right.
Qed.

Lemma elem_of_combinations_sorted (l : list string) (a b : string) :
  StronglySorted name_lt l →
  (a, b) ∈ Py.combinations l ↔ a ∈ l ∧ b ∈ l ∧ name_lt a b.
Proof.
  induction 1 as [|x l Hs IH Hx].
  { simpl. split; [by intros ?%elem_of_nil|by intros [?%elem_of_nil _]]. }
  rewrite elem_of_combinations_cons, IH. simpl.
  rewrite Forall_forall in Hx. split.
  - intros [[-> Hb]|(Ha & Hb & Hlt)].
    + repeat split; [left|by right|by apply Hx].
    + repeat split; by try right.
  - intros (Ha & Hb & Hlt).
    apply elem_of_cons in Ha as [->|Ha].
    + left. split; [done|]. apply elem_of_cons in Hb as [->|Hb]; [|done].
      unfold name_lt in Hlt. by rewrite ltb_irrefl in Hlt.
    + right. repeat split; [done| |done].
      apply elem_of_cons in Hb as [->|Hb]; [|done].
      apply Hx in Ha. unfold name_lt in *. by rewrite (ltb_asym _ _ Ha) in Hlt.
Qed.

Lemma combinations_fmap {A B} (f : A → B) (l : list A) :
  Py.combinations (f <$> l) = prod_map f f <$> Py.combinations l.
Proof.
  induction l as [|x l IH]; [done|].
  rewrite fmap_cons, !combinations_cons, fmap_app, IH, <-!list_fmap_compose.
  done.
Qed.

Lemma NoDup_combinations {A} (l : list A) :
  NoDup l → NoDup (Py.combinations l).
Proof.
  induction 1 as [|x l Hx Hnd IH]; [constructor|].
  rewrite combinations_cons. apply NoDup_app. split; [|split; [|done]].
  - apply (NoDup_fmap_2 _). done.
  - intros [a b] (y & [= -> ->] & Hy)%list_elem_of_fmap Hc.
    by apply elem_of_combinations_elem in Hc as [? _].
Qed.

(** ** Dictionaries *)

Lemma getitem_elem_of (d : dict) (k : string) (v : list string) :
  getitem d k = Ok v → (k, v) ∈ d.
Proof.
  induction d as [|[k' v'] d IH]; simpl; [done|].
  destruct (String.eqb_spec k' k) as [->|_].
  - intros [= ->]. left.
  - intros H. right. by apply IH.
Qed.

Lemma getitem_key (d : dict) (k : string) :
  k ∈ keys d → ∃ v, getitem d k = Ok v.
Proof.
  unfold keys. induction d as [|[k' v'] d IH]; simpl.
  - by intros ?%elem_of_nil.
  - destruct (String.eqb_spec k' k) as [->|Hne]; [by eauto|].
    intros [?|?]%elem_of_cons; [congruence|by auto].
Qed.

Lemma getitem_wf (d : dict) (k : string) (v : list string) :
  dict_wf d → (k, v) ∈ d → getitem d k = Ok v.
Proof.
  unfold dict_wf, keys. induction d as [|[k' v'] d IH]; simpl.
  - by intros _ ?%elem_of_nil.
  - intros [Hk Hnd]%NoDup_cons [[= -> ->]|Hin]%elem_of_cons.
    + by rewrite String.eqb_refl.
    + destruct (String.eqb_spec k' k) as [->|_]; [|by auto].
      destruct Hk. apply list_elem_of_fmap. by exists (k, v).
Qed.

Lemma getitem_dom (d : dict) (k : string) :
  k ∈ keys d → getitem d k = Ok (dom d k).
Proof. intros [v Hv]%getitem_key. unfold dom. by rewrite Hv. Qed.

Lemma elem_of_dict_dom (d : dict) (k : string) (v : list string) :
  dict_wf d → (k, v) ∈ d ↔ k ∈ keys d ∧ dom d k = v.
Proof.
  intros Hwf. split.
  - intros Hin. split.
    + apply list_elem_of_fmap. by exists (k, v).
    + unfold dom. by rewrite (getitem_wf _ _ _ Hwf Hin).
  - intros [Hk <-]. apply getitem_elem_of. by apply getitem_dom.
Qed.

(** ** The pair-space builder *)

Lemma for__products (p1 p2 : string) (get : result (list string))
    (d1 d2 : list string) (acc : gset pair_t) :
  get = Ok d2 →
  for_ d1 (λ acc v1,
      d ← get; for_ d (λ acc v2, Ok (acc ∪ {[ ((p1, v1), (p2, v2)) ]})) acc) acc
  = Ok (acc ∪ list_to_set (v1 ← d1; v2 ← d2; [((p1, v1), (p2, v2))])).
Proof.
  intros ->. simpl. revert acc. induction d1 as [|v1 d1 IH]; intros acc; simpl.
  - f_equal. set_solver.
  - rewrite (for__union (λ v2, ((p1, v1), (p2, v2)))). simpl.
    rewrite IH. f_equal.
    rewrite list_to_set_app_L.
    replace (d2 ≫= λ v2, [((p1, v1), (p2, v2))])
      with ((λ v2, ((p1, v1), (p2, v2))) <$> d2); [set_solver|].
    clear. induction d2 as [|x d2 IH]; simpl; by f_equal.
Qed.

Lemma generate_pairwise_combinations_eq
    (list_of_set : gset pair_t → list pair_t) (parameters : dict) :
  generate_pairwise_combinations list_of_set parameters =
    Ok (list_of_set (list_to_set (pairs_for parameters
          (Py.combinations (Py.sorted String.ltb (keys parameters)))))).
Proof.
  unfold generate_pairwise_combinations.
  set (cs := Py.combinations _).
  assert (∀ c, c ∈ cs → c.1 ∈ keys parameters ∧ c.2 ∈ keys parameters) as Hcs.
  { intros [a b] [Ha Hb]%elem_of_combinations_elem.
    by rewrite !sorted_perm in Ha, Hb. }
  match goal with |- context [for_ cs ?b ∅] => set (body := b) end.
  assert (∀ acc, for_ cs body acc
            = Ok (acc ∪ list_to_set (pairs_for parameters cs))) as ->.
  { clearbody cs. induction cs as [|[p1 p2] cs IH]; intros acc; simpl.
    - f_equal. set_solver.
    - destruct (Hcs (p1, p2)) as [H1 H2]; [left|]. simpl in H1, H2.
      rewrite (getitem_dom _ _ H1). simpl.
      rewrite (for__products p1 p2 _ _ (dom parameters p2)); [|by apply getitem_dom].
      simpl. rewrite IH; [|intros c Hc; apply Hcs; by right].
      f_equal. unfold pairs_for at 2. simpl.
      rewrite list_to_set_app_L. fold (pairs_for parameters cs). set_solver. }
  simpl. do 2 f_equal. set_solver.
Qed.

Lemma elem_of_pairs_for (parameters : dict) (cs : list (string * string))
    (pr : pair_t) :
  pr ∈ pairs_for parameters cs ↔
    (pr.1.1, pr.2.1) ∈ cs ∧
    pr.1.2 ∈ dom parameters pr.1.1 ∧ pr.2.2 ∈ dom parameters pr.2.1.
Proof.
  unfold pairs_for. rewrite list_elem_of_bind. split.
  - intros ([p1 p2] & Hpr & Hc). simpl in Hpr.
    apply list_elem_of_bind in Hpr as (v1 & Hpr & Hv1).
    apply list_elem_of_bind in Hpr as (v2 & Hpr & Hv2).
    apply list_elem_of_singleton in Hpr as ->. by simpl.
  - destruct pr as [[p1 v1] [p2 v2]]. simpl. intros (Hc & Hv1 & Hv2).
    exists (p1, p2). split; [|done]. simpl.
    apply list_elem_of_bind. exists v1. split; [|done].
    apply list_elem_of_bind. exists v2. split; [|done].
    by apply list_elem_of_singleton.
Qed.

Lemma elem_of_universe (parameters : dict) (pr : pair_t) :
  dict_wf parameters →
  pr ∈ universe parameters ↔ in_universe parameters pr.
Proof.
  intros Hwf. unfold universe, in_universe.
  rewrite elem_of_list_to_set, elem_of_pairs_for.
  rewrite elem_of_combinations_sorted by (by apply sorted_strict).
  rewrite !sorted_perm. unfold name_lt. split.
  - intros ((H1 & H2 & Hlt) & Hv1 & Hv2).
    exists (dom parameters pr.1.1), (dom parameters pr.2.1).
    rewrite !elem_of_dict_dom by done. by auto.
  - intros (d1 & d2 & H1 & H2 & Hlt & Hv1 & Hv2).
    apply elem_of_dict_dom in H1 as [H1 <-]; [|done].
    apply elem_of_dict_dom in H2 as [H2 <-]; [|done]. by auto.
Qed.

Lemma NoDup_dom (parameters : dict) (k : string) :
  Forall (λ kd, NoDup kd.2) parameters → NoDup (dom parameters k).
Proof.
  intros Hnd. unfold dom. destruct (getitem parameters k) as [d| |] eqn:Hk;
    try constructor.
  apply getitem_elem_of in Hk. rewrite Forall_forall in Hnd.
  by apply (Hnd (k, d)).
Qed.

Lemma NoDup_pairs_for (parameters : dict) (cs : list (string * string)) :
  Forall (λ kd, NoDup kd.2) parameters → NoDup cs →
  NoDup (pairs_for parameters cs).
Proof.
  intros Hdom Hcs. unfold pairs_for. apply NoDup_bind; [| |done].
  - intros [a b] [a' b'] pr _ _ H H'. simpl in H, H'.
    apply list_elem_of_bind in H as (v1 & H & _).
    apply list_elem_of_bind in H as (v2 & ->%list_elem_of_singleton & _).
    apply list_elem_of_bind in H' as (v1' & H' & _).
    apply list_elem_of_bind in H' as (v2' & H'%list_elem_of_singleton & _).
    congruence.
  - intros [a b] _. simpl. apply NoDup_bind; [| |by apply NoDup_dom].
    + intros v1 v1' pr _ _ H H'.
      apply list_elem_of_bind in H as (v2 & ->%list_elem_of_singleton & _).
      apply list_elem_of_bind in H' as (v2' & H'%list_elem_of_singleton & _).
      congruence.
    + intros v1 _. apply NoDup_bind; [| |by apply NoDup_dom].
      * intros v2 v2' pr _ _ ->%list_elem_of_singleton H'%list_elem_of_singleton.
        congruence.
      * intros v2 _. apply NoDup_singleton.
Qed.

Lemma length_bind_const {A B} (f : A → list B) (l : list A) (n : nat) :
  (∀ x, length (f x) = n) → length (l ≫= f) = length l * n.
Proof.
  intros Hf. induction l as [|x l IH]; [done|].
  rewrite bind_cons, length_app, IH, Hf. simpl. lia.
Qed.

Lemma length_pairs_for (parameters : dict) (cs : list (string * string)) :
  length (pairs_for parameters cs) =
    weight_sum (λ k, length (dom parameters k)) cs.
Proof.
  unfold pairs_for, weight_sum. induction cs as [|[a b] cs IH]; [done|].
  rewrite bind_cons, length_app, IH, fmap_cons. simpl. f_equal.
  apply length_bind_const. intros v1.
  rewrite (length_bind_const _ _ 1) by done. lia.
Qed.

(** ** Sums over unordered pairs do not depend on the order of the names *)

Lemma weight_sum_combinations_cons (w : string → nat) (x : string)
    (l : list string) :
  weight_sum w (Py.combinations (x :: l)) =
    w x * sum_list (w <$> l) + weight_sum w (Py.combinations l).
Proof.
  unfold weight_sum. rewrite combinations_cons, fmap_app, sum_list_with_app.
  f_equal. rewrite <-list_fmap_compose.
  induction l as [|y l IH]; [simpl; lia|].
  rewrite !fmap_cons. simpl. rewrite IH. unfold id. lia.
Qed.

Lemma sum_list_fmap_perm {A} (w : A → nat) (l l' : list A) :
  l ≡ₚ l' → sum_list (w <$> l) = sum_list (w <$> l').
Proof.
  induction 1 as [|x l l' _ IH|x y l|l l' l'' _ IH1 _ IH2];
    rewrite ?fmap_cons; simpl; [done|by rewrite IH|lia|congruence].
Qed.

Lemma weight_sum_combinations_perm (w : string → nat) (l l' : list string) :
  l ≡ₚ l' →
  weight_sum w (Py.combinations l) = weight_sum w (Py.combinations l').
Proof.
  induction 1 as [|x l l' Hp IH|x y l|l l' l'' _ IH1 _ IH2].
  - done.
  - rewrite !weight_sum_combinations_cons, IH.
    by rewrite (sum_list_fmap_perm w l l').
  - rewrite !weight_sum_combinations_cons, !fmap_cons. simpl.
    generalize (sum_list (w <$> l)), (weight_sum w (Py.combinations l)).
    intros s t. unfold id. nia.
  - congruence.
Qed.

Lemma universe_size_weight_sum (parameters : dict) :
  dict_wf parameters →
  universe_size parameters =
    weight_sum (λ k, length (dom parameters k))
      (Py.combinations (keys parameters)).
Proof.
  intros Hwf. unfold universe_size, weight_sum, keys.
  rewrite combinations_fmap, <-list_fmap_compose. f_equal.
  apply list_fmap_ext. intros i [[k1 d1] [k2 d2]] Hi. simpl.
  apply list_elem_of_lookup_2, elem_of_combinations_elem in Hi as [H1 H2].
  apply elem_of_dict_dom in H1 as [_ ->]; [|done].
  apply elem_of_dict_dom in H2 as [_ ->]; [|done]. done.
Qed.

Lemma size_universe (parameters : dict) :
  dict_wf parameters → Forall (λ kd, NoDup kd.2) parameters →
  size (universe parameters) = universe_size parameters.
Proof.
  intros Hwf Hdom. unfold universe.
  rewrite size_list_to_set.
  - rewrite length_pairs_for, universe_size_weight_sum by done.
    apply weight_sum_combinations_perm, sorted_perm.
  - apply NoDup_pairs_for; [done|].
    apply NoDup_combinations. by rewrite sorted_perm.
Qed.

Lemma set_listing_elem_of (list_of_set : gset pair_t → list pair_t)
    (s : gset pair_t) (pr : pair_t) :
  set_listing list_of_set → pr ∈ list_of_set s ↔ pr ∈ s.
Proof. intros H. by rewrite (H s), elem_of_elements. Qed.

Lemma set_listing_length (list_of_set : gset pair_t → list pair_t)
    (s : gset pair_t) :
  set_listing list_of_set → length (list_of_set s) = size s.
Proof. intros H. by rewrite (H s). Qed.

Lemma set_listing_NoDup (list_of_set : gset pair_t → list pair_t)
    (s : gset pair_t) :
  set_listing list_of_set → NoDup (list_of_set s).
Proof. intros H. rewrite (H s). apply NoDup_elements. Qed.

Lemma generate_universe (list_of_set : gset pair_t → list pair_t)
    (parameters : dict) :
  generate_pairwise_combinations list_of_set parameters =
    Ok (list_of_set (universe parameters)).
Proof. apply generate_pairwise_combinations_eq. Qed.

(** C1. For a parameter map with distinct names whose domains are lists of
    distinct labels, the pair-space builder returns a duplicate-free list
    whose members are exactly the pairs ((name1, value1), (name2, value2))
    with name1 < name2 two names of the map, value1 in the domain of name1
    and value2 in the domain of name2; its length is the sum, over the
    unordered pairs of parameters, of the product of the two domain sizes. *)
Theorem generate_pairwise_combinations_spec
    (list_of_set : gset pair_t → list pair_t) (parameters : dict) :
  set_listing list_of_set →
  dict_wf parameters →
  Forall (λ kd, NoDup kd.2) parameters →
  ∃ all_pairs,
    generate_pairwise_combinations list_of_set parameters = Ok all_pairs ∧
    NoDup all_pairs ∧
    (∀ pr, pr ∈ all_pairs ↔ in_universe parameters pr) ∧
    length all_pairs = universe_size parameters.
Proof.
  intros Hl Hwf Hdom. exists (list_of_set (universe parameters)).
  split; [apply generate_universe|]. split; [by apply set_listing_NoDup|].
  split.
  - intros pr. rewrite set_listing_elem_of by done. by apply elem_of_universe.
  - rewrite set_listing_length by done. by apply size_universe.
Qed.

(** ** The pairs of a test case *)

Lemma fmap_lookup_total_seq `{!Inhabited A} (z : list A) :
  (λ i, z !!! i) <$> seq 0 (length z) = z.
Proof.
  apply list_eq. intros i. rewrite list_lookup_fmap.
  destruct (decide (i < length z)) as [Hi|Hi].
  - rewrite lookup_seq_lt by done. simpl.
    symmetry. by apply list_lookup_lookup_total_lt.
  - rewrite lookup_seq_ge by lia. simpl. symmetry. apply lookup_ge_None. lia.
Qed.

Lemma combinations_seq `{!Inhabited A} (z : list A) :
  Py.combinations z =
    (λ c : nat * nat, (z !!! c.1, z !!! c.2))
      <$> Py.combinations (seq 0 (length z)).
Proof.
  induction z as [|x z IH]; [done|].
  rewrite combinations_cons. simpl length. rewrite <-cons_seq, <-fmap_S_seq.
  rewrite combinations_cons, combinations_fmap, fmap_app.
  rewrite <-!list_fmap_compose. f_equal.
  - rewrite <-(fmap_lookup_total_seq z) at 1. by rewrite <-list_fmap_compose.
  - rewrite IH at 1. done.
Qed.

Lemma index_lt {A} `{!Inhabited A} (l : list A) (i : nat) :
  i < length l → Py.index l i = Ok (l !!! i).
Proof.
  intros Hi. unfold Py.index.
  by rewrite (list_lookup_lookup_total_lt l i Hi).
Qed.

Lemma lookup_total_zip (l k : list string) (i : nat) :
  i < length l → i < length k → zip l k !!! i = (l !!! i, k !!! i).
Proof.
  intros [x Hx]%lookup_lt_is_Some_2 [y Hy]%lookup_lt_is_Some_2.
  rewrite !list_lookup_total_alt, lookup_zip_with, Hx, Hy. done.
Qed.

Lemma get_pairs_in_test_ok (test : test_t) (param_keys : list string) :
  length param_keys ≤ length test →
  greedyalgo.get_pairs_in_test test param_keys = Ok (pairs_of param_keys test).
Proof.
  intros Hlen. unfold greedyalgo.get_pairs_in_test, pairs_of, test_pairs_list.
  rewrite (combinations_seq (zip param_keys test)).
  rewrite length_zip, Nat.min_l by done.
  set (cs := Py.combinations _).
  assert (∀ c, c ∈ cs → c.1 < length param_keys ∧ c.2 < length param_keys)
    as Hcs.
  { intros [i j] [Hi Hj]%elem_of_combinations_elem.
    apply elem_of_seq in Hi, Hj. simpl. lia. }
  rewrite <-list_fmap_compose.
  match goal with |- for_ cs ?b ∅ = Ok (list_to_set (?g <$> cs)) =>
    set (body := b); set (f := g) end.
  assert (∀ acc, for_ cs body acc = Ok (acc ∪ list_to_set (f <$> cs))) as ->.
  { clearbody cs. induction cs as [|[i j] cs IH]; intros acc; simpl.
    - f_equal. set_solver.
    - destruct (Hcs (i, j)) as [Hi Hj]; [left|]. simpl in Hi, Hj.
      rewrite !index_lt by lia. simpl.
      rewrite IH by (intros c Hc; apply Hcs; by right).
      f_equal. unfold f at 2. simpl.
      rewrite !lookup_total_zip by lia. set_solver. }
  f_equal. set_solver.
Qed.

(** ** The candidate space *)

Lemma elem_of_product {A} (ls : list (list A)) (t : list A) :
  t ∈ Py.product ls ↔ Forall2 (λ v d, v ∈ d) t ls.
Proof.
  revert t. induction ls as [|d ls IH]; intros t; simpl.
  - rewrite list_elem_of_singleton. split; [intros ->; constructor|].
    by intros ->%Forall2_nil_inv_r.
  - rewrite list_elem_of_bind. split.
    + intros (v & (t' & -> & Ht')%list_elem_of_fmap & Hv).
      constructor; [done|]. by apply IH.
    + intros (v & t' & Hv & Ht' & ->)%Forall2_cons_inv_r.
      exists v. split; [|done]. apply list_elem_of_fmap.
      exists t'. split; [done|]. by apply IH.
Qed.

Lemma product_length {A} (ls : list (list A)) (t : list A) :
  t ∈ Py.product ls → length t = length ls.
Proof. rewrite elem_of_product. apply Forall2_length. Qed.

Lemma product_well_formed (parameters : dict) (t : test_t) :
  t ∈ Py.product (values parameters) ↔ well_formed_test parameters t.
Proof.
  rewrite elem_of_product. unfold well_formed_test, values.
  by rewrite Forall2_fmap_r.
Qed.

Lemma well_formed_test_length (parameters : dict) (t : test_t) :
  well_formed_test parameters t → length (keys parameters) ≤ length t.
Proof.
  intros H%Forall2_length. unfold keys. rewrite length_fmap. lia.
Qed.

(** ** The greedy solver: one scan of the candidates *)

Lemma select_best_spec (all_values : list test_t) (param_keys : list string)
    (covered : gset pair_t) :
  (∀ t, t ∈ all_values →
     greedyalgo.get_pairs_in_test t param_keys = Ok (pairs_of param_keys t)) →
  ∃ best n,
    greedyalgo.select_best all_values param_keys covered = Ok (best, n) ∧
    match best with
    | None => ∀ t, t ∈ all_values → new_count param_keys covered t = 0
    | Some t => first_best (new_count param_keys covered) all_values t
    end.
Proof.
  intros Hvals. set (count := new_count param_keys covered).
  destruct (for__inv
    (λ pre (s : option test_t * nat),
       (∀ t', t' ∈ pre → count t' ≤ s.2) ∧
       match s.1 with
       | None => s.2 = 0
       | Some t => count t = s.2 ∧ 0 < s.2 ∧
           ∃ i, pre !! i = Some t ∧
                ∀ j t', j < i → pre !! j = Some t' → count t' < s.2
       end)
    all_values
    (λ '(best_test, best_new_pairs) test,
       test_pairs ← greedyalgo.get_pairs_in_test test param_keys;
       let new_pairs := size (test_pairs ∖ covered) in
       if best_new_pairs <? new_pairs
       then Ok (Some test, new_pairs)
       else Ok (best_test, best_new_pairs))
    (None, 0)) as ([best n] & Hrun & Hle & Hbest).
  - split; [by intros t ?%elem_of_nil|done].
  - intros pre x post [best n] Hall [Hle Hbest]. simpl in Hle, Hbest.
    rewrite Hvals by (rewrite Hall; set_solver). simpl.
    fold (new_count param_keys covered x). fold count.
    destruct (Nat.ltb_spec n (count x)) as [Hlt|Hge].
    + eexists. split; [done|]. simpl. split.
      * intros t' [Ht'| ->%list_elem_of_singleton]%elem_of_app; [|done].
        apply Hle in Ht'. lia.
      * split; [done|]. split; [lia|]. exists (length pre). split.
        { by rewrite lookup_app_r, Nat.sub_diag by done. }
        intros j t' Hj Ht'. rewrite lookup_app_l in Ht' by done.
        apply list_elem_of_lookup_2, Hle in Ht'. lia.
    + eexists. split; [done|]. simpl. split.
      * intros t' [Ht'| ->%list_elem_of_singleton]%elem_of_app; [|done].
        by apply Hle.
      * destruct best as [t|]; [|done].
        destruct Hbest as (Hc & Hpos & i & Hi & Hbefore).
        split; [done|]. split; [done|]. exists i.
        pose proof (lookup_lt_Some _ _ _ Hi) as Hlen.
        split; [by rewrite lookup_app_l|].
        intros j t' Hj Ht'. rewrite lookup_app_l in Ht' by lia. by eauto.
  - exists best, n. split; [exact Hrun|]. simpl in *.
    destruct best as [t|].
    + destruct Hbest as (Hc & Hpos & i & Hi & Hbefore).
      exists i. rewrite Hc. by eauto.
    + intros t Ht. apply Hle in Ht. subst n. fold count. lia.
Qed.

(** ** The greedy solver: the main loop *)

Section greedy_loop.
Variables (param_keys : list string) (all_values : list test_t).
Variable len_all_pairs : nat.
Hypothesis Hvals : ∀ t, t ∈ all_values →
  greedyalgo.get_pairs_in_test t param_keys = Ok (pairs_of param_keys t).

Lemma while_loop_sound (fuel : nat) (covered : gset pair_t)
    (suite : list test_t) (covered' : gset pair_t) (suite' : list test_t) :
  greedyalgo.while_loop fuel param_keys all_values len_all_pairs covered suite
    = Ok (covered', suite') →
  ∃ new,
    suite' = suite ++ new ∧
    greedy_trace param_keys all_values covered new ∧
    covered' = covered ∪ ⋃ (pairs_of param_keys <$> new) ∧
    (len_all_pairs ≤ size covered' ∨
     ∀ t, t ∈ all_values → new_count param_keys covered' t = 0) ∧
    length new ≤ len_all_pairs - size covered.
Proof.
  revert covered suite. induction fuel as [|fuel IH]; intros covered suite;
    simpl; [done|].
  destruct (Nat.ltb_spec (size covered) len_all_pairs) as [Hlt|Hge].
  - destruct (select_best_spec all_values param_keys covered Hvals)
      as (best & n & -> & Hbest). simpl.
    destruct best as [t|].
    + assert (t ∈ all_values) as Ht.
      { destruct Hbest as (i & Hi & _). by eapply list_elem_of_lookup_2. }
      rewrite (Hvals t Ht). simpl.
      intros (new & -> & Htr & -> & Hexit & Hlen)%IH.
      exists (t :: new). rewrite <-app_assoc. split; [done|].
      split; [by split|]. rewrite fmap_cons, union_list_cons.
      split; [by rewrite (assoc_L (∪))|]. split; [done|].
      destruct Hbest as (_ & _ & Hpos & _). unfold new_count in Hpos.
      rewrite size_union_alt in Hlen. simpl. lia.
    + intros [= <- <-]. exists []. rewrite app_nil_r.
      split; [done|]. split; [done|]. split; [set_solver|].
      split; [by auto|simpl; lia].
  - intros [= <- <-]. exists []. rewrite app_nil_r.
    split; [done|]. split; [done|]. split; [set_solver|].
    split; [by auto|simpl; lia].
Qed.

Lemma while_loop_total (fuel : nat) (covered : gset pair_t)
    (suite : list test_t) :
  len_all_pairs - size covered < fuel →
  ∃ r, greedyalgo.while_loop fuel param_keys all_values len_all_pairs
         covered suite = Ok r.
Proof.
  revert covered suite. induction fuel as [|fuel IH]; intros covered suite Hf;
    simpl; [lia|].
  destruct (Nat.ltb_spec (size covered) len_all_pairs) as [Hlt|Hge];
    [|by eauto].
  destruct (select_best_spec all_values param_keys covered Hvals)
    as (best & n & -> & Hbest). simpl.
  destruct best as [t|]; [|by eauto].
  destruct Hbest as (i & Hi & Hpos & _).
  rewrite (Hvals t) by (by eapply list_elem_of_lookup_2). simpl.
  apply IH. unfold new_count in Hpos.
  rewrite size_union_alt. lia.
Qed.

Lemma while_loop_fuel (fuel fuel' : nat) (covered : gset pair_t)
    (suite : list test_t) (r : gset pair_t * list test_t) :
  greedyalgo.while_loop fuel param_keys all_values len_all_pairs covered suite
    = Ok r →
  fuel ≤ fuel' →
  greedyalgo.while_loop fuel' param_keys all_values len_all_pairs covered suite
    = Ok r.
Proof.
  revert fuel' covered suite.
  induction fuel as [|fuel IH]; intros fuel' covered suite; simpl; [done|].
  intros Hrun Hle. destruct fuel' as [|fuel']; [lia|]. simpl.
  destruct (size covered <? len_all_pairs); [|done].
  destruct (greedyalgo.select_best all_values param_keys covered)
    as [[[t|] n]| |]; simpl in *; try done.
  destruct (greedyalgo.get_pairs_in_test t param_keys); simpl in *; try done.
  apply IH; [done|lia].
Qed.

End greedy_loop.

(** ** The greedy solver: the entry point *)

Lemma candidates_ok (parameters : dict) (t : test_t) :
  t ∈ Py.product (values parameters) →
  greedyalgo.get_pairs_in_test t (keys parameters)
    = Ok (pairs_of (keys parameters) t).
Proof.
  intros Ht%product_well_formed.
  by apply get_pairs_in_test_ok, well_formed_test_length.
Qed.

Lemma find_minimum_test_suite_inv
    (list_of_set : gset pair_t → list pair_t) (fuel : nat) (parameters : dict)
    (suite : list test_t) (all_pairs : list pair_t) :
  greedyalgo.find_minimum_test_suite list_of_set fuel parameters
    = Ok (suite, all_pairs) ↔
  all_pairs = list_of_set (universe parameters) ∧
  ∃ covered,
    greedyalgo.while_loop fuel (keys parameters)
      (Py.product (values parameters)) (length all_pairs) ∅ []
    = Ok (covered, suite).
Proof.
  unfold greedyalgo.find_minimum_test_suite.
  rewrite generate_universe. simpl. split.
  - destruct (greedyalgo.while_loop _ _ _ _ _ _) as [[c s]| |] eqn:Hrun;
      simpl; intros [= <- <-]. by eauto.
  - intros [-> [c ->]]. done.
Qed.

Lemma find_minimum_test_suite_trace
    (list_of_set : gset pair_t → list pair_t) (fuel : nat) (parameters : dict)
    (suite : list test_t) (all_pairs : list pair_t) :
  greedyalgo.find_minimum_test_suite list_of_set fuel parameters
    = Ok (suite, all_pairs) →
  greedy_trace (keys parameters) (Py.product (values parameters)) ∅ suite.
Proof.
  intros [-> [c Hrun]]%find_minimum_test_suite_inv.
  apply while_loop_sound in Hrun as (new & -> & Htr & _);
    [done|apply candidates_ok].
Qed.

(** C6. For every parameter map the greedy solver returns a suite and the
    pair universe, without raising, as soon as the fuel of the loop exceeds
    the number of pairs: the loop runs at most once per pair of the
    universe. *)
Theorem greedy_terminates (list_of_set : gset pair_t → list pair_t)
    (parameters : dict) :
  ∃ suite all_pairs,
    length suite ≤ length all_pairs ∧
    ∀ fuel, length all_pairs < fuel →
      greedyalgo.find_minimum_test_suite list_of_set fuel parameters
        = Ok (suite, all_pairs).
Proof.
  set (all_pairs := list_of_set (universe parameters)).
  destruct (while_loop_total (keys parameters) (Py.product (values parameters))
    (length all_pairs) (candidates_ok parameters)
    (S (length all_pairs)) ∅ []) as [[covered suite] Hrun]; [lia|].
  exists suite, all_pairs. split.
  - apply while_loop_sound in Hrun as (new & -> & _ & _ & _ & Hlen);
      [|apply candidates_ok].
    simpl. lia.
  - intros fuel Hfuel. apply find_minimum_test_suite_inv. split; [done|].
    exists covered. eapply while_loop_fuel; [exact Hrun|]. fold all_pairs. lia.
Qed.

(** ** The coverage analyzer of greedyalgo.py *)

Lemma greedy_count_unique_pairs_eq (test_cases : list test_t)
    (all_pairs : list pair_t) (parameters : dict) :
  (∀ t, t ∈ test_cases → length (keys parameters) ≤ length t) →
  greedyalgo.count_unique_pairs test_cases all_pairs parameters =
    Ok (⋃ (pairs_of (keys parameters) <$> test_cases),
        pairs_of (keys parameters) <$> test_cases,
        marginals (pairs_of (keys parameters)) ∅ test_cases).
Proof.
  intros Hlen. unfold greedyalgo.count_unique_pairs.
  match goal with |- for_ _ ?b _ = _ => set (body := b) end.
  assert (∀ c tcp counts,
    for_ test_cases body (c, tcp, counts) =
      Ok (c ∪ ⋃ (pairs_of (keys parameters) <$> test_cases),
          tcp ++ (pairs_of (keys parameters) <$> test_cases),
          counts ++ marginals (pairs_of (keys parameters)) c test_cases)) as ->.
  { induction test_cases as [|t ts IH]; intros c tcp counts; simpl.
    - rewrite (right_id_L ∅ (∪)), !app_nil_r. done.
    - rewrite get_pairs_in_test_ok by (apply Hlen; left). simpl.
      rewrite IH by (intros t' Ht'; apply Hlen; by right).
      rewrite (assoc_L (∪)), <-!app_assoc. done. }
  by rewrite (left_id_L ∅ (∪)).
Qed.

Lemma marginals_length (pairs : test_t → gset pair_t) (covered : gset pair_t)
    (suite : list test_t) :
  length (marginals pairs covered suite) = length suite.
Proof.
  revert covered. induction suite as [|t suite IH]; intros c; simpl;
    [done|by rewrite IH].
Qed.

Lemma greedy_trace_marginals (param_keys : list string)
    (all_values : list test_t) (covered : gset pair_t) (suite : list test_t) :
  greedy_trace param_keys all_values covered suite →
  Forall (λ c, (0 < c)%Z) (marginals (pairs_of param_keys) covered suite).
Proof.
  revert covered. induction suite as [|t suite IH]; intros c; simpl;
    [by constructor|].
  intros [(i & _ & Hpos & _) Htr]. constructor; [|by apply IH].
  unfold new_count in Hpos. rewrite size_union_alt. lia.
Qed.

Lemma greedy_trace_uncovered (param_keys : list string)
    (all_values : list test_t) (covered : gset pair_t) (suite : list test_t)
    (t : test_t) :
  greedy_trace param_keys all_values covered suite → t ∈ suite →
  ¬ pairs_of param_keys t ⊆ covered.
Proof.
  revert covered. induction suite as [|t' suite IH]; intros c; simpl.
  - by intros _ ?%elem_of_nil.
  - intros [(i & _ & Hpos & _) Htr] [->|Ht]%elem_of_cons Hsub.
    + unfold new_count in Hpos.
      replace (pairs_of param_keys t' ∖ c) with (∅ : gset pair_t) in Hpos
        by set_solver.
      rewrite size_empty in Hpos. lia.
    + apply (IH _ Htr Ht). set_solver.
Qed.

Lemma greedy_trace_NoDup (param_keys : list string)
    (all_values : list test_t) (covered : gset pair_t) (suite : list test_t) :
  greedy_trace param_keys all_values covered suite → NoDup suite.
Proof.
  revert covered. induction suite as [|t suite IH]; intros c; simpl;
    [by constructor|].
  intros [_ Htr]. constructor; [|by eapply IH].
  intros Ht. apply (greedy_trace_uncovered _ _ _ _ t Htr Ht). set_solver.
Qed.

Lemma greedy_trace_candidates (param_keys : list string)
    (all_values : list test_t) (covered : gset pair_t) (suite : list test_t)
    (t : test_t) :
  greedy_trace param_keys all_values covered suite → t ∈ suite →
  t ∈ all_values.
Proof.
  revert covered. induction suite as [|t' suite IH]; intros c; simpl.
  - by intros _ ?%elem_of_nil.
  - intros [(i & Hi & _) Htr] [->|Ht]%elem_of_cons; [|by eauto].
    by eapply list_elem_of_lookup_2.
Qed.

Lemma greedy_suite_lengths
    (list_of_set : gset pair_t → list pair_t) (fuel : nat) (parameters : dict)
    (suite : list test_t) (all_pairs : list pair_t) (t : test_t) :
  greedyalgo.find_minimum_test_suite list_of_set fuel parameters
    = Ok (suite, all_pairs) →
  t ∈ suite → well_formed_test parameters t.
Proof.
  intros Htr%find_minimum_test_suite_trace Ht.
  apply product_well_formed. by eapply greedy_trace_candidates.
Qed.

(** C10. Each test case of the suite the greedy solver returns covers at
    least one pair that the test cases before it do not: the analyzer of
    greedyalgo.py succeeds on that suite with one marginal count per test
    case, all strictly positive, and no test case occurs twice. *)
Theorem greedy_marginals_positive
    (list_of_set : gset pair_t → list pair_t) (fuel : nat) (parameters : dict)
    (suite : list test_t) (all_pairs : list pair_t) :
  greedyalgo.find_minimum_test_suite list_of_set fuel parameters
    = Ok (suite, all_pairs) →
  ∃ covered test_case_pairs new_unique_counts,
    greedyalgo.count_unique_pairs suite all_pairs parameters
      = Ok (covered, test_case_pairs, new_unique_counts) ∧
    length new_unique_counts = length suite ∧
    Forall (λ c, (0 < c)%Z) new_unique_counts ∧
    NoDup suite.
Proof.
  intros Hrun. pose proof (find_minimum_test_suite_trace _ _ _ _ _ Hrun) as Htr.
  eexists _, _, _. split.
  - apply greedy_count_unique_pairs_eq. intros t Ht.
    by eapply well_formed_test_length, greedy_suite_lengths.
  - split; [apply marginals_length|].
    split; [by eapply greedy_trace_marginals|by eapply greedy_trace_NoDup].
Qed.

(** C2. When the covered set of the greedy solver at loop exit is the whole
    pair universe, the analyzer of greedyalgo.py succeeds on the returned
    suite, and the union of its per-test-case pair sets (and its covered
    set) is the pair universe: the set of the pairs the builder returned,
    that is, exactly the pairs the specification asks for. *)
Theorem greedy_full_coverage_analyzer
    (list_of_set : gset pair_t → list pair_t) (fuel : nat) (parameters : dict)
    (all_pairs : list pair_t) (covered : gset pair_t) (suite : list test_t) :
  set_listing list_of_set →
  dict_wf parameters →
  generate_pairwise_combinations list_of_set parameters = Ok all_pairs →
  greedyalgo.while_loop fuel (keys parameters)
    (Py.product (values parameters)) (length all_pairs) ∅ []
    = Ok (covered, suite) →
  covered = list_to_set all_pairs →
  greedyalgo.find_minimum_test_suite list_of_set fuel parameters
    = Ok (suite, all_pairs) ∧
  ∃ covered_pairs test_case_pairs new_unique_counts,
    greedyalgo.count_unique_pairs suite all_pairs parameters
      = Ok (covered_pairs, test_case_pairs, new_unique_counts) ∧
    ⋃ test_case_pairs = list_to_set all_pairs ∧
    covered_pairs = list_to_set all_pairs ∧
    ∀ pr, pr ∈ ⋃ test_case_pairs ↔ in_universe parameters pr.
Proof.
  intros Hl Hwf Hgen Hrun Hcov.
  rewrite generate_universe in Hgen. injection Hgen as <-.
  assert (greedyalgo.find_minimum_test_suite list_of_set fuel parameters
            = Ok (suite, list_of_set (universe parameters))) as Hfind.
  { apply find_minimum_test_suite_inv. by eauto. }
  split; [done|].
  apply while_loop_sound in Hrun as (new & Hs & Htr & Hc & _);
    [|apply candidates_ok].
  simpl in Hs. subst suite. rewrite (left_id_L ∅ (∪)) in Hc.
  eexists _, _, _. split.
  - apply greedy_count_unique_pairs_eq. intros t Ht.
    by eapply well_formed_test_length, greedy_suite_lengths.
  - rewrite <-Hc, Hcov. split; [done|]. split; [done|].
    intros pr. rewrite elem_of_list_to_set, set_listing_elem_of by done.
    by apply elem_of_universe.
Qed.

(** C5. The greedy solver is deterministic.  Two runs on the same parameter
    map, whatever the enumeration orders of Python sets in the two runs,
    return the same suite in the same order (and the same pairs, up to
    order); and each test case of the suite is, among the candidates in the
    order of the Cartesian product, the first one whose count of newly
    covered pairs is greatest: strictly greater than the count of every
    earlier candidate and at least the count of every candidate. *)
Theorem greedy_deterministic
    (list_of_set1 list_of_set2 : gset pair_t → list pair_t)
    (fuel1 fuel2 : nat) (parameters : dict)
    (suite1 suite2 : list test_t) (all_pairs1 all_pairs2 : list pair_t) :
  set_listing list_of_set1 →
  set_listing list_of_set2 →
  greedyalgo.find_minimum_test_suite list_of_set1 fuel1 parameters
    = Ok (suite1, all_pairs1) →
  greedyalgo.find_minimum_test_suite list_of_set2 fuel2 parameters
    = Ok (suite2, all_pairs2) →
  suite1 = suite2 ∧ all_pairs1 ≡ₚ all_pairs2 ∧
  greedy_trace (keys parameters) (Py.product (values parameters)) ∅ suite1.
Proof.
  intros Hl1 Hl2 Hrun1 Hrun2.
  split; [|split; [|by eapply find_minimum_test_suite_trace]].
  - apply find_minimum_test_suite_inv in Hrun1 as [-> [c1 Hrun1]].
    apply find_minimum_test_suite_inv in Hrun2 as [-> [c2 Hrun2]].
    rewrite set_listing_length in Hrun1, Hrun2 by done.
    eapply (while_loop_fuel _ _ _ _ (fuel1 `max` fuel2)) in Hrun1; [|lia].
    eapply (while_loop_fuel _ _ _ _ (fuel1 `max` fuel2)) in Hrun2; [|lia].
    congruence.
  - apply find_minimum_test_suite_inv in Hrun1 as [-> _].
    apply find_minimum_test_suite_inv in Hrun2 as [-> _].
    by rewrite (Hl1 _), (Hl2 _).
Qed.

(** ** Test cases drawn from the domains realize pairs of the universe *)

Lemma combinations_NoDup_ne {A} (l : list A) (a b : A) :
  NoDup l → (a, b) ∈ Py.combinations l → a ≠ b.
Proof.
  induction 1 as [|x l Hx Hnd IH]; [by intros ?%elem_of_nil|].
  rewrite elem_of_combinations_cons. simpl. intros [[-> Hb]|H]; [|by auto].
  by intros ->.
Qed.

Lemma combinations_total {A} (l : list A) (a b : A) :
  a ∈ l → b ∈ l → a ≠ b →
  (a, b) ∈ Py.combinations l ∨ (b, a) ∈ Py.combinations l.
Proof.
  induction l as [|x l IH]; [by intros ?%elem_of_nil|].
  rewrite !elem_of_combinations_cons. simpl.
  intros [->|Ha]%elem_of_cons [->|Hb]%elem_of_cons Hne; try done.
  - by auto.
  - by auto.
  - destruct (IH Ha Hb Hne); by auto.
Qed.

Lemma elem_of_zip_well_formed (parameters : dict) (t : test_t)
    (k v : string) :
  well_formed_test parameters t →
  (k, v) ∈ zip (keys parameters) t →
  ∃ d, (k, d) ∈ parameters ∧ v ∈ d.
Proof.
  unfold well_formed_test, keys. intros Hwf.
  induction Hwf as [|v' [k' d'] t' ps Hv Hrest IH]; simpl.
  - by intros ?%elem_of_nil.
  - intros [[= -> ->]|Hin]%elem_of_cons.
    + exists d'. split; [left|done].
    + destruct (IH Hin) as (d & Hd & Hvd). exists d. split; [by right|done].
Qed.

Lemma test_pairs_in_universe (parameters : dict) (t : test_t) (pr : pair_t) :
  dict_wf parameters → well_formed_test parameters t →
  pr ∈ test_pairs_list (keys parameters) t → in_universe parameters pr.
Proof.
  intros Hwf Ht. unfold test_pairs_list.
  intros ([[k1 v1] [k2 v2]] & -> & Hc)%list_elem_of_fmap. simpl.
  pose proof (well_formed_test_length _ _ Ht) as Hlen.
  assert (k1 ≠ k2) as Hne.
  { apply (combinations_NoDup_ne (keys parameters)); [done|].
    rewrite <-(fst_zip (keys parameters) t) by done.
    rewrite combinations_fmap. apply list_elem_of_fmap.
    by exists ((k1, v1), (k2, v2)). }
  apply elem_of_combinations_elem in Hc as [H1 H2].
  destruct (elem_of_zip_well_formed _ _ _ _ Ht H1) as (d1 & Hd1 & Hv1).
  destruct (elem_of_zip_well_formed _ _ _ _ Ht H2) as (d2 & Hd2 & Hv2).
  rewrite sorted_pair_names by done.
  destruct (String.ltb k1 k2) eqn:Hlt.
  - exists d1, d2. by auto.
  - exists d2, d1. simpl. repeat split; try done.
    destruct (ltb_total k1 k2 Hne); [congruence|done].
Qed.

Lemma pairs_of_subseteq_universe (parameters : dict) (t : test_t) :
  dict_wf parameters → well_formed_test parameters t →
  pairs_of (keys parameters) t ⊆ universe parameters.
Proof.
  intros Hwf Ht pr Hpr. apply elem_of_universe; [done|].
  apply elem_of_list_to_set in Hpr. by eapply test_pairs_in_universe.
Qed.

(** ** The coverage analyzer of algo.py *)

Lemma algo_count_unique_pairs_eq (test_cases : list test_t)
    (all_pairs : list pair_t) (parameters : dict) :
  algo.count_unique_pairs test_cases all_pairs parameters =
    Ok (⋃ (algo_pairs_of (keys parameters) all_pairs <$> test_cases),
        algo_pairs_of (keys parameters) all_pairs <$> test_cases,
        marginals (algo_pairs_of (keys parameters) all_pairs) ∅ test_cases).
Proof.
  unfold algo.count_unique_pairs.
  match goal with |- for_ _ ?b _ = _ => set (body := b) end.
  assert (∀ (cs : list (assignment * assignment)) (acc : gset pair_t),
    for_ cs (λ test_pairs '(p1, p2),
        let pair := sorted_pair p1 p2 in
        if bool_decide (pair ∈ all_pairs)
        then Ok (test_pairs ∪ {[ pair ]})
        else Ok test_pairs) acc
    = Ok (acc ∪ list_to_set (filter (λ pr, pr ∈ all_pairs)
            ((λ c : assignment * assignment, sorted_pair c.1 c.2) <$> cs))))
    as Hinner.
  { induction cs as [|[p1 p2] cs IH]; intros acc; simpl.
    - f_equal. set_solver.
    - rewrite filter_cons. simpl.
      case_bool_decide as Hin; simpl.
      + rewrite decide_True by done. rewrite IH. f_equal. set_solver.
      + rewrite decide_False by done. by rewrite IH. }
  assert (∀ c tcp counts,
    for_ test_cases body (c, tcp, counts) =
      Ok (c ∪ ⋃ (algo_pairs_of (keys parameters) all_pairs <$> test_cases),
          tcp ++ (algo_pairs_of (keys parameters) all_pairs <$> test_cases),
          counts ++ marginals (algo_pairs_of (keys parameters) all_pairs)
                      c test_cases)) as ->.
  { induction test_cases as [|t ts IH]; intros c tcp counts; simpl.
    - rewrite (right_id_L ∅ (∪)), !app_nil_r. done.
    - rewrite Hinner. simpl. rewrite (left_id_L ∅ (∪)).
      fold (test_pairs_list (keys parameters) t).
      fold (algo_pairs_of (keys parameters) all_pairs t).
      rewrite IH, (assoc_L (∪)), <-!app_assoc. done. }
  by rewrite (left_id_L ∅ (∪)).
Qed.

Lemma algo_pairs_of_well_formed
    (list_of_set : gset pair_t → list pair_t) (parameters : dict) (t : test_t) :
  set_listing list_of_set → dict_wf parameters →
  well_formed_test parameters t →
  algo_pairs_of (keys parameters) (list_of_set (universe parameters)) t
    = pairs_of (keys parameters) t.
Proof.
  intros Hl Hwf Ht. unfold algo_pairs_of, pairs_of.
  apply set_eq. intros pr.
  rewrite !elem_of_list_to_set, list_elem_of_filter.
  rewrite set_listing_elem_of by done. split; [by intros [_ ?]|].
  intros Hpr. split; [|done]. apply elem_of_universe; [done|].
  by eapply test_pairs_in_universe.
Qed.

(** C9. On a suite whose test cases each assign, in parameter order, one
    value of the corresponding domain, and with the pair universe the
    builder returns for the map, the analyzers of algo.py and of
    greedyalgo.py return the same covered set, the same per-test-case pair
    sets and the same marginal counts (and neither raises). *)
Theorem analyzers_agree
    (list_of_set : gset pair_t → list pair_t) (parameters : dict)
    (all_pairs : list pair_t) (suite : list test_t) :
  set_listing list_of_set →
  dict_wf parameters →
  generate_pairwise_combinations list_of_set parameters = Ok all_pairs →
  Forall (well_formed_test parameters) suite →
  ∃ covered_pairs test_case_pairs new_unique_counts,
    algo.count_unique_pairs suite all_pairs parameters
      = Ok (covered_pairs, test_case_pairs, new_unique_counts) ∧
    greedyalgo.count_unique_pairs suite all_pairs parameters
      = Ok (covered_pairs, test_case_pairs, new_unique_counts).
Proof.
  intros Hl Hwf Hgen Hsuite.
  rewrite generate_universe in Hgen. injection Hgen as <-.
  rewrite Forall_forall in Hsuite.
  eexists _, _, _. split; [apply algo_count_unique_pairs_eq|].
  rewrite greedy_count_unique_pairs_eq
    by (intros t Ht; by apply well_formed_test_length, Hsuite).
  assert (algo_pairs_of (keys parameters) (list_of_set (universe parameters))
            <$> suite = pairs_of (keys parameters) <$> suite) as Hmap.
  { apply list_fmap_ext. intros i t Hi.
    apply algo_pairs_of_well_formed; [done..|].
    by eapply Hsuite, list_elem_of_lookup_2. }
  rewrite Hmap. do 2 f_equal.
  clear Hmap. generalize (∅ : gset pair_t).
  induction suite as [|t suite IH]; intros c; simpl; [done|].
  rewrite (algo_pairs_of_well_formed list_of_set) by (try done; apply Hsuite; left).
  f_equal. apply IH. intros t' Ht'. apply Hsuite. by right.
Qed.

(** ** With non-empty domains the greedy solver covers the universe *)

Lemma candidate_for_well_formed (parameters : dict) (pr : pair_t) :
  dict_wf parameters → Forall (λ kd, kd.2 ≠ []) parameters →
  in_universe parameters pr →
  well_formed_test parameters (candidate_for parameters pr).
Proof.
  intros Hwf Hne (d1 & d2 & H1 & H2 & _ & Hv1 & Hv2).
  unfold well_formed_test, candidate_for.
  apply Forall2_fmap_l, Forall_Forall2_diag, Forall_forall.
  intros [k d] Hkd. simpl.
  destruct (String.eqb_spec k pr.1.1) as [->|_].
  { apply elem_of_dict_dom in Hkd as [_ <-]; [|done].
    by apply elem_of_dict_dom in H1 as [_ ->]. }
  destruct (String.eqb_spec k pr.2.1) as [->|_].
  { apply elem_of_dict_dom in Hkd as [_ <-]; [|done].
    by apply elem_of_dict_dom in H2 as [_ ->]. }
  rewrite Forall_forall in Hne. specialize (Hne _ Hkd). simpl in Hne.
  destruct d; [done|left].
Qed.

Lemma candidate_for_realizes (parameters : dict) (pr : pair_t) :
  dict_wf parameters → in_universe parameters pr →
  pr ∈ pairs_of (keys parameters) (candidate_for parameters pr).
Proof.
  intros Hwf (d1 & d2 & H1 & H2 & Hlt & _).
  destruct pr as [[k1 v1] [k2 v2]]. simpl in *.
  assert (k1 ≠ k2) as Hne by (intros ->; by rewrite ltb_irrefl in Hlt).
  set (t := candidate_for parameters ((k1, v1), (k2, v2))).
  assert (∀ k d, (k, d) ∈ parameters →
    (k, if String.eqb k k1 then v1 else if String.eqb k k2 then v2 else hd "" d)
      ∈ zip (keys parameters) t) as Hzip.
  { unfold t, candidate_for, keys. clear. intros k d Hkd.
    induction parameters as [|[k' d'] ps IH]; [by apply elem_of_nil in Hkd|].
    apply elem_of_cons in Hkd as [[= <- <-]|Hkd]; simpl; [left|right; auto]. }
  pose proof (Hzip _ _ H1) as Ha. rewrite String.eqb_refl in Ha.
  pose proof (Hzip _ _ H2) as Hb.
  destruct (String.eqb_spec k2 k1) as [?|_]; [congruence|].
  rewrite String.eqb_refl in Hb.
  apply elem_of_list_to_set, list_elem_of_fmap.
  destruct (combinations_total _ (k1, v1) (k2, v2) Ha Hb) as [Hc|Hc];
    [congruence| |].
  - exists ((k1, v1), (k2, v2)). split; [|done]. simpl.
    by rewrite sorted_pair_names, Hlt.
  - exists ((k2, v2), (k1, v1)). split; [|done]. simpl.
    by rewrite sorted_pair_names, (ltb_asym _ _ Hlt).
Qed.

Lemma greedy_covered_subseteq (parameters : dict) (covered : gset pair_t)
    (suite : list test_t) :
  dict_wf parameters →
  greedy_trace (keys parameters) (Py.product (values parameters)) covered suite →
  ⋃ (pairs_of (keys parameters) <$> suite) ⊆ universe parameters.
Proof.
  intros Hwf Htr pr (X & (t & -> & Ht)%list_elem_of_fmap & Hpr)%elem_of_union_list.
  eapply pairs_of_subseteq_universe; [done| |done].
  apply product_well_formed. by eapply greedy_trace_candidates.
Qed.

Lemma greedy_complete
    (list_of_set : gset pair_t → list pair_t) (fuel : nat) (parameters : dict)
    (covered : gset pair_t) (suite : list test_t) :
  set_listing list_of_set → dict_wf parameters →
  Forall (λ kd, kd.2 ≠ []) parameters →
  greedyalgo.while_loop fuel (keys parameters)
    (Py.product (values parameters))
    (length (list_of_set (universe parameters))) ∅ [] = Ok (covered, suite) →
  covered = universe parameters.
Proof.
  intros Hl Hwf Hne Hrun.
  apply while_loop_sound in Hrun as (new & Hs & Htr & -> & Hexit & _);
    [|apply candidates_ok].
  simpl in Hs. subst new. rewrite (left_id_L ∅ (∪)) in *.
  pose proof (greedy_covered_subseteq _ _ _ Hwf Htr) as Hsub.
  destruct Hexit as [Hsize|Hnone].
  - apply set_subseteq_size_eq; [done|].
    by rewrite set_listing_length in Hsize.
  - apply (anti_symm (⊆)); [done|]. intros pr Hpr%elem_of_universe; [|done].
    pose proof (candidate_for_realizes _ _ Hwf Hpr) as Hin.
    pose proof (candidate_for_well_formed _ _ Hwf Hne Hpr) as Hcand.
    apply product_well_formed, Hnone in Hcand. unfold new_count in Hcand.
    apply size_empty_iff in Hcand. set_solver.
Qed.

Lemma product_cons {A} (d : list A) (ls : list (list A)) :
  Py.product (d :: ls) = v ← d; (cons v) <$> Py.product ls.
Proof. done. Qed.

Lemma product_empty_domain (parameters : dict) :
  Exists (λ kd, kd.2 = []) parameters → Py.product (values parameters) = [].
Proof.
  unfold values. induction 1 as [[k d] ps Hd|[k d] ps _ IH];
    rewrite fmap_cons, product_cons.
  - simpl in Hd. by subst d.
  - rewrite IH. clear. simpl. induction d as [|v d IHd]; [done|].
    by rewrite bind_cons, IHd.
Qed.

Lemma while_loop_no_candidates (fuel : nat) (param_keys : list string)
    (len_all_pairs : nat) (covered : gset pair_t) (suite : list test_t)
    (r : gset pair_t * list test_t) :
  greedyalgo.while_loop fuel param_keys [] len_all_pairs covered suite = Ok r →
  r = (covered, suite).
Proof.
  destruct fuel as [|fuel]; simpl; [done|].
  destruct (size covered <? len_all_pairs); by intros [= <-].
Qed.

(** C3 (as the code has it). When the main loop of the greedy solver ends
    while pairs of the universe are still uncovered, the solver returns, by
    its ordinary return and without raising, the suite and the pair
    universe; this happens only when some domain is the empty list, and the
    returned suite is then the empty list. *)
Theorem greedy_incomplete_outcome
    (list_of_set : gset pair_t → list pair_t) (fuel : nat) (parameters : dict)
    (covered : gset pair_t) (suite : list test_t) :
  set_listing list_of_set →
  dict_wf parameters →
  greedyalgo.while_loop fuel (keys parameters)
    (Py.product (values parameters))
    (length (list_of_set (universe parameters))) ∅ [] = Ok (covered, suite) →
  size covered < length (list_of_set (universe parameters)) →
  greedyalgo.find_minimum_test_suite list_of_set fuel parameters
    = Ok ([], list_of_set (universe parameters)) ∧
  suite = [] ∧ covered = ∅ ∧
  Exists (λ kd, kd.2 = []) parameters.
Proof.
  intros Hl Hwf Hrun Hsize.
  assert (Exists (λ kd : string * list string, kd.2 = []) parameters) as Hex.
  { destruct (decide (Exists (λ kd : string * list string, kd.2 = [])
                        parameters)) as [|Hno]; [done|].
    apply not_Exists_Forall in Hno; [|intros kd; apply _].
    rewrite (greedy_complete _ _ _ _ _ Hl Hwf Hno Hrun) in Hsize.
    rewrite set_listing_length in Hsize by done. lia. }
  pose proof Hrun as Hrun'.
  rewrite (product_empty_domain _ Hex) in Hrun'.
  apply while_loop_no_candidates in Hrun' as [= -> ->].
  split; [|done]. apply find_minimum_test_suite_inv. by eauto.
Qed.

(** ** The analyzers and pairs outside the universe *)

(** The analyzer of algo.py keeps only pairs of the universe it is given,
    for every suite. *)
Lemma algo_analyzer_in_universe (test_cases : list test_t)
    (all_pairs : list pair_t) (parameters : dict) :
  ∃ covered_pairs test_case_pairs new_unique_counts,
    algo.count_unique_pairs test_cases all_pairs parameters
      = Ok (covered_pairs, test_case_pairs, new_unique_counts) ∧
    (∀ pr, pr ∈ covered_pairs → pr ∈ all_pairs) ∧
    Forall (λ tp : gset pair_t, ∀ pr, pr ∈ tp → pr ∈ all_pairs) test_case_pairs.
Proof.
  eexists _, _, _. split; [apply algo_count_unique_pairs_eq|].
  assert (∀ t pr, pr ∈ algo_pairs_of (keys parameters) all_pairs t →
            pr ∈ all_pairs) as Hin.
  { intros t pr. unfold algo_pairs_of.
    rewrite elem_of_list_to_set, list_elem_of_filter. tauto. }
  split.
  - intros pr (X & (t & -> & _)%list_elem_of_fmap & Hpr)%elem_of_union_list.
    by eapply Hin.
  - apply Forall_fmap, Forall_forall. intros t _ pr. apply Hin.
Qed.

(** C7 (the code at the failing input). For the map A: [a], B: [b], its
    pair universe and the suite of the one test case (x, y), the analyzer
    of greedyalgo.py puts the pair ((A, x), (B, y)) in the per-test-case set
    and in the covered set and counts it, although it is not in the
    universe. *)
Theorem greedy_analyzer_counts_outside_universe :
  generate_pairwise_combinations elements ex2 = Ok ex2_pairs ∧
  greedyalgo.count_unique_pairs [ex2_foreign_test] ex2_pairs ex2
    = Ok ({[ ex2_foreign_pair ]}, [ {[ ex2_foreign_pair ]} ], [1%Z]) ∧
  ex2_foreign_pair ∉ ex2_pairs.
Proof.
  split; [|split]; apply (bool_decide_unpack _); vm_compute; exact I.
Qed.

(** ** Input validation *)

(** The exact solver raises on a malformed input, whatever the engine and
    the enumeration order of sets: neither is consulted. *)
Lemma algo_rejects_malformed (Solve : algo.engine)
    (list_of_set : gset pair_t → list pair_t) (input : algo.pyinput) :
  malformed input →
  algo.find_minimum_test_suite Solve list_of_set input = Raise TypeError ∨
  algo.find_minimum_test_suite Solve list_of_set input = Raise ValueError.
Proof.
  destruct input as [items|o]; simpl; [|by auto].
  intros [->|Hex]; [by auto|].
  case_bool_decide; [by auto|]. left.
  assert (forallb algo.is_list items.*2 = false) as ->; [|done].
  apply not_true_iff_false. intros Hall.
  rewrite forallb_forall in Hall.
  apply Exists_exists in Hex as ([k o'] & Hin & Hno). simpl in Hno.
  rewrite Hall in Hno; [done|].
  apply list_elem_of_In, list_elem_of_fmap. by exists (k, o').
Qed.

(** C4 (the code at the failing input). On the empty mapping the greedy
    solver does not raise: it returns the empty suite and the empty pair
    universe. *)
Theorem greedy_accepts_empty_mapping (fuel : nat) :
  greedyalgo.find_minimum_test_suite elements (S fuel) [] = Ok ([], []).
Proof. apply find_minimum_test_suite_inv. split; [done|]. by exists ∅. Qed.

(** ** The exact solver *)

(** C8. For a non-empty map whose values are all lists, when the engine
    reports a status that is neither OPTIMAL nor FEASIBLE, the exact solver
    returns the pair (None, None), with no warning, and does not raise. *)
Theorem exact_no_solution (Solve : algo.engine)
    (list_of_set : gset pair_t → list pair_t)
    (items : list (string * algo.pyobj)) :
  items ≠ [] →
  Forall (λ ko : string * algo.pyobj, algo.is_list ko.2 = true) items →
  (Solve (exact_model list_of_set (algo.as_dict items))).1 ≠ algo.OPTIMAL →
  (Solve (exact_model list_of_set (algo.as_dict items))).1 ≠ algo.FEASIBLE →
  algo.find_minimum_test_suite Solve list_of_set (algo.PyDict items)
    = Ok (None, None, []).
Proof.
  intros Hne Hlists Hopt Hfeas. simpl.
  rewrite bool_decide_eq_false_2 by done.
  assert (forallb algo.is_list items.*2 = true) as ->.
  { apply forallb_forall. intros o (ko & -> & Hin)%list_elem_of_In%list_elem_of_fmap.
    rewrite Forall_forall in Hlists. by apply Hlists. }
  simpl. rewrite generate_universe. simpl.
  fold (exact_model list_of_set (algo.as_dict items)).
  destruct (Solve (exact_model list_of_set (algo.as_dict items)))
    as [status value]. simpl in *.
  by destruct status.
Qed.

(** ** The theorems at concrete inputs *)

Lemma set_listing_elements : set_listing elements.
Proof. intros s. reflexivity. Defined.

Lemma set_listing_reverse_elements : set_listing (λ s, reverse (elements s)).
Proof. intros s. apply reverse_Permutation. Defined.

Lemma generate_pairwise_combinations_spec_witness :
  ∃ all_pairs,
    generate_pairwise_combinations elements ex3 = Ok all_pairs ∧
    NoDup all_pairs ∧
    (∀ pr, pr ∈ all_pairs ↔ in_universe ex3 pr) ∧
    length all_pairs = universe_size ex3.
Proof.
  apply (generate_pairwise_combinations_spec elements ex3).
  - exact set_listing_elements.
  - unfold dict_wf. by_computation.
  - by_computation.
Defined.

Lemma greedy_full_coverage_analyzer_witness :
  greedyalgo.find_minimum_test_suite elements 20 ex3
    = Ok (ex3_suite, ex3_pairs) ∧
  ∃ covered_pairs test_case_pairs new_unique_counts,
    greedyalgo.count_unique_pairs ex3_suite ex3_pairs ex3
      = Ok (covered_pairs, test_case_pairs, new_unique_counts) ∧
    ⋃ test_case_pairs = list_to_set ex3_pairs ∧
    covered_pairs = list_to_set ex3_pairs ∧
    ∀ pr, pr ∈ ⋃ test_case_pairs ↔ in_universe ex3 pr.
Proof.
  apply (greedy_full_coverage_analyzer elements 20 ex3 ex3_pairs
           (list_to_set ex3_pairs) ex3_suite).
  - exact set_listing_elements.
  - unfold dict_wf. by_computation.
  - by_computation.
  - by_computation.
  - reflexivity.
Defined.

(** At the map with an empty domain the main loop stops with the one pair
    of the universe uncovered, and the solver returns the (empty) suite and
    the universe by its ordinary return, as it does on success. *)
Lemma greedy_incomplete_returned_silently :
  generate_pairwise_combinations elements ex_empty_domain
    = Ok ex_empty_domain_pairs ∧
  greedyalgo.while_loop 5 (keys ex_empty_domain)
    (Py.product (values ex_empty_domain)) (length ex_empty_domain_pairs) ∅ []
    = Ok (∅, []) ∧
  size (∅ : gset pair_t) < length ex_empty_domain_pairs ∧
  greedyalgo.find_minimum_test_suite elements 5 ex_empty_domain
    = Ok ([], ex_empty_domain_pairs).
Proof. repeat split; by_computation. Qed.

Lemma greedy_incomplete_outcome_witness :
  greedyalgo.find_minimum_test_suite elements 5 ex_empty_domain
    = Ok ([], elements (universe ex_empty_domain)) ∧
  ([] : list test_t) = [] ∧ (∅ : gset pair_t) = ∅ ∧
  Exists (λ kd, kd.2 = []) ex_empty_domain.
Proof.
  apply (greedy_incomplete_outcome elements 5 ex_empty_domain ∅ []).
  - exact set_listing_elements.
  - unfold dict_wf. by_computation.
  - by_computation.
  - by_computation.
Defined.

Lemma greedy_deterministic_witness :
  ex3_suite = ex3_suite ∧ ex3_pairs ≡ₚ reverse ex3_pairs ∧
  greedy_trace (keys ex3) (Py.product (values ex3)) ∅ ex3_suite.
Proof.
  apply (greedy_deterministic elements (λ s, reverse (elements s)) 20 30 ex3).
  - exact set_listing_elements.
  - exact set_listing_reverse_elements.
  - by_computation.
  - by_computation.
Defined.

Lemma analyzers_agree_witness :
  ∃ covered_pairs test_case_pairs new_unique_counts,
    algo.count_unique_pairs ex3_suite ex3_pairs ex3
      = Ok (covered_pairs, test_case_pairs, new_unique_counts) ∧
    greedyalgo.count_unique_pairs ex3_suite ex3_pairs ex3
      = Ok (covered_pairs, test_case_pairs, new_unique_counts).
Proof.
  apply (analyzers_agree elements ex3 ex3_pairs ex3_suite).
  - exact set_listing_elements.
  - unfold dict_wf. by_computation.
  - by_computation.
  - unfold well_formed_test. by_computation.
Defined.

Lemma greedy_marginals_positive_witness :
  ∃ covered test_case_pairs new_unique_counts,
    greedyalgo.count_unique_pairs ex3_suite ex3_pairs ex3
      = Ok (covered, test_case_pairs, new_unique_counts) ∧
    length new_unique_counts = length ex3_suite ∧
    Forall (λ c, (0 < c)%Z) new_unique_counts ∧
    NoDup ex3_suite.
Proof.
  apply (greedy_marginals_positive elements 20 ex3 ex3_suite ex3_pairs).
  by_computation.
Defined.

Lemma exact_no_solution_witness :
  algo.find_minimum_test_suite engine_infeasible elements ex2_input
    = Ok (None, None, []).
Proof.
  apply (exact_no_solution engine_infeasible elements).
  - discriminate.
  - repeat constructor.
  - discriminate.
  - discriminate.
Defined.

(** ** The pair-space builder and the order of the map *)

Lemma dict_wf_perm (p p' : dict) : p ≡ₚ p' → dict_wf p → dict_wf p'.
Proof. unfold dict_wf, keys. by intros ->. Qed.

Lemma universe_perm (p p' : dict) :
  dict_wf p → p ≡ₚ p' → universe p = universe p'.
Proof.
  intros Hwf Hp. apply set_eq. intros pr.
  rewrite !elem_of_universe by (by eauto using dict_wf_perm).
  unfold in_universe. by setoid_rewrite Hp.
Qed.

(** X1. The pair universe does not depend on the insertion order of the
    parameter map: two maps with the same entries in different orders give
    the same result. *)
Theorem generate_order_independent
    (list_of_set : gset pair_t → list pair_t) (parameters parameters' : dict) :
  dict_wf parameters →
  parameters ≡ₚ parameters' →
  generate_pairwise_combinations list_of_set parameters
    = generate_pairwise_combinations list_of_set parameters'.
Proof.
  intros Hwf Hp. rewrite !generate_universe. by rewrite (universe_perm _ _ Hwf Hp).
Qed.

(** ** Fewer than two parameters *)

Lemma universe_short (parameters : dict) :
  length parameters ≤ 1 → universe parameters = ∅.
Proof.
  destruct parameters as [|[k d] [|? ?]]; simpl; intros; [done..|lia].
Qed.

(** X2. On a map with fewer than two parameters there is no pair to cover:
    the greedy solver returns the empty suite and the empty universe. *)
Theorem greedy_fewer_than_two_parameters
    (list_of_set : gset pair_t → list pair_t) (fuel : nat) (parameters : dict) :
  set_listing list_of_set →
  length parameters ≤ 1 →
  greedyalgo.find_minimum_test_suite list_of_set (S fuel) parameters
    = Ok ([], []).
Proof.
  intros Hl Hlen. apply find_minimum_test_suite_inv.
  rewrite (universe_short _ Hlen).
  assert (list_of_set ∅ = []) as ->.
  { apply Permutation_nil_r. by rewrite (Hl ∅), elements_empty. }
  split; [done|]. by exists ∅.
Qed.

(** ** [get_pairs_in_test]: the test case is too short *)

Lemma index_Some {A} (l : list A) (i : nat) (x : A) :
  l !! i = Some x → Py.index l i = Ok x.
Proof. unfold Py.index. by intros ->. Qed.

Lemma index_None {A} (l : list A) (i : nat) :
  l !! i = None → Py.index l i = Raise IndexError.
Proof. unfold Py.index. by intros ->. Qed.

Lemma get_pairs_in_test_loop_raises (test : test_t) (param_keys : list string)
    (cs : list (nat * nat)) (acc : gset pair_t) :
  (∀ c, c ∈ cs → c.1 < length param_keys ∧ c.2 < length param_keys) →
  (∃ c, c ∈ cs ∧ (length test ≤ c.1 ∨ length test ≤ c.2)) →
  for_ cs (λ pairs '(p1, p2),
      k1 ← Py.index param_keys p1;
      t1 ← Py.index test p1;
      k2 ← Py.index param_keys p2;
      t2 ← Py.index test p2;
      Ok (pairs ∪ {[ sorted_pair (k1, t1) (k2, t2) ]})) acc
  = Raise IndexError.
Proof.
  revert acc. induction cs as [|[i j] cs IH]; intros acc Hcs (c & Hc & Hbad).
  { by apply elem_of_nil in Hc. }
  simpl. destruct (Hcs (i, j)) as [Hi Hj]; [left|]. simpl in Hi, Hj.
  rewrite (index_lt param_keys i Hi), (index_lt param_keys j Hj). simpl.
  destruct (test !! i) as [t1|] eqn:Hti;
    [rewrite (index_Some _ _ _ Hti)|rewrite (index_None _ _ Hti)];
    simpl; [|done].
  destruct (test !! j) as [t2|] eqn:Htj;
    [rewrite (index_Some _ _ _ Htj)|rewrite (index_None _ _ Htj)];
    simpl; [|done].
  apply IH; [intros c' Hc'; apply Hcs; by right|].
  apply elem_of_cons in Hc as [->|Hc]; [|by eauto].
  apply lookup_lt_Some in Hti, Htj. simpl in Hbad. lia.
Qed.

Lemma combinations_seq_last (n : nat) :
  2 ≤ n → (0, n - 1) ∈ Py.combinations (seq 0 n).
Proof.
  intros Hn. destruct n as [|n]; [lia|]. simpl seq.
  rewrite elem_of_combinations_cons. left. simpl. split; [done|].
  apply elem_of_seq. lia.
Qed.

Lemma pairs_of_few_keys (param_keys : list string) (test : test_t) :
  length param_keys < 2 → pairs_of param_keys test = ∅.
Proof.
  unfold pairs_of, test_pairs_list.
  destruct param_keys as [|k [|? ?]], test as [|v [|? ?]]; simpl; intros;
    try done; lia.
Qed.

(** X3. [get_pairs_in_test] raises IndexError exactly when the test case
    has fewer values than there are parameter names and there are at least
    two names; in every other case it returns the set of the sorted pairs of
    the assignments (name, value) at the positions of the names. *)
Theorem get_pairs_in_test_cases (test : test_t) (param_keys : list string) :
  greedyalgo.get_pairs_in_test test param_keys =
    if decide (length test < length param_keys ∧ 2 ≤ length param_keys)
    then Raise IndexError
    else Ok (pairs_of param_keys test).
Proof.
  destruct (decide _) as [[Hshort Htwo]|Hok].
  - apply get_pairs_in_test_loop_raises.
    + intros [i j] [Hi Hj]%elem_of_combinations_elem.
      apply elem_of_seq in Hi, Hj. simpl. lia.
    + exists (0, length param_keys - 1). split.
      * by apply combinations_seq_last.
      * simpl. lia.
  - destruct (decide (length param_keys ≤ length test)) as [Hle|Hgt].
    + by apply get_pairs_in_test_ok.
    + assert (length param_keys < 2) as Hfew by lia.
      rewrite (pairs_of_few_keys _ _ Hfew).
      unfold greedyalgo.get_pairs_in_test.
      by destruct param_keys as [|k [|? ?]]; simpl in *; try lia.
Qed.

(** ** [get_pairs_in_test]: how many pairs a test case realizes *)

Lemma combinations_length {A} (l : list A) :
  length (Py.combinations l) = choose2 (length l).
Proof.
  unfold choose2. induction l as [|x l IH]; [done|].
  rewrite combinations_cons, length_app, length_fmap, IH. simpl length.
  replace (S (length l) - 1) with (length l) by lia.
  destruct (length l) as [|n]; [done|].
  replace (S n - 1) with n by lia.
  replace (S (S n) * S n) with (S n * 2 + S n * n) by lia.
  rewrite Nat.div_add_l by done. lia.
Qed.

Lemma combinations_NoDup_flip {A} (l : list A) (a b : A) :
  NoDup l → (a, b) ∈ Py.combinations l → (b, a) ∉ Py.combinations l.
Proof.
  induction 1 as [|x l Hx Hnd IH]; [by intros ?%elem_of_nil|].
  rewrite !elem_of_combinations_cons. simpl.
  intros [[-> Hb]|Hab] [[-> Ha]|Hba]; try done.
  - by apply elem_of_combinations_elem in Hba as [_ ?].
  - by apply elem_of_combinations_elem in Hab as [_ ?].
  - by apply (IH Hab).
Qed.

Lemma sorted_pair_cases (a b : assignment) :
  sorted_pair a b = (a, b) ∨ sorted_pair a b = (b, a).
Proof. rewrite sorted_pair_eq. destruct (Py.tuple_ltb b a); by auto. Qed.

Lemma NoDup_zip_keys (param_keys : list string) (test : test_t) :
  NoDup param_keys → NoDup (zip param_keys test).
Proof.
  intros Hnd. apply (NoDup_fmap_1 fst).
  revert test. induction Hnd as [|k ks Hk Hnd IH]; intros [|v test]; simpl;
    try constructor; [|by apply IH].
  intros (kv & Hkv & Hin)%list_elem_of_fmap. destruct Hk.
  destruct kv as [k' v']. simpl in Hkv. subst k'.
  clear -Hin. revert test Hin. induction ks as [|k'' ks IH]; intros [|v'' test];
    simpl; intros Hin; try (by apply elem_of_nil in Hin).
  apply elem_of_cons in Hin as [[= -> ->]|Hin]; [left|right; by eauto].
Qed.

Lemma NoDup_test_pairs_list (param_keys : list string) (test : test_t) :
  NoDup param_keys → NoDup (test_pairs_list param_keys test).
Proof.
  intros Hnd. unfold test_pairs_list.
  pose proof (NoDup_zip_keys _ test Hnd) as Hz.
  apply NoDup_fmap_2_strong; [|by apply NoDup_combinations].
  intros [a b] [a' b'] Hc Hc' Heq. simpl in Heq.
  destruct (sorted_pair_cases a b) as [H1|H1],
    (sorted_pair_cases a' b') as [H2|H2];
    rewrite H1, H2 in Heq; injection Heq as -> ->; try done.
  - by apply combinations_NoDup_flip in Hc.
  - by apply combinations_NoDup_flip in Hc.
Qed.

Lemma zip_keys_names_ne (param_keys : list string) (test : test_t)
    (a b : assignment) :
  NoDup param_keys → (a, b) ∈ Py.combinations (zip param_keys test) →
  a.1 ≠ b.1.
Proof.
  intros Hnd Hc.
  apply (combinations_NoDup_ne ((zip param_keys test).*1)).
  - clear Hc. revert test. induction Hnd as [|k ks Hk Hnd IH];
      intros [|v test]; simpl; try constructor; [|by apply IH].
    intros Hin. destruct Hk.
    clear -Hin. revert test Hin. induction ks as [|k'' ks IH];
      intros [|v'' test]; simpl; intros Hin; try (by apply elem_of_nil in Hin).
    apply elem_of_cons in Hin as [->|Hin]; [left|right; by eauto].
  - rewrite combinations_fmap. apply list_elem_of_fmap. by exists (a, b).
Qed.

(** X4. With distinct parameter names, a test case with at least as many
    values as there are names realizes exactly n (n - 1) / 2 pairs, n the
    number of names; each pair joins two different names, the smaller name
    first. *)
Theorem get_pairs_in_test_size (test : test_t) (param_keys : list string) :
  NoDup param_keys →
  length param_keys ≤ length test →
  ∃ pairs,
    greedyalgo.get_pairs_in_test test param_keys = Ok pairs ∧
    size pairs = choose2 (length param_keys) ∧
    ∀ pr, pr ∈ pairs → String.ltb pr.1.1 pr.2.1 = true.
Proof.
  intros Hnd Hlen. exists (pairs_of param_keys test).
  split; [by apply get_pairs_in_test_ok|]. split.
  - unfold pairs_of.
    rewrite size_list_to_set by (by apply NoDup_test_pairs_list).
    unfold test_pairs_list.
    rewrite length_fmap, combinations_length, length_zip. f_equal. lia.
  - intros pr. unfold pairs_of, test_pairs_list.
    rewrite elem_of_list_to_set.
    intros ([[k1 v1] [k2 v2]] & -> & Hc)%list_elem_of_fmap. simpl.
    pose proof (zip_keys_names_ne _ _ _ _ Hnd Hc) as Hne. simpl in Hne.
    rewrite sorted_pair_names by done.
    destruct (String.ltb k1 k2) eqn:Hlt; simpl; [done|].
    destruct (ltb_total k1 k2 Hne); [congruence|done].
Qed.

(** ** The suite of the greedy solver *)

(** X5. Every test case of the suite the greedy solver returns is a
    candidate: it assigns, in parameter order, exactly one value to each
    parameter, taken from the domain of that parameter. *)
Theorem greedy_suite_well_formed
    (list_of_set : gset pair_t → list pair_t) (fuel : nat) (parameters : dict)
    (suite : list test_t) (all_pairs : list pair_t) :
  greedyalgo.find_minimum_test_suite list_of_set fuel parameters
    = Ok (suite, all_pairs) →
  Forall (well_formed_test parameters) suite.
Proof.
  intros Hrun. apply Forall_forall. intros t Ht.
  by eapply greedy_suite_lengths.
Qed.

Lemma find_minimum_test_suite_covered
    (list_of_set : gset pair_t → list pair_t) (fuel : nat) (parameters : dict)
    (suite : list test_t) (all_pairs : list pair_t) :
  set_listing list_of_set → dict_wf parameters →
  Forall (λ kd, kd.2 ≠ []) parameters →
  greedyalgo.find_minimum_test_suite list_of_set fuel parameters
    = Ok (suite, all_pairs) →
  ⋃ (pairs_of (keys parameters) <$> suite) = universe parameters.
Proof.
  intros Hl Hwf Hne [-> [covered Hrun]]%find_minimum_test_suite_inv.
  pose proof (greedy_complete _ _ _ _ _ Hl Hwf Hne Hrun) as <-.
  apply while_loop_sound in Hrun as (new & Hs & _ & -> & _);
    [|apply candidates_ok].
  simpl in Hs. subst new. by rewrite (left_id_L ∅ (∪)).
Qed.

(** X6. For a map with distinct names all of whose domains are non-empty,
    the suite the greedy solver returns covers the whole pair universe:
    every required pair is realized by some test case of the suite, and the
    analyzer reports the universe as the covered set. *)
Theorem greedy_suite_covers
    (list_of_set : gset pair_t → list pair_t) (fuel : nat) (parameters : dict)
    (suite : list test_t) (all_pairs : list pair_t) :
  set_listing list_of_set →
  dict_wf parameters →
  Forall (λ kd, kd.2 ≠ []) parameters →
  greedyalgo.find_minimum_test_suite list_of_set fuel parameters
    = Ok (suite, all_pairs) →
  (∀ pr, in_universe parameters pr →
     ∃ t pairs, t ∈ suite ∧
       greedyalgo.get_pairs_in_test t (keys parameters) = Ok pairs ∧
       pr ∈ pairs) ∧
  ∃ test_case_pairs new_unique_counts,
    greedyalgo.count_unique_pairs suite all_pairs parameters
      = Ok (list_to_set all_pairs, test_case_pairs, new_unique_counts).
Proof.
  intros Hl Hwf Hne Hrun.
  pose proof (find_minimum_test_suite_covered _ _ _ _ _ Hl Hwf Hne Hrun) as Hcov.
  assert (∀ t, t ∈ suite → length (keys parameters) ≤ length t) as Hlen.
  { intros t Ht. by eapply well_formed_test_length, greedy_suite_lengths. }
  split.
  - intros pr Hpr%elem_of_universe; [|done]. rewrite <-Hcov in Hpr.
    apply elem_of_union_list in Hpr as (X & (t & -> & Ht)%list_elem_of_fmap & Hpr).
    exists t, (pairs_of (keys parameters) t).
    split; [done|]. split; [|done]. by apply get_pairs_in_test_ok, Hlen.
  - eexists _, _. rewrite greedy_count_unique_pairs_eq by done.
    rewrite Hcov. do 3 f_equal.
    apply find_minimum_test_suite_inv in Hrun as [-> _].
    apply set_eq. intros pr.
    by rewrite elem_of_list_to_set, set_listing_elem_of.
Qed.

(** ** The marginal counts of the greedy suite *)

Lemma marginal_new_count (param_keys : list string) (covered : gset pair_t)
    (t : test_t) :
  (Z.of_nat (size (covered ∪ pairs_of param_keys t)) - Z.of_nat (size covered))%Z
    = Z.of_nat (new_count param_keys covered t).
Proof. unfold new_count. rewrite size_union_alt. lia. Qed.

Lemma new_count_mono (param_keys : list string) (c c' : gset pair_t)
    (t : test_t) :
  c ⊆ c' → new_count param_keys c' t ≤ new_count param_keys c t.
Proof. intros Hsub. unfold new_count. apply subseteq_size. set_solver. Qed.

Lemma greedy_trace_bound (param_keys : list string)
    (all_values : list test_t) (covered : gset pair_t) (suite : list test_t)
    (bound : nat) :
  (∀ t, t ∈ all_values → new_count param_keys covered t ≤ bound) →
  greedy_trace param_keys all_values covered suite →
  Forall (λ m, (m ≤ Z.of_nat bound)%Z)
    (marginals (pairs_of param_keys) covered suite).
Proof.
  revert covered. induction suite as [|t suite IH]; intros c Hb; simpl;
    [by constructor|].
  intros [(i & Hi & _) Htr]. constructor.
  - rewrite marginal_new_count. apply inj_le, Hb.
    by eapply list_elem_of_lookup_2.
  - apply IH; [|done]. intros t' Ht'.
    etrans; [apply new_count_mono|by apply Hb]. set_solver.
Qed.

Lemma greedy_trace_sorted (param_keys : list string)
    (all_values : list test_t) (covered : gset pair_t) (suite : list test_t) :
  greedy_trace param_keys all_values covered suite →
  StronglySorted (λ a b, (b ≤ a)%Z)
    (marginals (pairs_of param_keys) covered suite).
Proof.
  revert covered. induction suite as [|t suite IH]; intros c; simpl;
    [constructor|].
  intros [(i & Hi & Hpos & _ & Hmax) Htr]. constructor; [by apply IH|].
  rewrite marginal_new_count. apply (greedy_trace_bound _ all_values); [|done].
  intros t' Ht'. etrans; [apply new_count_mono|by apply Hmax]. set_solver.
Qed.

(** X7. The marginal counts that the analyzer reports for the suite of the
    greedy solver never increase from one test case to the next. *)
Theorem greedy_marginals_non_increasing
    (list_of_set : gset pair_t → list pair_t) (fuel : nat) (parameters : dict)
    (suite : list test_t) (all_pairs : list pair_t) :
  greedyalgo.find_minimum_test_suite list_of_set fuel parameters
    = Ok (suite, all_pairs) →
  ∃ covered test_case_pairs new_unique_counts,
    greedyalgo.count_unique_pairs suite all_pairs parameters
      = Ok (covered, test_case_pairs, new_unique_counts) ∧
    StronglySorted (λ a b, (b ≤ a)%Z) new_unique_counts.
Proof.
  intros Hrun. eexists _, _, _. split.
  - apply greedy_count_unique_pairs_eq. intros t Ht.
    by eapply well_formed_test_length, greedy_suite_lengths.
  - eapply greedy_trace_sorted. by eapply find_minimum_test_suite_trace.
Qed.

(** ** The first test case of the greedy solver *)

Lemma size_pairs_of (param_keys : list string) (test : test_t) :
  NoDup param_keys → length param_keys ≤ length test →
  size (pairs_of param_keys test) = choose2 (length param_keys).
Proof.
  intros Hnd Hlen. unfold pairs_of.
  rewrite size_list_to_set by (by apply NoDup_test_pairs_list).
  unfold test_pairs_list.
  rewrite length_fmap, combinations_length, length_zip. f_equal. lia.
Qed.

Lemma head_product (ls : list (list string)) :
  Forall (λ d, d ≠ []) ls → head (Py.product ls) = Some (hd "" <$> ls).
Proof.
  induction 1 as [|d ls Hd _ IH]; [done|].
  rewrite product_cons. destruct d as [|v d]; [done|].
  rewrite bind_cons. destruct (Py.product ls) as [|t ts]; [done|].
  simpl in *. by injection IH as ->.
Qed.

Lemma universe_nonempty (parameters : dict) :
  dict_wf parameters → 2 ≤ length parameters →
  Forall (λ kd, kd.2 ≠ []) parameters →
  ∃ pr, in_universe parameters pr.
Proof.
  intros Hwf Hlen Hne.
  destruct parameters as [|[k1 d1] [|[k2 d2] ps]]; simpl in Hlen; try lia.
  apply Forall_cons in Hne as [H1 [H2 _]%Forall_cons]. simpl in H1, H2.
  destruct d1 as [|v1 d1]; [done|]. destruct d2 as [|v2 d2]; [done|].
  assert (k1 ≠ k2) as Hk.
  { unfold dict_wf, keys in Hwf. simpl in Hwf.
    apply NoDup_cons in Hwf as [Hk _]. set_solver. }
  destruct (ltb_total k1 k2 Hk) as [Hlt|Hlt].
  - exists ((k1, v1), (k2, v2)), (v1 :: d1), (v2 :: d2). simpl.
    repeat split; try done; set_solver.
  - exists ((k2, v2), (k1, v1)), (v2 :: d2), (v1 :: d1). simpl.
    repeat split; try done; set_solver.
Qed.

(** X8. For a map with at least two parameters, distinct names and
    non-empty domains, the suite of the greedy solver is not empty and its
    first test case is the first candidate of the Cartesian product: the
    first value of every domain. *)
Theorem greedy_first_test_case
    (list_of_set : gset pair_t → list pair_t) (fuel : nat) (parameters : dict)
    (suite : list test_t) (all_pairs : list pair_t) :
  set_listing list_of_set →
  dict_wf parameters →
  2 ≤ length parameters →
  Forall (λ kd, kd.2 ≠ []) parameters →
  greedyalgo.find_minimum_test_suite list_of_set fuel parameters
    = Ok (suite, all_pairs) →
  head suite = Some ((λ kd : string * list string, hd "" kd.2) <$> parameters).
Proof.
  intros Hl Hwf Hlen Hne Hrun.
  pose proof (find_minimum_test_suite_covered _ _ _ _ _ Hl Hwf Hne Hrun) as Hcov.
  pose proof (find_minimum_test_suite_trace _ _ _ _ _ Hrun) as Htr.
  destruct suite as [|t suite].
  { destruct (universe_nonempty _ Hwf Hlen Hne) as [pr Hpr].
    apply elem_of_universe in Hpr; [|done]. rewrite <-Hcov in Hpr. set_solver. }
  simpl. f_equal. destruct Htr as [(i & Hi & Hpos & Hbefore & _) _].
  assert (head (Py.product (values parameters))
            = Some ((λ kd : string * list string, hd "" kd.2) <$> parameters))
    as Hhead.
  { unfold values. rewrite head_product by (by apply Forall_fmap).
    by rewrite <-list_fmap_compose. }
  rewrite head_lookup in Hhead.
  destruct i as [|i]; [congruence|].
  specialize (Hbefore 0 _ (Nat.lt_0_succ i) Hhead).
  assert (∀ t', t' ∈ Py.product (values parameters) →
    new_count (keys parameters) ∅ t' = choose2 (length (keys parameters)))
    as Hcount.
  { intros t' Ht'%product_well_formed%well_formed_test_length.
    unfold new_count. rewrite difference_empty_L. by apply size_pairs_of. }
  rewrite !Hcount in Hbefore by (by eapply list_elem_of_lookup_2). lia.
Qed.

(** ** The accounts of the analyzers *)

Lemma sum_counts_cons (m : Z) (counts : list Z) :
  sum_counts (m :: counts) = (m + sum_counts counts)%Z.
Proof. done. Qed.

Lemma marginals_total (pairs : test_t → gset pair_t) (covered : gset pair_t)
    (suite : list test_t) :
  sum_counts (marginals pairs covered suite) =
    (Z.of_nat (size (covered ∪ ⋃ (pairs <$> suite))) - Z.of_nat (size covered))%Z.
Proof.
  revert covered. induction suite as [|t suite IH]; intros c.
  - simpl. rewrite (right_id_L ∅ (∪)). lia.
  - change (marginals pairs c (t :: suite)) with
      ((Z.of_nat (size (c ∪ pairs t)) - Z.of_nat (size c))%Z
         :: marginals pairs (c ∪ pairs t) suite).
    rewrite sum_counts_cons, fmap_cons, union_list_cons, IH, (assoc_L (∪)). lia.
Qed.

Lemma marginals_bounds (pairs : test_t → gset pair_t) (covered : gset pair_t)
    (suite : list test_t) :
  Forall2 (λ m (X : gset pair_t), (0 ≤ m ≤ Z.of_nat (size X))%Z)
    (marginals pairs covered suite) (pairs <$> suite).
Proof.
  revert covered. induction suite as [|t suite IH]; intros c; simpl;
    constructor; [|by apply IH].
  rewrite size_union_alt.
  pose proof (subseteq_size (pairs t ∖ c) (pairs t)) as Hle.
  assert (pairs t ∖ c ⊆ pairs t) as Hsub by set_solver.
  specialize (Hle Hsub). lia.
Qed.

Lemma marginals_head (pairs : test_t → gset pair_t) (suite : list test_t) :
  head (marginals pairs ∅ suite) =
    (λ X : gset pair_t, Z.of_nat (size X)) <$> head (pairs <$> suite).
Proof.
  destruct suite as [|t suite]; [done|].
  cbn [marginals]. rewrite fmap_cons, !head_cons.
  rewrite (left_id_L ∅ (∪)), size_empty. cbn [fmap option_fmap option_map].
  f_equal. lia.
Qed.

(** X9. The analyzer of algo.py never raises, whatever the suite and the
    universe it is given, and its three results fit together: one pair set
    and one count per test case, the covered set is the union of the pair
    sets, each count lies between zero and the size of its pair set, the
    first count is the size of the first pair set, and the counts add up to
    the size of the covered set. *)
Theorem algo_analyzer_accounts (test_cases : list test_t)
    (all_pairs : list pair_t) (parameters : dict) :
  ∃ covered_pairs test_case_pairs new_unique_counts,
    algo.count_unique_pairs test_cases all_pairs parameters
      = Ok (covered_pairs, test_case_pairs, new_unique_counts) ∧
    length test_case_pairs = length test_cases ∧
    covered_pairs = ⋃ test_case_pairs ∧
    Forall2 (λ m (X : gset pair_t), (0 ≤ m ≤ Z.of_nat (size X))%Z)
      new_unique_counts test_case_pairs ∧
    head new_unique_counts =
      (λ X : gset pair_t, Z.of_nat (size X)) <$> head test_case_pairs ∧
    sum_counts new_unique_counts = Z.of_nat (size covered_pairs).
Proof.
  eexists _, _, _. split; [apply algo_count_unique_pairs_eq|].
  split; [by rewrite length_fmap|]. split; [done|].
  split; [apply marginals_bounds|]. split; [apply marginals_head|].
  rewrite marginals_total, (left_id_L ∅ (∪)), size_empty. lia.
Qed.

Lemma get_pairs_in_test_Ok_inv (test : test_t) (param_keys : list string)
    (pairs : gset pair_t) :
  greedyalgo.get_pairs_in_test test param_keys = Ok pairs →
  pairs = pairs_of param_keys test.
Proof.
  destruct (decide (length param_keys ≤ length test)) as [Hle|Hgt].
  { rewrite get_pairs_in_test_ok by done. by intros [= <-]. }
  destruct (decide (2 ≤ length param_keys)) as [Htwo|Hfew].
  - unfold greedyalgo.get_pairs_in_test.
    rewrite get_pairs_in_test_loop_raises; [done| |].
    + intros [i j] [Hi Hj]%elem_of_combinations_elem.
      apply elem_of_seq in Hi, Hj. simpl. lia.
    + exists (0, length param_keys - 1). split.
      * by apply combinations_seq_last.
      * simpl. lia.
  - rewrite pairs_of_few_keys by lia.
    unfold greedyalgo.get_pairs_in_test.
    destruct param_keys as [|k [|? ?]]; simpl in *; try lia; by intros [= <-].
Qed.

Lemma greedy_count_unique_pairs_inv (test_cases : list test_t)
    (all_pairs : list pair_t) (parameters : dict)
    (r : gset pair_t * list (gset pair_t) * list Z) :
  greedyalgo.count_unique_pairs test_cases all_pairs parameters = Ok r →
  r = (⋃ (pairs_of (keys parameters) <$> test_cases),
       pairs_of (keys parameters) <$> test_cases,
       marginals (pairs_of (keys parameters)) ∅ test_cases).
Proof.
  unfold greedyalgo.count_unique_pairs.
  match goal with |- for_ _ ?b _ = _ → _ => set (body := b) end.
  assert (∀ c tcp counts,
    for_ test_cases body (c, tcp, counts) = Ok r →
    r = (c ∪ ⋃ (pairs_of (keys parameters) <$> test_cases),
         tcp ++ (pairs_of (keys parameters) <$> test_cases),
         counts ++ marginals (pairs_of (keys parameters)) c test_cases)) as H.
  { induction test_cases as [|t ts IH]; intros c tcp counts; simpl.
    - intros [= <-]. by rewrite (right_id_L ∅ (∪)), !app_nil_r.
    - destruct (greedyalgo.get_pairs_in_test t (keys parameters))
        as [tp| |] eqn:Ht; simpl; try done.
      apply get_pairs_in_test_Ok_inv in Ht as ->.
      intros ->%IH. by rewrite (assoc_L (∪)), <-!app_assoc. }
  intros ->%H. by rewrite (left_id_L ∅ (∪)).
Qed.

(** X10. Whenever the analyzer of greedyalgo.py returns, its three results
    fit together in the same way: one pair set and one count per test case,
    the covered set is the union of the pair sets, each count lies between
    zero and the size of its pair set, the first count is the size of the
    first pair set, and the counts add up to the size of the covered set. *)
Theorem greedy_analyzer_accounts (test_cases : list test_t)
    (all_pairs : list pair_t) (parameters : dict)
    (covered_pairs : gset pair_t) (test_case_pairs : list (gset pair_t))
    (new_unique_counts : list Z) :
  greedyalgo.count_unique_pairs test_cases all_pairs parameters
    = Ok (covered_pairs, test_case_pairs, new_unique_counts) →
  length test_case_pairs = length test_cases ∧
  covered_pairs = ⋃ test_case_pairs ∧
  Forall2 (λ m (X : gset pair_t), (0 ≤ m ≤ Z.of_nat (size X))%Z)
    new_unique_counts test_case_pairs ∧
  head new_unique_counts =
    (λ X : gset pair_t, Z.of_nat (size X)) <$> head test_case_pairs ∧
  sum_counts new_unique_counts = Z.of_nat (size covered_pairs).
Proof.
  intros [= -> -> ->]%greedy_count_unique_pairs_inv.
  split; [by rewrite length_fmap|]. split; [done|].
  split; [apply marginals_bounds|]. split; [apply marginals_head|].
  rewrite marginals_total, (left_id_L ∅ (∪)), size_empty. lia.
Qed.

(** ** The covered set and the order of the suite *)

Lemma union_list_fmap_perm (pairs : test_t → gset pair_t)
    (s s' : list test_t) :
  s ≡ₚ s' → ⋃ (pairs <$> s) = ⋃ (pairs <$> s').
Proof.
  intros Hp. apply set_eq. intros pr. rewrite !elem_of_union_list.
  by setoid_rewrite Hp.
Qed.

(** X11. For the analyzer of algo.py the covered set does not depend on the
    order of the test cases: on a reordered suite it returns the same
    covered set, and the same per-test-case pair sets in the new order. *)
Theorem algo_analyzer_order_independent (test_cases test_cases' : list test_t)
    (all_pairs : list pair_t) (parameters : dict) :
  test_cases ≡ₚ test_cases' →
  ∃ covered_pairs tcp counts tcp' counts',
    algo.count_unique_pairs test_cases all_pairs parameters
      = Ok (covered_pairs, tcp, counts) ∧
    algo.count_unique_pairs test_cases' all_pairs parameters
      = Ok (covered_pairs, tcp', counts') ∧
    tcp ≡ₚ tcp'.
Proof.
  intros Hp. eexists _, _, _, _, _.
  split; [apply algo_count_unique_pairs_eq|].
  rewrite algo_count_unique_pairs_eq.
  split; [|by rewrite Hp].
  by rewrite (union_list_fmap_perm _ _ _ Hp).
Qed.


Lemma greedy_count_unique_pairs_tests (test_cases : list test_t)
    (all_pairs : list pair_t) (parameters : dict)
    (r : gset pair_t * list (gset pair_t) * list Z) :
  greedyalgo.count_unique_pairs test_cases all_pairs parameters = Ok r →
  ∀ t, t ∈ test_cases →
    greedyalgo.get_pairs_in_test t (keys parameters)
      = Ok (pairs_of (keys parameters) t).
Proof.
  unfold greedyalgo.count_unique_pairs.
  match goal with |- for_ _ ?b ?s = _ → _ =>
    generalize s; set (body := b) end.
  induction test_cases as [|t' ts IH]; intros [[c tcp] counts] Hrun t Ht.
  { by apply elem_of_nil in Ht. }
  simpl in Hrun.
  destruct (greedyalgo.get_pairs_in_test t' (keys parameters))
    as [tp| |] eqn:Ht'; simpl in Hrun; try done.
  apply elem_of_cons in Ht as [->|Ht]; [|by eapply IH].
  by rewrite <-(get_pairs_in_test_Ok_inv _ _ _ Ht').
Qed.

Lemma greedy_count_unique_pairs_eq_tests (test_cases : list test_t)
    (all_pairs : list pair_t) (parameters : dict) :
  (∀ t, t ∈ test_cases →
     greedyalgo.get_pairs_in_test t (keys parameters)
       = Ok (pairs_of (keys parameters) t)) →
  greedyalgo.count_unique_pairs test_cases all_pairs parameters =
    Ok (⋃ (pairs_of (keys parameters) <$> test_cases),
        pairs_of (keys parameters) <$> test_cases,
        marginals (pairs_of (keys parameters)) ∅ test_cases).
Proof.
  intros Hok. unfold greedyalgo.count_unique_pairs.
  match goal with |- for_ _ ?b _ = _ => set (body := b) end.
  assert (∀ c tcp counts,
    for_ test_cases body (c, tcp, counts) =
      Ok (c ∪ ⋃ (pairs_of (keys parameters) <$> test_cases),
          tcp ++ (pairs_of (keys parameters) <$> test_cases),
          counts ++ marginals (pairs_of (keys parameters)) c test_cases)) as ->.
  { induction test_cases as [|t ts IH]; intros c tcp counts; simpl.
    - rewrite (right_id_L ∅ (∪)), !app_nil_r. done.
    - rewrite Hok by left. simpl.
      rewrite IH by (intros t' Ht'; apply Hok; by right).
      rewrite (assoc_L (∪)), <-!app_assoc. done. }
  by rewrite (left_id_L ∅ (∪)).
Qed.

(** X12. The same holds for the analyzer of greedyalgo.py: if it returns on
    a suite, it returns on every reordering of the suite, with the same
    covered set and the same per-test-case pair sets in the new order. *)
Theorem greedy_analyzer_order_independent
    (test_cases test_cases' : list test_t)
    (all_pairs : list pair_t) (parameters : dict)
    (covered_pairs : gset pair_t) (tcp : list (gset pair_t))
    (counts : list Z) :
  test_cases ≡ₚ test_cases' →
  greedyalgo.count_unique_pairs test_cases all_pairs parameters
    = Ok (covered_pairs, tcp, counts) →
  ∃ tcp' counts',
    greedyalgo.count_unique_pairs test_cases' all_pairs parameters
      = Ok (covered_pairs, tcp', counts') ∧
    tcp ≡ₚ tcp'.
Proof.
  intros Hp Hrun.
  pose proof (greedy_count_unique_pairs_tests _ _ _ _ Hrun) as Hok.
  apply greedy_count_unique_pairs_inv in Hrun as [= -> -> ->].
  eexists _, _. rewrite greedy_count_unique_pairs_eq_tests
    by (intros t Ht; apply Hok; by rewrite Hp).
  split; [|by rewrite Hp].
  by rewrite (union_list_fmap_perm _ _ _ Hp).
Qed.

(** ** The exact solver: what it returns when the engine finds a suite *)

Lemma imap_index_filter {A} (P : nat * A → Prop) `{∀ x, Decision (P x)}
    (g : nat → nat) (l : list A) (x : nat * A) :
  x ∈ filter P (imap (λ i a, (g i, a)) l) ↔
    ∃ i, l !! i = Some x.2 ∧ x.1 = g i ∧ P x.
Proof.
  rewrite list_elem_of_filter, elem_of_lookup_imap. split.
  - intros (HP & i & a & -> & Hi). by exists i.
  - intros (i & Hi & Hx & HP). split; [done|]. exists i, x.2.
    split; [|done]. destruct x; simpl in *; by subst.
Qed.

Lemma elem_of_selected (value : nat → bool) (all_values : list test_t)
    (t : test_t) :
  t ∈ algo.selected value all_values ↔
    ∃ j, all_values !! j = Some t ∧ value j = true.
Proof.
  unfold algo.selected. rewrite list_elem_of_fmap. split.
  - intros ([j t'] & -> & Hin).
    apply (imap_index_filter _ id) in Hin as (i & Hi & Hj & Hv).
    simpl in *. subst j. by exists i.
  - intros (j & Hj & Hv). exists (j, t). split; [done|].
    apply (imap_index_filter _ id). by exists j.
Qed.

Lemma selected_sublist (value : nat → bool) (all_values : list test_t) :
  algo.selected value all_values `sublist_of` all_values.
Proof.
  unfold algo.selected.
  assert (∀ (g : nat → nat) (l : list test_t),
    (snd <$> filter (λ it : nat * test_t, value it.1 = true)
               (imap (λ i test, (g i, test)) l)) `sublist_of` l) as H.
  { intros g l. revert g. induction l as [|t l IH]; intros g; [done|].
    rewrite imap_cons, filter_cons. simpl.
    destruct (decide (value (g 0) = true)); simpl.
    - apply sublist_skip, (IH (g ∘ S)).
    - apply sublist_cons, (IH (g ∘ S)). }
  apply (H id).
Qed.

Lemma exact_validated (Solve : algo.engine)
    (list_of_set : gset pair_t → list pair_t)
    (items : list (string * algo.pyobj)) :
  items ≠ [] →
  Forall (λ ko : string * algo.pyobj, algo.is_list ko.2 = true) items →
  algo.find_minimum_test_suite Solve list_of_set (algo.PyDict items) =
    let parameters := algo.as_dict items in
    let all_pairs := list_of_set (universe parameters) in
    let all_values := Py.product (values parameters) in
    let sv := Solve (exact_model list_of_set parameters) in
    match sv.1 with
    | algo.OPTIMAL =>
      Ok (Some (algo.selected sv.2 all_values), Some all_pairs, [])
    | algo.FEASIBLE =>
      Ok (Some (algo.selected sv.2 all_values), Some all_pairs,
          ["Found a solution, but it may not be optimal"])
    | _ => Ok (None, None, [])
    end.
Proof.
  intros Hne Hlists. simpl.
  rewrite bool_decide_eq_false_2 by done.
  assert (forallb algo.is_list items.*2 = true) as ->.
  { apply forallb_forall.
    intros o (ko & -> & Hin)%list_elem_of_In%list_elem_of_fmap.
    rewrite Forall_forall in Hlists. by apply Hlists. }
  simpl. rewrite generate_universe. simpl.
  fold (exact_model list_of_set (algo.as_dict items)).
  by destruct (Solve (exact_model list_of_set (algo.as_dict items)))
    as [[] value].
Qed.


(** ** The exact solver: the model it builds *)

Lemma pairs_of_elem_zip (param_keys : list string) (t : test_t) (pr : pair_t) :
  pr ∈ pairs_of param_keys t →
  pr.1 ∈ zip param_keys t ∧ pr.2 ∈ zip param_keys t.
Proof.
  unfold pairs_of, test_pairs_list. rewrite elem_of_list_to_set.
  intros ([a b] & -> & [Ha Hb]%elem_of_combinations_elem)%list_elem_of_fmap.
  simpl. by destruct (sorted_pair_cases a b) as [-> | ->].
Qed.

Lemma elem_zip_pairs_of (param_keys : list string) (t : test_t) (pr : pair_t) :
  String.ltb pr.1.1 pr.2.1 = true →
  pr.1 ∈ zip param_keys t → pr.2 ∈ zip param_keys t →
  pr ∈ pairs_of param_keys t.
Proof.
  destruct pr as [[k1 v1] [k2 v2]]. simpl. intros Hlt Ha Hb.
  assert (k1 ≠ k2) as Hne by (intros ->; by rewrite ltb_irrefl in Hlt).
  unfold pairs_of, test_pairs_list.
  apply elem_of_list_to_set, list_elem_of_fmap.
  destruct (combinations_total _ (k1, v1) (k2, v2) Ha Hb) as [Hc|Hc];
    [congruence| |].
  - exists ((k1, v1), (k2, v2)). split; [|done]. simpl.
    by rewrite sorted_pair_names, Hlt.
  - exists ((k2, v2), (k1, v1)). split; [|done]. simpl.
    by rewrite sorted_pair_names, (ltb_asym _ _ Hlt).
Qed.

Lemma universe_ltb (parameters : dict) (pr : pair_t) :
  dict_wf parameters → pr ∈ universe parameters →
  String.ltb pr.1.1 pr.2.1 = true.
Proof.
  intros Hwf Hpr%elem_of_universe; [|done].
  by destruct Hpr as (_ & _ & _ & _ & ? & _).
Qed.

Lemma build_model_lookup (param_keys : list string) (all_values : list test_t)
    (all_pairs : list pair_t) (i : nat) (pr : pair_t) :
  all_pairs !! i = Some pr →
  ∃ js,
    algo.max_equalities (algo.build_model param_keys all_values all_pairs) !! i
      = Some js ∧
    ∀ j, j ∈ js ↔
      ∃ t, all_values !! j = Some t ∧
           pr.1 ∈ zip param_keys t ∧ pr.2 ∈ zip param_keys t.
Proof.
  intros Hi. unfold algo.build_model. simpl.
  rewrite list_lookup_fmap, Hi. simpl. eexists. split; [done|].
  intros j. rewrite list_elem_of_fmap. split.
  - intros ([j' t] & -> & Hin).
    apply (imap_index_filter _ id) in Hin as (i' & Hi' & Hj & HP).
    simpl in *. subst j'. by exists t.
  - intros (t & Hj & HP). exists (j, t). split; [done|].
    apply (imap_index_filter _ id). by exists j.
Qed.

(** X14. In the model the exact solver builds, the list of candidates
    attached to a pair of the universe holds exactly the positions of the
    candidates that realize the pair, as [get_pairs_in_test] computes
    it. *)
Theorem exact_model_lists
    (list_of_set : gset pair_t → list pair_t) (parameters : dict)
    (i : nat) (pr : pair_t) :
  set_listing list_of_set →
  dict_wf parameters →
  list_of_set (universe parameters) !! i = Some pr →
  ∃ js,
    algo.max_equalities (exact_model list_of_set parameters) !! i = Some js ∧
    ∀ j, j ∈ js ↔
      ∃ t pairs,
        Py.product (values parameters) !! j = Some t ∧
        greedyalgo.get_pairs_in_test t (keys parameters) = Ok pairs ∧
        pr ∈ pairs.
Proof.
  intros Hl Hwf Hi.
  destruct (build_model_lookup (keys parameters)
    (Py.product (values parameters)) _ _ _ Hi) as (js & Hjs & Hiff).
  exists js. split; [exact Hjs|]. intros j. rewrite Hiff.
  assert (String.ltb pr.1.1 pr.2.1 = true) as Hlt.
  { apply (universe_ltb parameters); [done|].
    by eapply set_listing_elem_of, list_elem_of_lookup_2. }
  split.
  - intros (t & Hj & Ha & Hb). exists t, (pairs_of (keys parameters) t).
    split; [done|]. split.
    + by eapply candidates_ok, list_elem_of_lookup_2.
    + by apply elem_zip_pairs_of.
  - intros (t & pairs & Hj & Hp & Hpr). exists t. split; [done|].
    rewrite candidates_ok in Hp by (by eapply list_elem_of_lookup_2).
    injection Hp as <-. by apply pairs_of_elem_zip.
Qed.

Lemma product_length_total {A} (ls : list (list A)) :
  length (Py.product ls) = foldr Nat.mul 1 (length <$> ls).
Proof.
  induction ls as [|d ls IH]; [done|].
  rewrite product_cons, fmap_cons. simpl foldr. rewrite <-IH.
  apply length_bind_const. intros v. by rewrite length_fmap.
Qed.

(** X15. The model has one Boolean per candidate, that is, as many as the
    product of the domain sizes, and one list and one unit of the required
    sum per pair of the universe. *)
Theorem exact_model_size
    (list_of_set : gset pair_t → list pair_t) (parameters : dict) :
  set_listing list_of_set →
  dict_wf parameters →
  Forall (λ kd, NoDup kd.2) parameters →
  algo.num_test_case_vars (exact_model list_of_set parameters)
    = candidate_count parameters ∧
  length (algo.max_equalities (exact_model list_of_set parameters))
    = universe_size parameters ∧
  algo.covered_sum (exact_model list_of_set parameters)
    = universe_size parameters.
Proof.
  intros Hl Hwf Hnd. unfold exact_model, algo.build_model. simpl.
  rewrite length_fmap, set_listing_length, size_universe by done.
  split; [|done]. apply product_length_total.
Qed.

(** ** The exact solver: a suite that satisfies the model covers *)

Lemma algo_pairs_of_universe
    (list_of_set : gset pair_t → list pair_t) (parameters : dict)
    (suite : list test_t) :
  set_listing list_of_set → dict_wf parameters →
  Forall (well_formed_test parameters) suite →
  algo_pairs_of (keys parameters) (list_of_set (universe parameters)) <$> suite
    = pairs_of (keys parameters) <$> suite.
Proof.
  intros Hl Hwf Hs. apply list_fmap_ext. intros i t Hi.
  apply algo_pairs_of_well_formed; [done..|].
  rewrite Forall_forall in Hs. by eapply Hs, list_elem_of_lookup_2.
Qed.

Lemma selected_well_formed (value : nat → bool) (parameters : dict) :
  Forall (well_formed_test parameters)
    (algo.selected value (Py.product (values parameters))).
Proof.
  apply Forall_forall. intros t (j & Hj & _)%elem_of_selected.
  by eapply product_well_formed, list_elem_of_lookup_2.
Qed.

Lemma selected_covers_universe
    (list_of_set : gset pair_t → list pair_t) (parameters : dict)
    (value : nat → bool) :
  set_listing list_of_set → dict_wf parameters →
  covers_all (exact_model list_of_set parameters) value →
  ⋃ (pairs_of (keys parameters)
       <$> algo.selected value (Py.product (values parameters)))
    = universe parameters.
Proof.
  intros Hl Hwf Hsat. apply set_eq. intros pr. split.
  - intros (X & (t & -> & Ht)%list_elem_of_fmap & Hpr)%elem_of_union_list.
    eapply pairs_of_subseteq_universe; [done| |done].
    pose proof (selected_well_formed value parameters) as Hsel.
    rewrite Forall_forall in Hsel. by apply Hsel.
  - intros Hpr. pose proof (universe_ltb _ _ Hwf Hpr) as Hlt.
    assert (pr ∈ list_of_set (universe parameters)) as Hin
      by (by apply set_listing_elem_of).
    apply list_elem_of_lookup_1 in Hin as [i Hi].
    destruct (build_model_lookup (keys parameters)
      (Py.product (values parameters)) _ _ _ Hi) as (js & Hjs & Hiff).
    unfold covers_all in Hsat. rewrite Forall_forall in Hsat.
    apply list_elem_of_lookup_2, Hsat, Exists_exists in Hjs
      as (j & Hj & Hv).
    apply Hiff in Hj as (t & Ht & Ha & Hb).
    apply elem_of_union_list. exists (pairs_of (keys parameters) t). split.
    + apply list_elem_of_fmap. exists t. split; [done|].
      apply elem_of_selected. by exists j.
    + by apply elem_zip_pairs_of.
Qed.

(** X16. If the values the engine reports satisfy the constraints of the
    model (every pair has a selected candidate in its list), the suite the
    exact solver returns covers the whole pair universe: the analyzer of
    algo.py reports the universe as the covered set of that suite. *)
Theorem exact_suite_covers (Solve : algo.engine)
    (list_of_set : gset pair_t → list pair_t)
    (items : list (string * algo.pyobj))
    (suite : list test_t) (all_pairs : list pair_t) (warnings : list string) :
  set_listing list_of_set →
  dict_wf (algo.as_dict items) →
  algo.find_minimum_test_suite Solve list_of_set (algo.PyDict items)
    = Ok (Some suite, Some all_pairs, warnings) →
  covers_all (exact_model list_of_set (algo.as_dict items))
    (Solve (exact_model list_of_set (algo.as_dict items))).2 →
  ∃ test_case_pairs new_unique_counts,
    algo.count_unique_pairs suite all_pairs (algo.as_dict items)
      = Ok (list_to_set all_pairs, test_case_pairs, new_unique_counts).
Proof.
  intros Hl Hwf Hrun Hsat.
  set (parameters := algo.as_dict items) in *.
  set (sv := Solve (exact_model list_of_set parameters)) in *.
  assert (suite = algo.selected sv.2 (Py.product (values parameters)) ∧
          all_pairs = list_of_set (universe parameters)) as [-> ->].
  { revert Hrun. simpl.
    case_bool_decide; [done|].
    destruct (forallb algo.is_list items.*2); simpl; [|done].
    rewrite generate_universe. simpl.
    fold parameters. fold (exact_model list_of_set parameters). fold sv.
    destruct sv as [[] value]; simpl; by intros [= <- <-]. }
  eexists _, _. rewrite algo_count_unique_pairs_eq.
  rewrite algo_pairs_of_universe by (try done; apply selected_well_formed).
  rewrite (selected_covers_universe list_of_set parameters sv.2) by done.
  do 3 f_equal. apply set_eq. intros pr.
  by rewrite elem_of_list_to_set, set_listing_elem_of.
Qed.

(** ** The exact solver: which inputs raise which exception *)

(** X17. The exact solver raises ValueError exactly on the empty dict and
    TypeError exactly on an input that is not a dict or on a non-empty dict
    one of whose values is not a list; on every other input it returns,
    whatever the engine answers. *)
Theorem exact_exceptions (Solve : algo.engine)
    (list_of_set : gset pair_t → list pair_t) (input : algo.pyinput) :
  (algo.find_minimum_test_suite Solve list_of_set input = Raise ValueError ↔
     input = algo.PyDict []) ∧
  (algo.find_minimum_test_suite Solve list_of_set input = Raise TypeError ↔
     (∃ o, input = algo.PyOther o) ∨
     (∃ items, input = algo.PyDict items ∧ items ≠ [] ∧
        Exists (λ ko : string * algo.pyobj, algo.is_list ko.2 = false) items)) ∧
  (¬ malformed input ↔
     ∃ r, algo.find_minimum_test_suite Solve list_of_set input = Ok r).
Proof.
  destruct input as [items|o].
  2:{ simpl. split; [|split].
      - split; by intros.
      - split; [by eauto|done].
      - split; [by intros []|by intros [r ?]]. }
  destruct (decide (items = [])) as [->|Hne].
  { simpl. split; [|split].
    - done.
    - split; [done|]. intros [[o [=]]|(items & [= <-] & ? & _)]; done.
    - split; [intros []; by left|by intros [r ?]]. }
  destruct (decide (Forall (λ ko : string * algo.pyobj,
                              algo.is_list ko.2 = true) items)) as [Hall|Hnot].
  - assert (¬ Exists (λ ko : string * algo.pyobj,
                        algo.is_list ko.2 = false) items) as Hno.
    { intros ([k o] & Hin & Hf)%Exists_exists. rewrite Forall_forall in Hall.
      specialize (Hall _ Hin). simpl in *. congruence. }
    assert (∃ r, algo.find_minimum_test_suite Solve list_of_set
                   (algo.PyDict items) = Ok r) as [r Hr].
    { rewrite exact_validated by done. simpl.
      destruct (Solve _).1; by eauto. }
    rewrite Hr. split; [|split].
    + split; [done|]. by intros [= ->].
    + split; [done|]. intros [[o [=]]|(items' & [= <-] & _ & Hex)]. done.
    + split; [by eauto|]. intros _ [?|?]; done.
  - assert (Exists (λ ko : string * algo.pyobj,
                      algo.is_list ko.2 = false) items) as Hex.
    { apply not_Forall_Exists in Hnot; [|intros ?; apply _].
      eapply Exists_impl; [exact Hnot|]. intros [k o] H. simpl in *.
      by destruct (algo.is_list o). }
    assert (algo.find_minimum_test_suite Solve list_of_set
              (algo.PyDict items) = Raise TypeError) as Hr.
    { simpl. rewrite bool_decide_eq_false_2 by done.
      assert (forallb algo.is_list items.*2 = false) as ->; [|done].
      apply not_true_iff_false. intros Hall. rewrite forallb_forall in Hall.
      apply Exists_exists in Hex as ([k o'] & Hin & Hno). simpl in Hno.
      rewrite Hall in Hno; [done|].
      apply list_elem_of_In, list_elem_of_fmap. by exists (k, o'). }
    rewrite Hr. split; [|split].
    + split; [done|]. by intros [= ->].
    + split; [|done]. intros _. right. by exists items.
    + split; [|by intros [r ?]]. intros Hm. destruct Hm. by right.
Qed.

(** ** How small the suite of the greedy solver can be *)

Lemma NoDup_zip_keys_fst (param_keys : list string) (test : test_t) :
  NoDup param_keys → NoDup (zip param_keys test).*1.
Proof.
  intros Hnd. revert test. induction Hnd as [|k ks Hk Hnd IH];
    intros [|v test]; simpl; try constructor; [|by apply IH].
  intros Hin. destruct Hk.
  clear -Hin. revert test Hin. induction ks as [|k'' ks IH];
    intros [|v'' test]; simpl; intros Hin; try (by apply elem_of_nil in Hin).
  apply elem_of_cons in Hin as [->|Hin]; [left|right; by eauto].
Qed.

Lemma zip_keys_functional (param_keys : list string) (test : test_t)
    (k v v' : string) :
  NoDup param_keys →
  (k, v) ∈ zip param_keys test → (k, v') ∈ zip param_keys test → v = v'.
Proof.
  intros Hnd Hw Hw'.
  pose proof (NoDup_zip_keys_fst _ test Hnd) as Hfst.
  apply list_elem_of_lookup_1 in Hw as [i Hi], Hw' as [j Hj].
  assert (i = j) as ->; [|congruence].
  eapply NoDup_lookup; [exact Hfst|..];
    rewrite list_lookup_fmap; [by rewrite Hi|by rewrite Hj].
Qed.

Lemma size_at_most_one (X : gset pair_t) :
  (∀ x y, x ∈ X → y ∈ X → x = y) → size X ≤ 1.
Proof.
  intros Huniq. destruct (set_choose_or_empty X) as [[x Hx]|Hemp].
  - assert (X = {[ x ]}) as ->; [|by rewrite size_singleton].
    apply set_eq. intros y. rewrite elem_of_singleton. split; [|by intros ->].
    intros Hy. by apply Huniq.
  - apply size_empty_iff in Hemp. lia.
Qed.

Lemma size_intersection_union_list (S : gset pair_t) (Xs : list (gset pair_t)) :
  (∀ X, X ∈ Xs → size (S ∩ X) ≤ 1) → size (S ∩ ⋃ Xs) ≤ length Xs.
Proof.
  induction Xs as [|X Xs IH]; intros Hone.
  - rewrite union_list_nil, (right_absorb_L ∅ (∩)), size_empty. done.
  - rewrite union_list_cons, intersection_union_l_L, size_union_alt.
    pose proof (Hone X ltac:(left)) as HX.
    assert (size (S ∩ ⋃ Xs) ≤ length Xs) as HXs.
    { apply IH. intros Y HY. apply Hone. by right. }
    pose proof (subseteq_size (S ∩ ⋃ Xs ∖ (S ∩ X)) (S ∩ ⋃ Xs)) as Hle.
    assert (S ∩ ⋃ Xs ∖ (S ∩ X) ⊆ S ∩ ⋃ Xs) as Hsub by set_solver.
    specialize (Hle Hsub). simpl. lia.
Qed.

Lemma suite_lower_bound (parameters : dict) (suite : list test_t)
    (k1 k2 : string) (d1 d2 : list string) :
  dict_wf parameters →
  universe parameters ⊆ ⋃ (pairs_of (keys parameters) <$> suite) →
  (k1, d1) ∈ parameters → (k2, d2) ∈ parameters →
  String.ltb k1 k2 = true → NoDup d1 → NoDup d2 →
  length d1 * length d2 ≤ length suite.
Proof.
  intros Hwf Hcov H1 H2 Hlt Hd1 Hd2.
  set (l := v1 ← d1; v2 ← d2; [((k1, v1), (k2, v2))]).
  set (S := list_to_set l : gset pair_t).
  assert (size S = length d1 * length d2) as <-.
  { unfold S. rewrite size_list_to_set.
    - unfold l. apply length_bind_const. intros v1.
      rewrite (length_bind_const _ _ 1) by done. lia.
    - unfold l. apply NoDup_bind; [| |done].
      + intros v1 v1' pr _ _ H H'.
        apply list_elem_of_bind in H as (v2 & ->%list_elem_of_singleton & _).
        apply list_elem_of_bind in H' as (v2' & H'%list_elem_of_singleton & _).
        congruence.
      + intros v1 _. apply NoDup_bind; [| |done].
        * intros v2 v2' pr _ _ ->%list_elem_of_singleton
            H'%list_elem_of_singleton. congruence.
        * intros v2 _. apply NoDup_singleton. }
  assert (∀ pr, pr ∈ S → pr.1.1 = k1 ∧ pr.2.1 = k2 ∧ in_universe parameters pr)
    as HS.
  { intros pr. unfold S, l. rewrite elem_of_list_to_set.
    intros (v1 & Hpr & Hv1)%list_elem_of_bind.
    apply list_elem_of_bind in Hpr as (v2 & ->%list_elem_of_singleton & Hv2).
    simpl. split; [done|]. split; [done|]. exists d1, d2. by auto. }
  replace S with (S ∩ ⋃ (pairs_of (keys parameters) <$> suite)).
  2:{ apply set_eq. intros pr. rewrite elem_of_intersection.
      split; [by intros [? _]|]. intros Hpr. split; [done|].
      apply Hcov, elem_of_universe; [done|]. by apply HS. }
  etrans; [apply size_intersection_union_list|by rewrite length_fmap].
  intros X (t & -> & _)%list_elem_of_fmap. apply size_at_most_one.
  intros [[a v] [b w]] [[a' v'] [b' w']]
    [(Ha & Hb & _)%HS [Hz1 Hz2]%pairs_of_elem_zip]%elem_of_intersection
    [(Ha' & Hb' & _)%HS [Hz1' Hz2']%pairs_of_elem_zip]%elem_of_intersection.
  simpl in *. subst.
  rewrite (zip_keys_functional _ _ _ _ _ Hwf Hz1 Hz1').
  rewrite (zip_keys_functional _ _ _ _ _ Hwf Hz2 Hz2'). done.
Qed.

(** X18. A suite of the greedy solver that covers the universe cannot be
    short: for a map with distinct names and non-empty domains of distinct
    labels, the suite has at least as many test cases as the product of the
    sizes of any two domains. *)
Theorem greedy_suite_lower_bound
    (list_of_set : gset pair_t → list pair_t) (fuel : nat) (parameters : dict)
    (suite : list test_t) (all_pairs : list pair_t)
    (k1 k2 : string) (d1 d2 : list string) :
  set_listing list_of_set →
  dict_wf parameters →
  Forall (λ kd, kd.2 ≠ []) parameters →
  Forall (λ kd, NoDup kd.2) parameters →
  greedyalgo.find_minimum_test_suite list_of_set fuel parameters
    = Ok (suite, all_pairs) →
  (k1, d1) ∈ parameters → (k2, d2) ∈ parameters → k1 ≠ k2 →
  length d1 * length d2 ≤ length suite.
Proof.
  intros Hl Hwf Hne Hnd Hrun H1 H2 Hk.
  pose proof (find_minimum_test_suite_covered _ _ _ _ _ Hl Hwf Hne Hrun) as Hcov.
  rewrite Forall_forall in Hnd.
  pose proof (Hnd _ H1) as Hd1. pose proof (Hnd _ H2) as Hd2. simpl in *.
  destruct (ltb_total k1 k2 Hk) as [Hlt|Hlt].
  - eapply (suite_lower_bound parameters suite k1 k2); by rewrite ?Hcov.
  - rewrite Nat.mul_comm.
    eapply (suite_lower_bound parameters suite k2 k1); by rewrite ?Hcov.
Qed.

(** X19. For a map of exactly two parameters with non-empty domains of
    distinct labels, the suite of the greedy solver holds every candidate
    exactly once: it is a reordering of the Cartesian product, of length
    the product of the two domain sizes. *)
Theorem greedy_two_parameters
    (list_of_set : gset pair_t → list pair_t) (fuel : nat)
    (k1 k2 : string) (d1 d2 : list string)
    (suite : list test_t) (all_pairs : list pair_t) :
  set_listing list_of_set →
  k1 ≠ k2 → d1 ≠ [] → d2 ≠ [] → NoDup d1 → NoDup d2 →
  greedyalgo.find_minimum_test_suite list_of_set fuel [(k1, d1); (k2, d2)]
    = Ok (suite, all_pairs) →
  length suite = length d1 * length d2 ∧
  suite ≡ₚ Py.product [d1; d2].
Proof.
  intros Hl Hk Hn1 Hn2 Hd1 Hd2 Hrun.
  set (parameters := [(k1, d1); (k2, d2)] : dict) in *.
  assert (dict_wf parameters) as Hwf.
  { unfold dict_wf, keys, parameters. simpl.
    apply NoDup_cons. split; [set_solver|apply NoDup_singleton]. }
  assert (Forall (λ kd : string * list string, kd.2 ≠ []) parameters) as Hne
    by (by repeat constructor).
  pose proof (find_minimum_test_suite_covered _ _ _ _ _ Hl Hwf Hne Hrun) as Hcov.
  pose proof (find_minimum_test_suite_trace _ _ _ _ _ Hrun) as Htr.
  assert (length d1 * length d2 ≤ length suite) as Hlow.
  { destruct (ltb_total k1 k2 Hk) as [Hlt|Hlt].
    - eapply (suite_lower_bound parameters suite k1 k2); rewrite ?Hcov;
        try done; unfold parameters; set_solver.
    - rewrite Nat.mul_comm.
      eapply (suite_lower_bound parameters suite k2 k1); rewrite ?Hcov;
        try done; unfold parameters; set_solver. }
  assert (length (Py.product [d1; d2]) = length d1 * length d2) as Hprod.
  { rewrite product_length_total. simpl. lia. }
  assert (suite ≡ₚ Py.product [d1; d2]) as Hperm.
  { apply submseteq_length_Permutation; [|lia].
    apply NoDup_submseteq; [by eapply greedy_trace_NoDup|].
    intros t Ht. by eapply (greedy_trace_candidates _ _ _ _ _ Htr). }
  split; [|done]. by rewrite Hperm.
Qed.

(** ** main.py: the page of results *)

Lemma table_rows_eq (tests : list test_t) (counts : list Z) :
  length tests ≤ length counts →
  main.table_rows tests counts = Ok (rows_from 0 tests counts).
Proof.
  intros Hlen. unfold main.table_rows, main.enumerate.
  match goal with |- for_ _ ?b _ = _ => set (body := b) end.
  assert (∀ k acc, k + length tests ≤ length counts →
    for_ (zip (seq (S k) (length tests)) tests) body acc
      = Ok (acc ++ rows_from k tests counts)) as H.
  { induction tests as [|t ts IH]; intros k acc Hk; simpl.
    - by rewrite app_nil_r.
    - rewrite Nat.sub_0_r, index_lt by (simpl in Hk; lia). simpl.
      rewrite IH by (simpl in Hk; lia). by rewrite <-app_assoc. }
  by rewrite (H 0 []) by lia.
Qed.

Lemma show_results_eq (parameters : dict) (tests : list test_t)
    (all_pairs : list pair_t) (counts : list Z) :
  length tests ≤ length counts →
  main.show_results parameters tests all_pairs counts
    = Ok (results_page parameters tests counts (length all_pairs)).
Proof.
  intros Hlen. unfold main.show_results. by rewrite table_rows_eq.
Qed.

Lemma gate_passed (Solve : algo.engine)
    (list_of_set : gset pair_t → list pair_t) (fuel : nat)
    (algorithm : string) (parameters : dict) :
  gate parameters →
  main.generate_clicked Solve list_of_set fuel algorithm parameters =
    if String.eqb algorithm "CP-SAT" then
      '(optimal_tests, all_pairs, warnings) ←
        algo.find_minimum_test_suite Solve list_of_set
          (main.to_pyinput parameters);
      page ←
        match optimal_tests with
        | Some (test :: tests) =>
          match all_pairs with
          | Some all_pairs =>
            '(_, _, new_unique_counts) ←
              algo.count_unique_pairs (test :: tests) all_pairs parameters;
            main.show_results parameters (test :: tests) all_pairs
              new_unique_counts
          | None => Raise TypeError
          end
        | _ => Ok main.no_suite
        end;
      Ok ((main.StWarning <$> warnings) ++ page)
    else
      '(optimal_tests, all_pairs) ←
        greedyalgo.find_minimum_test_suite list_of_set fuel parameters;
      match optimal_tests with
      | test :: tests =>
        '(_, _, new_unique_counts) ←
          greedyalgo.count_unique_pairs (test :: tests) all_pairs parameters;
        main.show_results parameters (test :: tests) all_pairs
          new_unique_counts
      | [] => Ok main.no_suite
      end.
Proof.
  intros [Hlen Hdom]. unfold main.generate_clicked.
  assert (filter (λ kd : string * list string, length kd.2 < 2) parameters = [])
    as ->.
  { clear Hlen. induction Hdom as [|kd ps Hkd _ IH]; [done|].
    rewrite filter_cons_False by lia. done. }
  simpl. rewrite bool_decide_eq_false_2 by lia. done.
Qed.

Lemma gate_nonempty_domains (parameters : dict) :
  gate parameters → Forall (λ kd, kd.2 ≠ []) parameters.
Proof.
  intros [_ Hdom]. eapply Forall_impl; [exact Hdom|].
  intros [k d] Hd. simpl in *. intros ->. simpl in Hd. lia.
Qed.

Lemma greedy_run_total
    (list_of_set : gset pair_t → list pair_t) (fuel : nat) (parameters : dict) :
  length (list_of_set (universe parameters)) < fuel →
  ∃ suite,
    greedyalgo.find_minimum_test_suite list_of_set fuel parameters
      = Ok (suite, list_of_set (universe parameters)).
Proof.
  intros Hfuel.
  destruct (while_loop_total (keys parameters) (Py.product (values parameters))
    (length (list_of_set (universe parameters))) (candidates_ok parameters)
    fuel ∅ []) as [[covered suite] Hrun]; [lia|].
  exists suite. apply find_minimum_test_suite_inv. by eauto.
Qed.

(** X20. With the greedy algorithm selected, on a map that passes the gate
    of the handler (at least two parameters, at least two values each) and
    has distinct names and distinct labels per domain, the handler shows the
    page of results, never the "No optimal test suite found." error: the
    table has one row per test case of a non-empty suite, each test case
    assigns one value per parameter, every count of new pairs is positive,
    and the counts add up to the "Total Unique Pairs" metric, which is the
    size of the pair universe. *)
Theorem generate_greedy_page (Solve : algo.engine)
    (list_of_set : gset pair_t → list pair_t) (fuel : nat)
    (algorithm : string) (parameters : dict) :
  set_listing list_of_set →
  dict_wf parameters →
  gate parameters →
  Forall (λ kd, NoDup kd.2) parameters →
  algorithm ≠ "CP-SAT" →
  universe_size parameters < fuel →
  ∃ suite counts,
    main.generate_clicked Solve list_of_set fuel algorithm parameters
      = Ok (results_page parameters suite counts (universe_size parameters)) ∧
    suite ≠ [] ∧
    length counts = length suite ∧
    Forall (well_formed_test parameters) suite ∧
    Forall (λ c, (0 < c)%Z) counts ∧
    sum_counts counts = Z.of_nat (universe_size parameters).
Proof.
  intros Hl Hwf Hgate Hnd Halg Hfuel.
  pose proof (gate_nonempty_domains _ Hgate) as Hne.
  rewrite gate_passed by done.
  apply String.eqb_neq in Halg. rewrite Halg.
  destruct (greedy_run_total list_of_set fuel parameters) as [suite Hrun].
  { by rewrite set_listing_length, size_universe. }
  rewrite Hrun. simpl.
  pose proof (find_minimum_test_suite_covered _ _ _ _ _ Hl Hwf Hne Hrun) as Hcov.
  pose proof (find_minimum_test_suite_trace _ _ _ _ _ Hrun) as Htr.
  assert (Forall (well_formed_test parameters) suite) as Hsuite.
  { apply Forall_forall. intros t Ht. by eapply greedy_suite_lengths. }
  exists suite, (marginals (pairs_of (keys parameters)) ∅ suite).
  assert (suite ≠ []) as Hnil.
  { intros ->. destruct Hgate as [Hlen _].
    destruct (universe_nonempty _ Hwf Hlen Hne) as [pr Hpr].
    apply elem_of_universe in Hpr; [|done]. rewrite <-Hcov in Hpr. set_solver. }
  split; [|split; [done|split; [apply marginals_length|split; [done|split]]]].
  - destruct suite as [|t suite]; [done|].
    rewrite greedy_count_unique_pairs_eq.
    2:{ intros t' Ht'. rewrite Forall_forall in Hsuite.
        by apply well_formed_test_length, Hsuite. }
    simpl. rewrite show_results_eq by (simpl; rewrite marginals_length; lia).
    by rewrite set_listing_length, size_universe.
  - by eapply greedy_trace_marginals.
  - rewrite marginals_total, (left_id_L ∅ (∪)), size_empty, Hcov.
    rewrite size_universe by done. lia.
Qed.

(** ** main.py: the exact solver behind the handler *)

Lemma as_dict_to_pyinput (parameters : dict) :
  algo.as_dict ((λ kd : string * list string, (kd.1, algo.PyList kd.2))
                  <$> parameters) = parameters.
Proof.
  unfold algo.as_dict. rewrite <-list_fmap_compose.
  rewrite <-(list_fmap_id parameters) at 2.
  apply list_fmap_ext. by intros i [k d] _.
Qed.

Lemma exact_on_dict (Solve : algo.engine)
    (list_of_set : gset pair_t → list pair_t) (parameters : dict) :
  parameters ≠ [] →
  algo.find_minimum_test_suite Solve list_of_set (main.to_pyinput parameters) =
    let all_pairs := list_of_set (universe parameters) in
    let all_values := Py.product (values parameters) in
    let sv := Solve (exact_model list_of_set parameters) in
    match sv.1 with
    | algo.OPTIMAL =>
      Ok (Some (algo.selected sv.2 all_values), Some all_pairs, [])
    | algo.FEASIBLE =>
      Ok (Some (algo.selected sv.2 all_values), Some all_pairs,
          ["Found a solution, but it may not be optimal"])
    | _ => Ok (None, None, [])
    end.
Proof.
  intros Hne. unfold main.to_pyinput. rewrite exact_validated.
  - by rewrite as_dict_to_pyinput.
  - by destruct parameters.
  - apply Forall_fmap, Forall_forall. by intros [k d] _.
Qed.

Lemma exact_page (Solve : algo.engine)
    (list_of_set : gset pair_t → list pair_t) (fuel : nat)
    (parameters : dict) :
  gate parameters →
  let sv := Solve (exact_model list_of_set parameters) in
  let suite := algo.selected sv.2 (Py.product (values parameters)) in
  let all_pairs := list_of_set (universe parameters) in
  let counts :=
    marginals (algo_pairs_of (keys parameters) all_pairs) ∅ suite in
  main.generate_clicked Solve list_of_set fuel "CP-SAT" parameters =
    match sv.1 with
    | algo.OPTIMAL =>
      Ok (if decide (suite = []) then main.no_suite
          else results_page parameters suite counts (length all_pairs))
    | algo.FEASIBLE =>
      Ok (main.StWarning "Found a solution, but it may not be optimal"
          :: if decide (suite = []) then main.no_suite
             else results_page parameters suite counts (length all_pairs))
    | _ => Ok main.no_suite
    end.
Proof.
  intros Hgate. cbv zeta. rewrite gate_passed by done.
  rewrite String.eqb_refl.
  rewrite exact_on_dict
    by (destruct Hgate as [? _]; destruct parameters; simpl in *; [lia|done]).
  cbv zeta. set (sv := Solve _).
  set (suite := algo.selected _ _).
  assert (∀ t ts, suite = t :: ts →
    ('(_, _, new_unique_counts) ←
       algo.count_unique_pairs (t :: ts)
         (list_of_set (universe parameters)) parameters;
     main.show_results parameters (t :: ts)
       (list_of_set (universe parameters)) new_unique_counts)
    = Ok (results_page parameters suite
            (marginals (algo_pairs_of (keys parameters)
               (list_of_set (universe parameters))) ∅ suite)
            (length (list_of_set (universe parameters))))) as Hpage.
  { intros t ts Hs. rewrite <-Hs. rewrite algo_count_unique_pairs_eq.
    cbn [mbind result_bind].
    by rewrite show_results_eq by (by rewrite marginals_length). }
  destruct sv.1; cbn [mbind result_bind]; try done.
  - destruct suite as [|t ts] eqn:Hs; [done|].
    rewrite (Hpage t ts eq_refl). cbn [mbind result_bind fmap list_fmap app].
    by rewrite decide_False.
  - destruct suite as [|t ts] eqn:Hs; [done|].
    rewrite (Hpage t ts eq_refl). cbn [mbind result_bind fmap list_fmap app].
    by rewrite decide_False.
Qed.


(** X22. With CP-SAT selected, on a map that passes the gate and has
    distinct names and distinct labels per domain, when the engine reports
    OPTIMAL or FEASIBLE with values that satisfy the constraints of the
    model, the handler shows the page of results (after the warning, for
    FEASIBLE): the suite is not empty, is made of candidates in the order
    of the Cartesian product, and the counts of new pairs add up to the
    "Total Unique Pairs" metric, the size of the pair universe. *)
Theorem generate_exact_page (Solve : algo.engine)
    (list_of_set : gset pair_t → list pair_t) (fuel : nat)
    (parameters : dict) :
  set_listing list_of_set →
  dict_wf parameters →
  gate parameters →
  Forall (λ kd, NoDup kd.2) parameters →
  (Solve (exact_model list_of_set parameters)).1 = algo.OPTIMAL ∨
  (Solve (exact_model list_of_set parameters)).1 = algo.FEASIBLE →
  covers_all (exact_model list_of_set parameters)
    (Solve (exact_model list_of_set parameters)).2 →
  ∃ suite counts warnings,
    main.generate_clicked Solve list_of_set fuel "CP-SAT" parameters
      = Ok (warnings ++
            results_page parameters suite counts (universe_size parameters)) ∧
    (warnings = [] ↔
     (Solve (exact_model list_of_set parameters)).1 = algo.OPTIMAL) ∧
    suite ≠ [] ∧
    suite `sublist_of` Py.product (values parameters) ∧
    length counts = length suite ∧
    sum_counts counts = Z.of_nat (universe_size parameters).
Proof.
  intros Hl Hwf Hgate Hnd Hstatus Hsat.
  pose proof (gate_nonempty_domains _ Hgate) as Hne.
  rewrite (exact_page Solve list_of_set fuel parameters Hgate). cbv zeta.
  set (sv := Solve _) in *.
  set (suite := algo.selected sv.2 (Py.product (values parameters))).
  pose proof (selected_covers_universe _ _ _ Hl Hwf Hsat) as Hcov.
  fold suite in Hcov.
  assert (suite ≠ []) as Hnil.
  { intros Hs. rewrite Hs in Hcov. destruct Hgate as [Hlen _].
    destruct (universe_nonempty _ Hwf Hlen Hne) as [pr Hpr].
    apply elem_of_universe in Hpr; [|done]. rewrite <-Hcov in Hpr. set_solver. }
  rewrite decide_False by done.
  rewrite set_listing_length, size_universe by done.
  set (counts := marginals _ ∅ suite).
  assert (length counts = length suite) as Hlen by apply marginals_length.
  assert (sum_counts counts = Z.of_nat (universe_size parameters)) as Htot.
  { unfold counts. rewrite marginals_total, (left_id_L ∅ (∪)), size_empty.
    rewrite algo_pairs_of_universe by (try done; apply selected_well_formed).
    rewrite Hcov, size_universe by done. lia. }
  destruct Hstatus as [Hs|Hs]; rewrite Hs.
  - exists suite, counts, []. split; [done|]. split; [done|].
    split; [done|]. split; [apply selected_sublist|done].
  - exists suite, counts,
      [main.StWarning "Found a solution, but it may not be optimal"].
    split; [done|]. split; [done|].
    split; [done|]. split; [apply selected_sublist|done].
Qed.

(** ** main.py: stripping and splitting *)

Section strings.
Variable isspace : ascii → bool.

Lemma lstrip_head (s : string) :
  main.lstrip isspace s = "" ∨
  ∃ c r, main.lstrip isspace s = String c r ∧ isspace c = false.
Proof.
  induction s as [|c s IH]; simpl; [by left|].
  destruct (isspace c) eqn:Hc; [done|]. right. by eauto.
Qed.

Lemma lstrip_fixed (c : ascii) (r : string) :
  isspace c = false → main.lstrip isspace (String c r) = String c r.
Proof. simpl. by intros ->. Qed.

Lemma rstrip_head (c : ascii) (r : string) :
  isspace c = false →
  ∃ r', main.rstrip isspace (String c r) = String c r'.
Proof.
  simpl. intros ->. destruct (main.rstrip isspace r); by eauto.
Qed.

Lemma rstrip_idemp (s : string) :
  main.rstrip isspace (main.rstrip isspace s) = main.rstrip isspace s.
Proof.
  induction s as [|c s IH]; [done|]. simpl.
  destruct (main.rstrip isspace s) as [|c' r] eqn:Hr.
  - destruct (isspace c) eqn:Hc; [done|]. simpl. by rewrite Hc.
  - change (main.rstrip isspace (String c (String c' r))) with
      (match main.rstrip isspace (String c' r) with
       | EmptyString => if isspace c then EmptyString else String c EmptyString
       | r0 => String c r0
       end).
    by rewrite IH.
Qed.

Lemma strip_idemp (s : string) :
  main.strip isspace (main.strip isspace s) = main.strip isspace s.
Proof.
  unfold main.strip.
  destruct (lstrip_head s) as [->|(c & r & -> & Hc)]; [done|].
  destruct (rstrip_head c r Hc) as [r' Hr']. rewrite Hr'.
  rewrite (lstrip_fixed _ _ Hc), <-Hr'. apply rstrip_idemp.
Qed.

Lemma lstrip_chars (s : string) (c : ascii) :
  c ∈ String.list_ascii_of_string (main.lstrip isspace s) →
  c ∈ String.list_ascii_of_string s.
Proof.
  induction s as [|c' s IH]; simpl; [done|].
  destruct (isspace c'); [|done]. intros H. right. by apply IH.
Qed.

Lemma rstrip_chars (s : string) (c : ascii) :
  c ∈ String.list_ascii_of_string (main.rstrip isspace s) →
  c ∈ String.list_ascii_of_string s.
Proof.
  induction s as [|c' s IH]; simpl; [done|].
  destruct (main.rstrip isspace s) as [|c'' r].
  - destruct (isspace c'); simpl; [by intros ?%elem_of_nil|].
    intros [->|?%elem_of_nil]%elem_of_cons; [left|done].
  - simpl. intros [->|H]%elem_of_cons; [left|right; by apply IH].
Qed.

Lemma strip_chars (s : string) (c : ascii) :
  c ∈ String.list_ascii_of_string (main.strip isspace s) →
  c ∈ String.list_ascii_of_string s.
Proof. intros H. by apply lstrip_chars, rstrip_chars. Qed.

Lemma lstrip_length (s : string) :
  String.length (main.lstrip isspace s) ≤ String.length s.
Proof.
  induction s as [|c s IH]; simpl; [done|]. destruct (isspace c); simpl; lia.
Qed.

Lemma split_nonempty (sep : ascii) (s : string) : main.split sep s ≠ [].
Proof.
  induction s as [|c s IH]; simpl; [done|].
  destruct (Ascii.eqb c sep); [done|]. by destruct (main.split sep s).
Qed.

Lemma split_pieces (sep : ascii) (s piece : string) :
  piece ∈ main.split sep s → sep ∉ String.list_ascii_of_string piece.
Proof.
  revert piece. induction s as [|c s IH]; intros piece; simpl.
  - intros ->%list_elem_of_singleton. simpl. by intros ?%elem_of_nil.
  - destruct (Ascii.eqb_spec c sep) as [->|Hne].
    + intros [->|H]%elem_of_cons; [simpl; by intros ?%elem_of_nil|by apply IH].
    + pose proof (split_nonempty sep s) as Hs.
      destruct (main.split sep s) as [|p ps]; [done|].
      intros [->|H]%elem_of_cons.
      * simpl. intros [->|Hin]%elem_of_cons; [done|].
        by apply (IH p); [left|].
      * apply IH. by right.
Qed.

End strings.

(** ** main.py: what the validation of values guarantees *)

Lemma size_list_to_set_NoDup (l : list string) :
  size (list_to_set l : gset string) = length l → NoDup l.
Proof.
  induction l as [|x l IH]; [constructor|].
  rewrite list_to_set_cons. simpl length. intros Hsize.
  assert (size (list_to_set l : gset string) ≤ length l) as Hle.
  { clear. induction l as [|y l IH];
      [by rewrite list_to_set_nil, size_empty|].
    rewrite list_to_set_cons, size_union_alt, size_singleton. simpl length.
    assert (list_to_set l ∖ {[y]} ⊆ (list_to_set l : gset string)) as Hsub
      by set_solver.
    apply subseteq_size in Hsub. lia. }
  destruct (decide (x ∈ l)) as [Hin|Hin].
  - replace ({[x]} ∪ list_to_set l : gset string) with
      (list_to_set l : gset string) in Hsize by set_solver. lia.
  - constructor; [done|]. apply IH.
    rewrite size_union, size_singleton in Hsize by set_solver. lia.
Qed.

Lemma all_other_values_elem (parameters : dict) (current : option string)
    (acc : gset string) (v : string) :
  v ∈ foldl (λ (acc : gset string) '(param, param_values),
               if bool_decide (Some param ≠ current)
               then acc ∪ list_to_set param_values else acc) acc parameters ↔
  v ∈ acc ∨ ∃ k d, (k, d) ∈ parameters ∧ Some k ≠ current ∧ v ∈ d.
Proof.
  revert acc. induction parameters as [|[k d] ps IH]; intros acc; simpl.
  - split; [by left|]. intros [?|(k & d & ?%elem_of_nil & _)]; done.
  - rewrite IH. case_bool_decide as Hk; split.
    + intros [[?|?%elem_of_list_to_set]%elem_of_union|(k' & d' & ? & ? & ?)].
      * by left.
      * right. exists k, d. split; [left|done].
      * right. exists k', d'. split; [by right|done].
    + intros [?|(k' & d' & [[= -> ->]|?]%elem_of_cons & ? & ?)].
      * left. set_solver.
      * left. set_solver.
      * right. by exists k', d'.
    + intros [?|(k' & d' & ? & ? & ?)]; [by left|].
      right. exists k', d'. split; [by right|done].
    + intros [?|(k' & d' & [[= -> ->]|?]%elem_of_cons & ? & ?)];
        [by left|done|]. right. by exists k', d'.
Qed.

Section validation.
Variables isspace isalnum : ascii → bool.
Variable list_of_names : gset string → list string.

Lemma validate_values_true (parameters : dict) (values : string)
    (current : option string) (values_list : list string) (msg : string) :
  main.validate_parameter_values isspace list_of_names parameters values current
    = (true, values_list, msg) →
  msg = "" ∧
  clean_domain isspace values_list ∧
  ∀ k d v, (k, d) ∈ parameters → Some k ≠ current → v ∈ values_list → v ∉ d.
Proof.
  unfold main.validate_parameter_values.
  destruct (_ || _); [done|].
  set (vl := main.strip isspace <$> _).
  destruct (Nat.ltb_spec 50 (length vl)) as [|Hmax]; [done|].
  case_bool_decide as Hlong; [done|].
  case_bool_decide as Hdup; [done|].
  case_bool_decide as Hcross; [done|].
  destruct (Nat.ltb_spec (length vl) 2) as [|Hmin]; [done|].
  intros [= <- <-]. split; [done|].
  try apply dec_stable in Hlong. try apply dec_stable in Hdup.
  try apply dec_stable in Hcross.
  split; [split; [lia|split]|].
  - by apply size_list_to_set_NoDup.
  - apply Forall_forall. intros v Hv.
    assert (¬ 100 < String.length v) as Hlen.
    { intros Hl. assert (v ∈ filter (λ v, 100 < String.length v) vl) as Hin
        by (by apply list_elem_of_filter).
      rewrite Hlong in Hin. by apply elem_of_nil in Hin. }
    unfold vl in Hv.
    apply list_elem_of_fmap in Hv as (piece & -> & [Hne Hpiece]%list_elem_of_filter).
    split; [done|]. split; [apply strip_idemp|]. split; [|lia].
    intros Hc%strip_chars. by apply (split_pieces _ _ _ Hpiece).
  - intros k d v Hkd Hk Hv Hd.
    assert (v ∈ (∅ : gset string)) as Hin; [|set_solver].
    rewrite <-Hcross. apply elem_of_intersection.
    split; [by apply elem_of_list_to_set|].
    apply all_other_values_elem. right. by exists k, d.
Qed.

Lemma validate_values_false (parameters : dict) (values : string)
    (current : option string) (values_list : list string) (msg : string) :
  main.validate_parameter_values isspace list_of_names parameters values current
    = (false, values_list, msg) →
  values_list = [] ∧ msg ≠ "".
Proof.
  unfold main.validate_parameter_values.
  repeat (match goal with
          | |- context [if ?b then _ else _] => destruct b
          end; try by intros [= <- <-]).
Qed.

(** X23. When the validation of values accepts its input, the list it
    returns has between 2 and 50 values, all different; each value is not
    empty, has no surrounding white space, no comma and at most 100
    characters; and no value occurs in the domain of another parameter
    (the parameter being updated apart).  When it rejects, it returns no
    value and a message. *)
Theorem validate_parameter_values_result (parameters : dict) (values : string)
    (current_param : option string) :
  ∃ valid values_list msg,
    main.validate_parameter_values isspace list_of_names parameters values
      current_param = (valid, values_list, msg) ∧
    if valid then
      msg = "" ∧
      clean_domain isspace values_list ∧
      ∀ k d v, (k, d) ∈ parameters → Some k ≠ current_param →
               v ∈ values_list → v ∉ d
    else values_list = [] ∧ msg ≠ "".
Proof.
  destruct (main.validate_parameter_values isspace list_of_names parameters
              values current_param) as [[valid values_list] msg] eqn:Hv.
  exists valid, values_list, msg. split; [done|]. destruct valid.
  - by eapply validate_values_true.
  - by eapply validate_values_false.
Qed.

End validation.

(** ** main.py: editing the map *)

Lemma setitem_notin (d : dict) (k : string) (v : list string) :
  k ∉ keys d → main.setitem d k v = d ++ [(k, v)].
Proof.
  unfold keys. induction d as [|[k' v'] d IH]; simpl; [done|].
  intros [Hne Hk]%not_elem_of_cons.
  destruct (String.eqb_spec k' k) as [->|_]; [done|]. by rewrite IH.
Qed.

Lemma setitem_keys_in (d : dict) (k : string) (v : list string) :
  k ∈ keys d → keys (main.setitem d k v) = keys d.
Proof.
  unfold keys. induction d as [|[k' v'] d IH]; simpl.
  - by intros ?%elem_of_nil.
  - destruct (String.eqb_spec k' k) as [->|Hne]; [done|].
    intros [?|Hk]%elem_of_cons; [congruence|]. simpl. f_equal. by apply IH.
Qed.

Lemma dict_wf_setitem (d : dict) (k : string) (v : list string) :
  dict_wf d → dict_wf (main.setitem d k v).
Proof.
  intros Hwf. destruct (decide (k ∈ keys d)) as [Hk|Hk].
  - unfold dict_wf. by rewrite setitem_keys_in.
  - rewrite setitem_notin by done. unfold dict_wf, keys in *.
    rewrite fmap_app. simpl. apply NoDup_app. split; [done|].
    split; [|apply NoDup_singleton].
    intros x Hx ->%list_elem_of_singleton. done.
Qed.

Lemma elem_of_setitem (d : dict) (k k' : string) (v v' : list string) :
  dict_wf d →
  (k', v') ∈ main.setitem d k v ↔
    (k' = k ∧ v' = v) ∨ (k' ≠ k ∧ (k', v') ∈ d).
Proof.
  unfold dict_wf, keys. induction d as [|[k0 v0] d IH]; simpl; intros Hwf.
  - rewrite list_elem_of_singleton. split.
    + intros [= -> ->]. by left.
    + intros [[-> ->]|[_ ?%elem_of_nil]]; done.
  - apply NoDup_cons in Hwf as [Hk0 Hwf].
    destruct (String.eqb_spec k0 k) as [->|Hne].
    + rewrite !elem_of_cons. split.
      * intros [[= -> ->]|Hin]; [by left|]. right. split; [|by right].
        intros ->. apply Hk0, list_elem_of_fmap. by exists (k, v').
      * intros [[-> ->]|[Hne [[= -> ->]|Hin]]]; [by left|done|by right].
    + rewrite !elem_of_cons, IH by done. split.
      * intros [[= -> ->]|[[-> ->]|[Hk Hin]]]; [|by left|by auto].
        right. split; [done|by left].
      * intros [[-> ->]|[Hk [[= -> ->]|Hin]]]; by auto.
Qed.

Lemma setitem_same (d : dict) (k : string) (v : list string) :
  dict_wf d → (k, v) ∈ d → main.setitem d k v = d.
Proof.
  unfold dict_wf, keys. induction d as [|[k0 v0] d IH]; simpl; intros Hwf.
  - by intros ?%elem_of_nil.
  - apply NoDup_cons in Hwf as [Hk0 Hwf].
    destruct (String.eqb_spec k0 k) as [->|Hne].
    + intros [[= <-]|Hin]%elem_of_cons; [done|].
      destruct Hk0. apply list_elem_of_fmap. by exists (k, v).
    + intros [[= -> ->]|Hin]%elem_of_cons; [done|]. by rewrite IH.
Qed.

Lemma delitem_notin (d : dict) (k : string) :
  k ∉ keys d → main.delitem d k = Raise KeyError.
Proof.
  unfold keys. induction d as [|[k0 v0] d IH]; [done|].
  rewrite fmap_cons. intros [Hne Hk]%not_elem_of_cons. simpl in Hne.
  cbn [main.delitem].
  destruct (String.eqb_spec k0 k) as [->|_]; [done|]. by rewrite IH.
Qed.

Lemma filter_keys_notin (d : dict) (k : string) :
  k ∉ keys d → filter (λ kd : string * list string, kd.1 ≠ k) d = d.
Proof.
  unfold keys. induction d as [|[k1 v1] d IH]; [done|].
  rewrite fmap_cons. intros [Hk1 Hk]%not_elem_of_cons. simpl in Hk1.
  rewrite filter_cons_True by (simpl; congruence). by rewrite IH.
Qed.

Lemma delitem_in (d : dict) (k : string) :
  dict_wf d → k ∈ keys d →
  main.delitem d k = Ok (filter (λ kd : string * list string, kd.1 ≠ k) d).
Proof.
  unfold dict_wf, keys. induction d as [|[k0 v0] d IH]; intros Hwf Hin.
  { by apply elem_of_nil in Hin. }
  rewrite fmap_cons in Hwf, Hin. apply NoDup_cons in Hwf as [Hk0 Hwf].
  cbn [main.delitem]. simpl in Hk0, Hin.
  destruct (String.eqb_spec k0 k) as [->|Hne].
  - rewrite filter_cons_False by (simpl; tauto).
    by rewrite filter_keys_notin.
  - apply elem_of_cons in Hin as [?|Hin]; [congruence|].
    rewrite IH by done. by rewrite filter_cons_True.
Qed.

Lemma filter_keys_length (d : dict) (k : string) :
  dict_wf d → k ∈ keys d →
  S (length (filter (λ kd : string * list string, kd.1 ≠ k) d)) = length d.
Proof.
  unfold dict_wf, keys. induction d as [|[k0 v0] d IH]; intros Hwf Hin.
  { by apply elem_of_nil in Hin. }
  rewrite fmap_cons in Hwf, Hin. apply NoDup_cons in Hwf as [Hk0 Hwf].
  simpl in Hk0, Hin. destruct (decide (k0 = k)) as [->|Hne].
  - rewrite filter_cons_False by (simpl; tauto).
    by rewrite filter_keys_notin.
  - apply elem_of_cons in Hin as [?|Hin]; [congruence|].
    rewrite filter_cons_True by done. simpl. f_equal. by apply IH.
Qed.

Section handlers.
Variables isspace isalnum : ascii → bool.
Variable list_of_names : gset string → list string.

Lemma state_ok_setitem (d : dict) (k : string) (v : list string) :
  state_ok isspace d →
  clean_domain isspace v →
  (∀ k' d' x, (k', d') ∈ d → k' ≠ k → x ∈ v → x ∉ d') →
  state_ok isspace (main.setitem d k v).
Proof.
  intros (Hwf & Hclean & Hdisj) Hv Hnew. split; [by apply dict_wf_setitem|].
  split.
  - apply Forall_forall. intros [k' d'] [[-> ->]|[_ Hin]]%elem_of_setitem;
      [done| |done]. rewrite Forall_forall in Hclean. by apply (Hclean (k', d')).
  - intros k1 d1 k2 d2 x [[-> ->]|[Hk1 H1]]%elem_of_setitem
      [[-> ->]|[Hk2 H2]]%elem_of_setitem Hne Hx; try done.
    + exact (Hnew _ _ _ H2 Hk2 Hx).
    + intros Hx'. exact (Hnew _ _ _ H1 Hk1 Hx' Hx).
    + exact (Hdisj _ _ _ _ _ H1 H2 Hne Hx).
Qed.

Lemma state_ok_filter (d : dict) (P : string * list string → Prop)
    `{∀ x, Decision (P x)} :
  state_ok isspace d → state_ok isspace (filter P d).
Proof.
  intros (Hwf & Hclean & Hdisj). split; [|split].
  - unfold dict_wf, keys in *. eapply sublist_NoDup; [exact Hwf|].
    apply fmap_sublist, sublist_filter.
  - apply Forall_forall. intros kd [_ Hin]%list_elem_of_filter.
    rewrite Forall_forall in Hclean. by apply Hclean.
  - intros k1 d1 k2 d2 x [_ H1]%list_elem_of_filter [_ H2]%list_elem_of_filter.
    by apply Hdisj.
Qed.

Lemma validate_name_true (parameters : dict) (name msg : string) :
  main.validate_parameter_name isspace isalnum parameters name = (true, msg) →
  (main.strip isspace name ∉ keys parameters) ∧
  main.strip isspace name ≠ "" ∧
  String.length name ≤ 50.
Proof.
  unfold main.validate_parameter_name.
  destruct (String.eqb name "") eqn:H1; [done|].
  destruct (String.eqb_spec (main.strip isspace name) "") as [|H2]; [done|].
  simpl. destruct (negb _); [done|].
  destruct (Nat.ltb_spec 50 (String.length name)); [done|].
  case_bool_decide; [done|]. intros _. split; [done|]. split; [done|lia].
Qed.

(** X24. The "Add Parameter" button keeps the invariant of the session's
    map (distinct names; domains of 2 to 50 distinct clean values; no value
    shared by two parameters).  When it reports success the new parameter
    is appended, under the stripped name, which was not yet a name of the
    map; otherwise the map is unchanged and an error is shown. *)
Theorem add_parameter_invariant (parameters : dict)
    (new_param new_values : string) :
  state_ok isspace parameters →
  ∃ parameters' shown,
    main.add_parameter_clicked isspace isalnum list_of_names parameters
      new_param new_values = (parameters', shown) ∧
    state_ok isspace parameters' ∧
    ((∃ d, shown = main.StSuccess ("Added " +:+ new_param) ∧
           (main.strip isspace new_param ∉ keys parameters) ∧
           parameters' = parameters ++ [(main.strip isspace new_param, d)]) ∨
     (∃ msg, shown = main.StError msg ∧ parameters' = parameters)).
Proof.
  intros Hok. unfold main.add_parameter_clicked.
  destruct (main.validate_parameter_name isspace isalnum parameters new_param)
    as [[] name_error] eqn:Hname; [|by eauto 10].
  destruct (main.validate_parameter_values isspace list_of_names parameters
              new_values None) as [[[] values_list] values_error] eqn:Hval;
    [|by eauto 10].
  apply validate_name_true in Hname as (Hnew & _ & _).
  apply validate_values_true in Hval as (_ & Hclean & Hdisj).
  eexists _, _. split; [done|]. split.
  - apply state_ok_setitem; [done..|]. intros k' d' x Hin _ Hx.
    by eapply Hdisj.
  - left. exists values_list. split; [done|]. split; [done|].
    by apply setitem_notin.
Qed.

(** X25. The "Update" button keeps the invariant of the session's map and
    the names of the map; when it reports success the parameter is bound to
    a domain of 2 to 50 distinct clean values, otherwise the map is
    unchanged and an error is shown. *)
Theorem update_invariant (parameters : dict) (param values : string) :
  state_ok isspace parameters →
  param ∈ keys parameters →
  ∃ parameters' shown,
    main.update_clicked isspace list_of_names parameters param values
      = (parameters', shown) ∧
    state_ok isspace parameters' ∧
    keys parameters' = keys parameters ∧
    ((∃ d, shown = main.StSuccess ("Updated " +:+ param) ∧
           clean_domain isspace d ∧ getitem parameters' param = Ok d) ∨
     (∃ msg, shown = main.StError msg ∧ parameters' = parameters)).
Proof.
  intros Hok Hparam. unfold main.update_clicked.
  destruct (main.validate_parameter_values isspace list_of_names parameters
              values (Some param)) as [[[] values_list] values_error] eqn:Hval;
    simpl; [|by eauto 10].
  apply validate_values_true in Hval as (_ & Hclean & Hdisj).
  eexists _, _. split; [done|]. split; [|split].
  - apply state_ok_setitem; [done..|]. intros k' d' x Hin Hne Hx.
    eapply Hdisj; [done| |done]. congruence.
  - by apply setitem_keys_in.
  - left. exists values_list. split; [done|]. split; [done|].
    apply getitem_wf; [apply dict_wf_setitem, Hok|].
    apply elem_of_setitem; [apply Hok|]. by left.
Qed.

(** X26. The "Delete" button raises KeyError for a name that is not in the
    map; for a name of the map it removes that parameter and nothing else,
    and keeps the invariant of the session's map. *)
Theorem delete_invariant (parameters : dict) (param : string) :
  state_ok isspace parameters →
  if decide (param ∈ keys parameters) then
    ∃ shown,
      main.delete_clicked parameters param
        = Ok (filter (λ kd : string * list string, kd.1 ≠ param) parameters,
              shown) ∧
      state_ok isspace
        (filter (λ kd : string * list string, kd.1 ≠ param) parameters) ∧
      S (length (filter (λ kd : string * list string, kd.1 ≠ param)
                   parameters)) = length parameters
  else main.delete_clicked parameters param = Raise KeyError.
Proof.
  intros Hok. unfold main.delete_clicked.
  destruct (decide (param ∈ keys parameters)) as [Hin|Hin];
    [|by rewrite delitem_notin].
  rewrite delitem_in by (done || apply Hok).
  cbn [mbind result_bind]. set (p' := filter _ parameters).
  destruct (length p' =? 1); eexists; (split; [done|]);
    (split; [by apply state_ok_filter|]);
    apply filter_keys_length; (done || apply Hok).
Qed.

End handlers.

(** ** main.py: the text of a field and its validation *)

Lemma split_no_sep (sep : ascii) (a : string) :
  sep ∉ String.list_ascii_of_string a → main.split sep a = [a].
Proof.
  induction a as [|c a IH]; simpl; [done|].
  intros [Hc Ha]%not_elem_of_cons.
  destruct (Ascii.eqb_spec c sep) as [->|_]; [done|]. by rewrite IH.
Qed.

Lemma split_app_sep (sep : ascii) (a b : string) :
  sep ∉ String.list_ascii_of_string a →
  main.split sep (a +:+ String sep b) = a :: main.split sep b.
Proof.
  induction a as [|c a IH]; simpl.
  - intros _. change (String.app "" (String sep b)) with (String sep b).
    simpl. by rewrite Ascii.eqb_refl.
  - intros [Hc Ha]%not_elem_of_cons.
    change (String.app (String c a) (String sep b))
      with (String c (a +:+ String sep b)).
    simpl. destruct (Ascii.eqb_spec c sep) as [->|_]; [done|]. by rewrite IH.
Qed.

Lemma split_cons_ne (sep c : ascii) (s : string) :
  c ≠ sep →
  main.split sep (String c s) =
    match main.split sep s with
    | piece :: pieces => String c piece :: pieces
    | [] => [String c ""]
    end.
Proof. intros Hne. simpl. by destruct (Ascii.eqb_spec c sep). Qed.

Lemma concat_cons2 (sep x y : string) (l : list string) :
  String.concat sep (x :: y :: l) = x +:+ sep +:+ String.concat sep (y :: l).
Proof. done. Qed.

Lemma split_field_text (v : string) (vs : list string) :
  Forall (λ w, (","%char ∉ String.list_ascii_of_string w)) (v :: vs) →
  main.split "," (main.field_text (v :: vs)) = v :: (String " " <$> vs).
Proof.
  unfold main.field_text. revert v. induction vs as [|w ws IH]; intros v.
  - intros [Hv _]%Forall_cons. by apply split_no_sep.
  - intros [Hv Hrest]%Forall_cons. rewrite concat_cons2.
    change (", " +:+ String.concat ", " (w :: ws))
      with (String "," (String " " (String.concat ", " (w :: ws)))).
    rewrite split_app_sep by done. f_equal.
    rewrite split_cons_ne by done. by rewrite (IH w Hrest).
Qed.

Section round_trip.
Variable isspace : ascii → bool.
Variable list_of_names : gset string → list string.
Hypothesis isspace_space : isspace " " = true.

Lemma rstrip_length (s : string) :
  String.length (main.rstrip isspace s) ≤ String.length s.
Proof.
  induction s as [|c s IH]; simpl; [done|].
  destruct (main.rstrip isspace s); [destruct (isspace c)|]; simpl in *; lia.
Qed.

Lemma clean_value_head (v : string) :
  clean_value isspace v → ∃ c r, v = String c r ∧ isspace c = false.
Proof.
  intros (Hne & Hstrip & _). destruct v as [|c r]; [done|].
  exists c, r. split; [done|]. destruct (isspace c) eqn:Hc; [|done].
  exfalso. apply (f_equal String.length) in Hstrip.
  unfold main.strip in Hstrip. simpl in Hstrip. rewrite Hc in Hstrip.
  pose proof (rstrip_length (main.lstrip isspace r)).
  pose proof (lstrip_length isspace r). lia.
Qed.

Lemma strip_space_cons (w : string) :
  main.strip isspace (String " " w) = main.strip isspace w.
Proof. unfold main.strip. simpl. by rewrite isspace_space. Qed.

Lemma strip_head_nonempty (c : ascii) (r : string) :
  isspace c = false → main.strip isspace (String c r) ≠ "".
Proof.
  intros Hc. unfold main.strip. rewrite lstrip_fixed by done.
  by destruct (rstrip_head isspace c r Hc) as [r' ->].
Qed.

Lemma values_of_field_text (d : list string) :
  Forall (clean_value isspace) d → d ≠ [] →
  main.strip isspace <$>
    filter (λ v, main.strip isspace v ≠ "") (main.split "," (main.field_text d))
  = d.
Proof.
  intros Hclean Hne. destruct d as [|v vs]; [done|].
  rewrite split_field_text.
  2:{ eapply Forall_impl; [exact Hclean|]. by intros w (_ & _ & ? & _). }
  assert (∀ l, Forall (clean_value isspace) l →
    main.strip isspace <$>
      filter (λ v, main.strip isspace v ≠ "") (String " " <$> l) = l) as Htail.
  { induction 1 as [|w ws Hw _ IH]; [done|].
    rewrite fmap_cons, filter_cons_True.
    - rewrite fmap_cons, IH, strip_space_cons. f_equal. apply Hw.
    - rewrite strip_space_cons. destruct Hw as (? & -> & _). done. }
  apply Forall_cons in Hclean as [Hv Hvs].
  rewrite filter_cons_True by (destruct Hv as (? & -> & _); done).
  rewrite fmap_cons, Htail by done. f_equal. apply Hv.
Qed.

Lemma field_text_head (v : string) (vs : list string) (c : ascii) (r : string) :
  v = String c r → ∃ r', main.field_text (v :: vs) = String c r'.
Proof.
  intros ->. unfold main.field_text. destruct vs as [|w ws]; [by eauto|].
  rewrite concat_cons2. by eauto.
Qed.

Lemma validate_field_text (parameters : dict) (param : string)
    (d : list string) :
  state_ok isspace parameters → (param, d) ∈ parameters →
  main.validate_parameter_values isspace list_of_names parameters
    (main.field_text d) (Some param) = (true, d, "").
Proof.
  intros (Hwf & Hclean & Hdisj) Hin.
  rewrite Forall_forall in Hclean.
  destruct (Hclean _ Hin) as ([Hmin Hmax] & Hnd & Hvals). simpl in *.
  unfold main.validate_parameter_values.
  destruct d as [|v vs]; [simpl in Hmin; lia|].
  rewrite values_of_field_text by done.
  pose proof (Forall_inv Hvals) as Hv.
  destruct (clean_value_head v Hv) as (c & r & Hvc & Hc).
  destruct (field_text_head v vs c r Hvc) as [r' Htext]. rewrite Htext.
  assert (String.eqb (String c r') "" = false) as -> by done.
  assert (String.eqb (main.strip isspace (String c r')) "" = false) as ->.
  { apply String.eqb_neq. by apply strip_head_nonempty. }
  simpl orb. cbv iota.
  destruct (Nat.ltb_spec 50 (length (v :: vs))) as [|_]; [lia|].
  assert (filter (λ v0, 100 < String.length v0) (v :: vs) = []) as ->.
  { clear -Hvals. induction Hvals as [|w ws (_ & _ & _ & Hw) _ IH]; [done|].
    rewrite filter_cons_False by lia. done. }
  rewrite bool_decide_eq_false_2 by (by intros ?).
  rewrite bool_decide_eq_false_2
    by (intros Hneq; apply Hneq; symmetry; by apply size_list_to_set).
  rewrite bool_decide_eq_false_2.
  2:{ intros Hneq. apply Hneq. apply set_eq. intros x. split; [|set_solver].
      intros [Hx Hother]%elem_of_intersection.
      apply elem_of_list_to_set in Hx.
      apply all_other_values_elem in Hother
        as [?|(k' & d' & Hk' & Hne & Hxd')]; [set_solver|].
      exfalso. eapply (Hdisj param (v :: vs) k' d' x); try done. congruence. }
  destruct (Nat.ltb_spec (length (v :: vs)) 2) as [|_]; [lia|]. done.
Qed.

(** X27. The text a parameter's field shows, its values joined by ", ",
    validates to the same values: in a map that satisfies the invariant,
    pressing "Update" without editing the field reports success and leaves
    the map unchanged. *)
Theorem update_unchanged_field (parameters : dict) (param : string)
    (d : list string) :
  state_ok isspace parameters →
  (param, d) ∈ parameters →
  main.update_clicked isspace list_of_names parameters param
    (main.field_text d)
    = (parameters, main.StSuccess ("Updated " +:+ param)).
Proof.
  intros Hok Hin. unfold main.update_clicked.
  rewrite validate_field_text by done. simpl.
  rewrite setitem_same; [done|apply Hok|done].
Qed.

End round_trip.

(** ** The invariant of the session's map, from checks that can be run *)

Lemma NoDup_mjoin_disjoint (ds : list (list string)) (i j : nat)
    (d1 d2 : list string) (v : string) :
  NoDup (mjoin ds) → ds !! i = Some d1 → ds !! j = Some d2 → i ≠ j →
  v ∈ d1 → v ∉ d2.
Proof.
  revert i j. induction ds as [|d ds IH]; intros i j Hnd Hi Hj Hne Hv Hv';
    [done|].
  simpl in Hnd. apply NoDup_app in Hnd as (_ & Hdisj & Hnd).
  destruct i as [|i], j as [|j]; simpl in *; try done.
  - injection Hi as ->. apply (Hdisj v Hv).
    apply list_elem_of_join. exists d2. split; [done|].
    by eapply list_elem_of_lookup_2.
  - injection Hj as ->. apply (Hdisj v Hv').
    apply list_elem_of_join. exists d1. split; [done|].
    by eapply list_elem_of_lookup_2.
  - eapply (IH i j); try done. congruence.
Qed.

Lemma state_ok_intro (isspace : ascii → bool) (parameters : dict) :
  dict_wf parameters →
  Forall (λ kd, clean_domain isspace kd.2) parameters →
  NoDup (mjoin (values parameters)) →
  state_ok isspace parameters.
Proof.
  intros Hwf Hclean Hnd. split; [done|]. split; [done|].
  intros k1 d1 k2 d2 v [i Hi]%list_elem_of_lookup_1
    [j Hj]%list_elem_of_lookup_1 Hne Hv.
  eapply (NoDup_mjoin_disjoint (values parameters) i j d1 d2); try done.
  - unfold values. by rewrite list_lookup_fmap, Hi.
  - unfold values. by rewrite list_lookup_fmap, Hj.
  - intros ->. congruence.
Qed.

Lemma state_ok_ex22 : state_ok ascii_isspace ex22.
Proof.
  apply state_ok_intro.
  - unfold dict_wf. by_computation.
  - unfold clean_domain, clean_value. by_computation.
  - by_computation.
Defined.

(** ** The further properties at concrete inputs *)

Lemma generate_order_independent_witness :
  generate_pairwise_combinations elements ex3
    = generate_pairwise_combinations elements ex3_swapped.
Proof.
  apply (generate_order_independent elements ex3 ex3_swapped).
  - unfold dict_wf. by_computation.
  - apply perm_swap.
Defined.

Lemma greedy_fewer_than_two_parameters_witness :
  greedyalgo.find_minimum_test_suite elements 1 ex1 = Ok ([], []).
Proof.
  apply (greedy_fewer_than_two_parameters elements 0 ex1).
  - exact set_listing_elements.
  - simpl. lia.
Defined.

Lemma get_pairs_in_test_size_witness :
  ∃ pairs,
    greedyalgo.get_pairs_in_test ["a"; "c"; "e"] (keys ex3) = Ok pairs ∧
    size pairs = choose2 (length (keys ex3)) ∧
    ∀ pr, pr ∈ pairs → String.ltb pr.1.1 pr.2.1 = true.
Proof.
  apply (get_pairs_in_test_size ["a"; "c"; "e"] (keys ex3)).
  - by_computation.
  - simpl. lia.
Defined.

Lemma greedy_suite_well_formed_witness :
  Forall (well_formed_test ex3) ex3_suite.
Proof.
  apply (greedy_suite_well_formed elements 20 ex3 ex3_suite ex3_pairs).
  by_computation.
Defined.

Lemma greedy_suite_covers_witness :
  (∀ pr, in_universe ex3 pr →
     ∃ t pairs, t ∈ ex3_suite ∧
       greedyalgo.get_pairs_in_test t (keys ex3) = Ok pairs ∧ pr ∈ pairs) ∧
  ∃ test_case_pairs new_unique_counts,
    greedyalgo.count_unique_pairs ex3_suite ex3_pairs ex3
      = Ok (list_to_set ex3_pairs, test_case_pairs, new_unique_counts).
Proof.
  apply (greedy_suite_covers elements 20 ex3 ex3_suite ex3_pairs).
  - exact set_listing_elements.
  - unfold dict_wf. by_computation.
  - by_computation.
  - by_computation.
Defined.

Lemma greedy_marginals_non_increasing_witness :
  ∃ covered test_case_pairs new_unique_counts,
    greedyalgo.count_unique_pairs ex3_suite ex3_pairs ex3
      = Ok (covered, test_case_pairs, new_unique_counts) ∧
    StronglySorted (λ a b, (b ≤ a)%Z) new_unique_counts.
Proof.
  apply (greedy_marginals_non_increasing elements 20 ex3 ex3_suite ex3_pairs).
  by_computation.
Defined.

Lemma greedy_first_test_case_witness :
  head ex3_suite
    = Some ((λ kd : string * list string, hd "" kd.2) <$> ex3).
Proof.
  apply (greedy_first_test_case elements 20 ex3 ex3_suite ex3_pairs).
  - exact set_listing_elements.
  - unfold dict_wf. by_computation.
  - simpl. lia.
  - by_computation.
  - by_computation.
Defined.

Lemma greedy_analyzer_accounts_witness :
  length (pairs_of (keys ex3) <$> ex3_suite) = length ex3_suite ∧
  ⋃ (pairs_of (keys ex3) <$> ex3_suite)
    = ⋃ (pairs_of (keys ex3) <$> ex3_suite) ∧
  Forall2 (λ m (X : gset pair_t), (0 ≤ m ≤ Z.of_nat (size X))%Z)
    (marginals (pairs_of (keys ex3)) ∅ ex3_suite)
    (pairs_of (keys ex3) <$> ex3_suite) ∧
  head (marginals (pairs_of (keys ex3)) ∅ ex3_suite) =
    (λ X : gset pair_t, Z.of_nat (size X))
      <$> head (pairs_of (keys ex3) <$> ex3_suite) ∧
  sum_counts (marginals (pairs_of (keys ex3)) ∅ ex3_suite)
    = Z.of_nat (size (⋃ (pairs_of (keys ex3) <$> ex3_suite))).
Proof.
  apply (greedy_analyzer_accounts ex3_suite ex3_pairs ex3).
  by_computation.
Defined.

Lemma algo_analyzer_order_independent_witness :
  ∃ covered_pairs tcp counts tcp' counts',
    algo.count_unique_pairs [["a"; "c"; "e"]; ["b"; "d"; "f"]] ex3_pairs ex3
      = Ok (covered_pairs, tcp, counts) ∧
    algo.count_unique_pairs [["b"; "d"; "f"]; ["a"; "c"; "e"]] ex3_pairs ex3
      = Ok (covered_pairs, tcp', counts') ∧
    tcp ≡ₚ tcp'.
Proof.
  apply (algo_analyzer_order_independent
           [["a"; "c"; "e"]; ["b"; "d"; "f"]]
           [["b"; "d"; "f"]; ["a"; "c"; "e"]] ex3_pairs ex3).
  apply perm_swap.
Defined.

Lemma greedy_analyzer_order_independent_witness :
  ∃ tcp' counts',
    greedyalgo.count_unique_pairs [["b"; "d"; "f"]; ["a"; "c"; "e"]]
      ex3_pairs ex3
      = Ok (⋃ (pairs_of (keys ex3) <$> [["a"; "c"; "e"]; ["b"; "d"; "f"]]),
            tcp', counts') ∧
    pairs_of (keys ex3) <$> [["a"; "c"; "e"]; ["b"; "d"; "f"]] ≡ₚ tcp'.
Proof.
  apply (greedy_analyzer_order_independent
           [["a"; "c"; "e"]; ["b"; "d"; "f"]]
           [["b"; "d"; "f"]; ["a"; "c"; "e"]] ex3_pairs ex3 _ _
           (marginals (pairs_of (keys ex3)) ∅
              [["a"; "c"; "e"]; ["b"; "d"; "f"]])).
  - apply perm_swap.
  - by_computation.
Defined.


Lemma exact_model_lists_witness :
  ∃ js,
    algo.max_equalities (exact_model elements ex2) !! 0 = Some js ∧
    ∀ j, j ∈ js ↔
      ∃ t pairs,
        Py.product (values ex2) !! j = Some t ∧
        greedyalgo.get_pairs_in_test t (keys ex2) = Ok pairs ∧
        (("A", "a"), ("B", "b")) ∈ pairs.
Proof.
  apply (exact_model_lists elements ex2 0 (("A", "a"), ("B", "b"))).
  - exact set_listing_elements.
  - unfold dict_wf. by_computation.
  - by_computation.
Defined.

Lemma exact_model_size_witness :
  algo.num_test_case_vars (exact_model elements ex3) = candidate_count ex3 ∧
  length (algo.max_equalities (exact_model elements ex3)) = universe_size ex3 ∧
  algo.covered_sum (exact_model elements ex3) = universe_size ex3.
Proof.
  apply (exact_model_size elements ex3).
  - exact set_listing_elements.
  - unfold dict_wf. by_computation.
  - by_computation.
Defined.

Lemma exact_suite_covers_witness :
  ∃ test_case_pairs new_unique_counts,
    algo.count_unique_pairs [["a"; "b"]] ex2_pairs (algo.as_dict ex2_items)
      = Ok (list_to_set ex2_pairs, test_case_pairs, new_unique_counts).
Proof.
  apply (exact_suite_covers (engine_all algo.OPTIMAL) elements ex2_items
           [["a"; "b"]] ex2_pairs []).
  - exact set_listing_elements.
  - unfold dict_wf. by_computation.
  - by_computation.
  - unfold covers_all. by_computation.
Defined.

Lemma greedy_suite_lower_bound_witness :
  length ["a"; "b"] * length ["e"; "f"] ≤ length ex3_suite.
Proof.
  apply (greedy_suite_lower_bound elements 20 ex3 ex3_suite ex3_pairs
           "P1" "P3" ["a"; "b"] ["e"; "f"]).
  - exact set_listing_elements.
  - unfold dict_wf. by_computation.
  - by_computation.
  - by_computation.
  - by_computation.
  - by_computation.
  - by_computation.
  - discriminate.
Defined.

Lemma greedy_two_parameters_witness :
  length ex22_suite = length ["a1"; "a2"] * length ["b1"; "b2"] ∧
  ex22_suite ≡ₚ Py.product [["a1"; "a2"]; ["b1"; "b2"]].
Proof.
  apply (greedy_two_parameters elements 20 "A" "B" ["a1"; "a2"] ["b1"; "b2"]
           ex22_suite ex22_pairs).
  - exact set_listing_elements.
  - discriminate.
  - discriminate.
  - discriminate.
  - by_computation.
  - by_computation.
  - by_computation.
Defined.

Lemma generate_greedy_page_witness :
  ∃ suite counts,
    main.generate_clicked engine_infeasible elements 20 "Greedy" ex3
      = Ok (results_page ex3 suite counts (universe_size ex3)) ∧
    suite ≠ [] ∧
    length counts = length suite ∧
    Forall (well_formed_test ex3) suite ∧
    Forall (λ c, (0 < c)%Z) counts ∧
    sum_counts counts = Z.of_nat (universe_size ex3).
Proof.
  apply (generate_greedy_page engine_infeasible elements 20 "Greedy" ex3).
  - exact set_listing_elements.
  - unfold dict_wf. by_computation.
  - unfold gate. by_computation.
  - by_computation.
  - discriminate.
  - vm_compute. lia.
Defined.


Lemma generate_exact_page_witness :
  ∃ suite counts warnings,
    main.generate_clicked (engine_all algo.FEASIBLE) elements 0 "CP-SAT" ex22
      = Ok (warnings ++
            results_page ex22 suite counts (universe_size ex22)) ∧
    (warnings = [] ↔
     (engine_all algo.FEASIBLE (exact_model elements ex22)).1 = algo.OPTIMAL) ∧
    suite ≠ [] ∧
    suite `sublist_of` Py.product (values ex22) ∧
    length counts = length suite ∧
    sum_counts counts = Z.of_nat (universe_size ex22).
Proof.
  apply (generate_exact_page (engine_all algo.FEASIBLE) elements 0 ex22).
  - exact set_listing_elements.
  - unfold dict_wf. by_computation.
  - unfold gate. by_computation.
  - by_computation.
  - by right.
  - unfold covers_all. by_computation.
Defined.

Lemma add_parameter_invariant_witness :
  ∃ parameters' shown,
    main.add_parameter_clicked ascii_isspace ascii_isalnum elements ex22
      " C " "c1, c2" = (parameters', shown) ∧
    state_ok ascii_isspace parameters' ∧
    ((∃ d, shown = main.StSuccess ("Added " +:+ " C ") ∧
           (main.strip ascii_isspace " C " ∉ keys ex22) ∧
           parameters' = ex22 ++ [(main.strip ascii_isspace " C ", d)]) ∨
     (∃ msg, shown = main.StError msg ∧ parameters' = ex22)).
Proof.
  apply (add_parameter_invariant ascii_isspace ascii_isalnum elements ex22
           " C " "c1, c2").
  exact state_ok_ex22.
Defined.

Lemma update_invariant_witness :
  ∃ parameters' shown,
    main.update_clicked ascii_isspace elements ex22 "A" "x, y ,z"
      = (parameters', shown) ∧
    state_ok ascii_isspace parameters' ∧
    keys parameters' = keys ex22 ∧
    ((∃ d, shown = main.StSuccess ("Updated " +:+ "A") ∧
           clean_domain ascii_isspace d ∧ getitem parameters' "A" = Ok d) ∨
     (∃ msg, shown = main.StError msg ∧ parameters' = ex22)).
Proof.
  apply (update_invariant ascii_isspace elements ex22 "A" "x, y ,z").
  - exact state_ok_ex22.
  - by_computation.
Defined.

Lemma delete_invariant_witness :
  if decide ("A" ∈ keys ex22) then
    ∃ shown,
      main.delete_clicked ex22 "A"
        = Ok (filter (λ kd : string * list string, kd.1 ≠ "A") ex22, shown) ∧
      state_ok ascii_isspace
        (filter (λ kd : string * list string, kd.1 ≠ "A") ex22) ∧
      S (length (filter (λ kd : string * list string, kd.1 ≠ "A") ex22))
        = length ex22
  else main.delete_clicked ex22 "A" = Raise KeyError.
Proof.
  apply (delete_invariant ascii_isspace ex22 "A").
  exact state_ok_ex22.
Defined.

Lemma update_unchanged_field_witness :
  main.update_clicked ascii_isspace elements ex22 "A"
    (main.field_text ["a1"; "a2"])
    = (ex22, main.StSuccess ("Updated " +:+ "A")).
Proof.
  apply (update_unchanged_field ascii_isspace elements).
  - reflexivity.
  - exact state_ok_ex22.
  - by_computation.
Defined.
